(** * A shallow embedding of the gomoku search engine (gomoku.py)

    The development follows class [Minimax] of gomoku.py: Zobrist hashing of
    the board, five-in-a-row detection, candidate-move generation, the
    heuristic evaluator and the depth-limited alpha-beta search with its
    transposition table; and class [Game], the loop that lets two engines
    play on one board.

    Conventions:
    - the board is the Python list of rows, [list (list Z)]; [size] is
      [len(board)].  Every read [board[x][y]] of the source happens with
      [0 <= x < size] and [0 <= y < size]; on a square board those reads are
      in range, and the theorems assume [square].
    - scores are Python floats: [evaluate_board] computes
      [ai_score * 1.2 - opponent_score] in binary64, and the search window
      starts at [-math.inf], [math.inf].  They are Rocq's primitive floats.
    - [ZOBRIST_TABLE] is drawn at random when the module is imported: it is a
      parameter.  Its shape (20, 20, 3) is kept: an index outside it raises
      IndexError.
    - [list(available_moves)] enumerates a Python set; the language leaves the
      iteration order open, so the enumeration is a parameter [set_order]
      that returns the elements of the set, each once.  The enumeration of
      CPython 3.11 is given as an instance, [cpython_order].
    - [minimax] recurses on a counter [fuel]; a call returns [Ok], raises
      ([IndexError]) or runs out of fuel.  One more unit of fuel than the
      board has empty cells is always enough ([minimax_returns]). *)

From Stdlib Require Import ZArith Bool Lia Floats.
From stdpp Require Import base option list list_numbers sorting gmap.

Local Open Scope Z_scope.

(** ** Boards *)

Abbreviation board := (list (list Z)).
Abbreviation move := (Z * Z)%type.

Definition size (b : board) : Z := Z.of_nat (length b).

(** [self.board[x][y]], for [0 <= x] and [0 <= y]. *)
Definition get (b : board) (x y : Z) : Z :=
  default 0 (b !! Z.to_nat x ≫= λ row, row !! Z.to_nat y).

(** [self.board[x][y] = v] *)
Definition set_cell (b : board) (x y v : Z) : board :=
  alter (λ row, <[Z.to_nat y := v]> row) (Z.to_nat x) b.

(** [0 <= x < self.size and 0 <= y < self.size] *)
Definition in_bounds (b : board) (x y : Z) : bool :=
  (0 <=? x) && (x <? size b) && (0 <=? y) && (y <? size b).

(** A grid: every row has [size] cells. *)
Definition square (b : board) : Prop :=
  Forall (λ row, length row = length b) b.

Definition squareb (b : board) : bool :=
  forallb (λ row, Nat.eqb (length row) (length b)) b.

(** [for x in range(n): for y in range(n)], in that order. *)
Definition all_cells (n : Z) : list move :=
  seqZ 0 n ≫= λ x, pair x <$> seqZ 0 n.

Definition ai_role : Z := 1.
Definition opponent_role : Z := 2.

(** [[(1, 0), (0, 1), (1, 1), (1, -1)]] *)
Definition directions : list (Z * Z) := [(1, 0); (0, 1); (1, 1); (1, -1)].

(** ** Win detection *)

(** The loop of [check_direction]: [n] iterations left, [count] stones seen. *)
Fixpoint check_direction_loop (n : nat) (b : board) (x y role dx dy count : Z)
  : bool :=
  match n with
  | O => false
  | S n' =>
      if in_bounds b x y && (get b x y =? role) then
        let count := count + 1 in
        if count =? 5 then true
        else check_direction_loop n' b (x + dx) (y + dy) role dx dy count
      else false
  end.

Definition check_direction (b : board) (x y role : Z) (direction : Z * Z)
  : bool :=
  let '(dx, dy) := direction in
  check_direction_loop 5 b x y role dx dy 0.

(** [is_winning_move]: the first cell and direction that succeed return True. *)
Definition is_winning_move (b : board) (role : Z) : bool :=
  existsb (λ c : move,
      let '(x, y) := c in
      (get b x y =? role) && existsb (check_direction b x y role) directions)
    (all_cells (size b)).

(** ** Evaluation *)

(** The loop of [count_in_line]. *)
Fixpoint count_in_line_loop (n : nat) (b : board) (x y dx dy role count : Z)
  : Z :=
  match n with
  | O => count
  | S n' =>
      if in_bounds b x y && (get b x y =? role) then
        count_in_line_loop n' b (x + dx) (y + dy) dx dy role (count + 1)
      else count
  end.

Definition count_in_line (b : board) (x y dx dy role : Z) : Z :=
  count_in_line_loop 5 b x y dx dy role 0.

(** The [elif] chain of [evaluate_lines] below the test for 5. *)
Definition line_points (length : Z) : Z :=
  if length =? 4 then 100
  else if length =? 3 then 10
  else if length =? 2 then 1
  else 0.

(** State of the loops of [evaluate_lines]: a [return] taken, or the running
    [score] and the [cached_scores] dict. *)
Inductive lines_state :=
| Returned (v : Z)
| Running (score : Z) (cached_scores : gmap (Z * Z * Z * Z) Z).

(** Body of [for dx, dy in directions]. *)
Definition lines_direction (b : board) (role x y : Z) (st : lines_state)
    (d : Z * Z) : lines_state :=
  match st with
  | Returned v => Returned v
  | Running score cached =>
      let '(dx, dy) := d in
      let '(length, cached) :=
        match cached !! (x, y, dx, dy) with
        | None =>
            let length := count_in_line b x y dx dy role in
            (length, <[(x, y, dx, dy) := length]> cached)
        | Some length => (length, cached)
        end in
      if length =? 5 then Returned 10000
      else Running (score + line_points length) cached
  end.

(** Body of [for y in range(self.size)]. *)
Definition lines_cell (b : board) (role : Z) (st : lines_state) (c : move)
  : lines_state :=
  let '(x, y) := c in
  if get b x y =? role then
    fold_left (lines_direction b role x y) directions st
  else st.

Definition evaluate_lines (b : board) (role : Z) : Z :=
  match fold_left (lines_cell b role) (all_cells (size b)) (Running 0 ∅) with
  | Returned v => v
  | Running score _ => score
  end.

(** Conversion of a Python int to float, as [int * float] and [float - int]
    do it; exact below [2^53], which the line scores never reach. *)
Definition float_of_int (n : Z) : float :=
  if 0 <=? n then PrimFloat.of_uint63 (Uint63.of_Z n)
  else PrimFloat.opp (PrimFloat.of_uint63 (Uint63.of_Z (- n))).

(** The literal [1.2]: the binary64 value nearest to it. *)
Definition own_bias : float := 0x1.3333333333333p+0%float.

(** [ai_score * 1.2 - opponent_score] *)
Definition evaluate_board (b : board) : float :=
  let ai_score := evaluate_lines b ai_role in
  let opponent_score := evaluate_lines b opponent_role in
  PrimFloat.sub (PrimFloat.mul (float_of_int ai_score) own_bias)
                (float_of_int opponent_score).

(** ** The engine: hashing, candidate moves and the search *)

(** What a call can do besides returning: the only exception the engine can
    raise on a square board is the IndexError of [ZOBRIST_TABLE]; [OutOfFuel]
    is the embedding's, for a recursion cut short. *)
Inductive outcome (A : Type) :=
| Ok (a : A)
| IndexError
| OutOfFuel.
Arguments Ok {A} a.
Arguments IndexError {A}.
Arguments OutOfFuel {A}.

(** A record of a transposition entry, [{"score": s, "depth": d}]. *)
Abbreviation tt_entry := (float * Z)%type.

(** The calls an engine makes, newest first; kept next to the state so that
    what a call invokes, and what it does not, can be stated. *)
Inductive call :=
| CallMinimax (depth : Z)
| CallHash
| CallWin (role : Z)
| CallEvaluate
| CallMoves.

(** The [Minimax] object: the board it is bound to and its table. *)
Record engine := Engine {
  eboard : board;
  transposition_table : gmap Z tt_entry;
  calls : list call
}.

Definition log (c : call) (e : engine) : engine :=
  Engine (eboard e) (transposition_table e) (c :: calls e).

Definition place (e : engine) (x y v : Z) : engine :=
  Engine (set_cell (eboard e) x y v) (transposition_table e) (calls e).

Definition store (e : engine) (h : Z) (score : float) (depth : Z) : engine :=
  Engine (eboard e) (<[h := (score, depth)]> (transposition_table e)) (calls e).

(** [taken_moves] of [available_moves]: the occupied cells, row by row. *)
Definition taken_moves (b : board) : list move :=
  filter (λ c : move, get b c.1 c.2 ≠ 0) (all_cells (size b)).


Section Engine.

(** [ZOBRIST_TABLE[x][y][piece]] for indices inside the shape. *)
Variable ZOBRIST_TABLE : Z → Z → Z → Z.

(** [list(s)] for the set [s] built by adding the elements of the argument
    in order. *)
Variable set_order : list move → list move.

(** [ZOBRIST_TABLE[x][y][piece]] with numpy's bounds: shape (20, 20, 3),
    a negative [piece] counts from the end; [None] is IndexError.  [x] and
    [y] come from [range(self.size)]. *)
Definition zobrist_entry (x y piece : Z) : option Z :=
  if (x <? 20) && (y <? 20) && (-3 <=? piece) && (piece <? 3)
  then Some (ZOBRIST_TABLE x y (piece mod 3))
  else None.

(** Body of the inner loop of [zobrist_hash]. *)
Definition hash_step (b : board) (acc : option Z) (c : move) : option Z :=
  let '(x, y) := c in
  hash_value ← acc;
  let piece := get b x y in
  if piece =? 0 then Some hash_value
  else entry ← zobrist_entry x y piece; Some (Z.lxor hash_value entry).

Definition zobrist_hash (b : board) : option Z :=
  fold_left (hash_step b) (all_cells (size b)) (Some 0).

(** The exclusive-or of the table entries of the cells of a list, read on
    board [b]; [None] when an entry is outside the table. *)
Fixpoint xor_entries (b : board) (cells : list move) : option Z :=
  match cells with
  | [] => Some 0
  | (x, y) :: rest =>
      entry ← zobrist_entry x y (get b x y);
      others ← xor_entries b rest;
      Some (Z.lxor entry others)
  end.

(** The elements added to the set of [available_moves], in the order of the
    three loops. *)
Definition neighbourhood (b : board) (c : move) : list move :=
  let '(x, y) := c in
  seqZ (-2) 5 ≫= λ dx, seqZ (-2) 5 ≫= λ dy,
    let nx := x + dx in
    let ny := y + dy in
    if in_bounds b nx ny && (get b nx ny =? 0) then [(nx, ny)] else [].

Definition added_moves (b : board) : list move :=
  taken_moves b ≫= neighbourhood b.

Definition available_moves (b : board) : list move :=
  set_order (added_moves b).

(** [hash_value in table and table[hash_value]["depth"] >= depth] *)
Definition tt_hit (tt : gmap Z tt_entry) (h depth : Z) : option float :=
  match tt !! h with
  | Some (score, d) => if depth <=? d then Some score else None
  | None => None
  end.

(** [depth == 0 or self.is_winning_move(self.ai_role) or
    self.is_winning_move(self.opponent_role)], with the calls it makes. *)
Definition terminal (depth : Z) (e : engine) : bool * engine :=
  if depth =? 0 then (true, e)
  else
    let e := log (CallWin ai_role) e in
    if is_winning_move (eboard e) ai_role then (true, e)
    else
      let e := log (CallWin opponent_role) e in
      (is_winning_move (eboard e) opponent_role, e).

(** The [for move in moves] loop of [minimax]; [rec alpha beta e] is the
    recursive call [self.minimax(depth - 1, alpha, beta, not
    maximizing_player)], of which the loop keeps the score. *)
Fixpoint candidates_loop
    (rec : float → float → engine → outcome (float * engine))
    (maximizing_player : bool) (moves : list move) (alpha beta : float)
    (best_move : option move) (e : engine)
  : outcome (float * option move * engine) :=
  match moves with
  | [] => Ok (if maximizing_player then alpha else beta, best_move, e)
  | (x, y) :: rest =>
      let e := place e x y
                 (if maximizing_player then ai_role else opponent_role) in
      match rec alpha beta e with
      | Ok (eval, e) =>
          let e := place e x y 0 in
          let '(alpha, beta, best_move) :=
            if maximizing_player then
              if PrimFloat.ltb alpha eval
              then (eval, beta, Some (x, y))
              else (alpha, beta, best_move)
            else
              if PrimFloat.ltb eval beta
              then (alpha, eval, Some (x, y))
              else (alpha, beta, best_move) in
          if PrimFloat.leb beta alpha
          then Ok (if maximizing_player then alpha else beta, best_move, e)
          else candidates_loop rec maximizing_player rest alpha beta
                 best_move e
      | IndexError => IndexError
      | OutOfFuel => OutOfFuel
      end
  end.

(** Lines 72-100 of [minimax]: the node after a table miss. *)
Definition expand_node
    (rec : float → float → engine → outcome (float * engine))
    (hash_value depth : Z) (alpha beta : float) (maximizing_player : bool)
    (e : engine) : outcome (float * option move * engine) :=
  let '(stop, e) := terminal depth e in
  if stop then
    let e := log CallEvaluate e in
    let score := evaluate_board (eboard e) in
    Ok (score, None, store e hash_value score depth)
  else
    let e := log CallMoves e in
    let moves := available_moves (eboard e) in
    candidates_loop rec maximizing_player moves alpha beta None e.

(** [minimax(depth, alpha, beta, maximizing_player)]; [fuel] bounds the
    nesting of recursive calls. *)
Fixpoint minimax (fuel : nat) (depth : Z) (alpha beta : float)
    (maximizing_player : bool) (e : engine)
  : outcome (float * option move * engine) :=
  match fuel with
  | O => OutOfFuel
  | S fuel' =>
      let e := log CallHash (log (CallMinimax depth) e) in
      match zobrist_hash (eboard e) with
      | None => IndexError
      | Some hash_value =>
          match tt_hit (transposition_table e) hash_value depth with
          | Some score => Ok (score, None, e)
          | None =>
              expand_node
                (λ alpha beta e,
                   match minimax fuel' (depth - 1) alpha beta
                           (negb maximizing_player) e with
                   | Ok (eval, _, e) => Ok (eval, e)
                   | IndexError => IndexError
                   | OutOfFuel => OutOfFuel
                   end)
                hash_value depth alpha beta maximizing_player e
          end
      end
  end.

End Engine.

(** The recursive call of [minimax] as its loop sees it. *)
Definition child_call (ZOBRIST_TABLE : Z → Z → Z → Z)
    (set_order : list move → list move) (fuel : nat) (depth : Z)
    (maximizing_player : bool) (alpha beta : float) (e : engine)
  : outcome (float * engine) :=
  match minimax ZOBRIST_TABLE set_order fuel (depth - 1) alpha beta
          (negb maximizing_player) e with
  | Ok (eval, _, e) => Ok (eval, e)
  | IndexError => IndexError
  | OutOfFuel => OutOfFuel
  end.

(** ** Definitions used by the statements *)

(** Five cells from [(x, y)] in steps of [(dx, dy)], all inside the grid and
    all holding [role]. *)
Definition five_from (b : board) (role x y dx dy : Z) : Prop :=
  ∀ k, 0 ≤ k < 5 →
    in_bounds b (x + k * dx) (y + k * dy) = true ∧
    get b (x + k * dx) (y + k * dy) = role.

(** An unbroken five along a column, a row or one of the two diagonals. *)
Definition has_five (b : board) (role : Z) : Prop :=
  ∃ x y d, d ∈ directions ∧ five_from b role x y d.1 d.2.

Fixpoint sumZ (l : list Z) : Z :=
  match l with
  | [] => 0
  | z :: l => z + sumZ l
  end.

(** The run lengths of every pair of a cell held by [role] and a direction,
    in the order of the scan. *)
Definition run_lengths (b : board) (role : Z) : list Z :=
  all_cells (size b) ≫= λ c : move,
    if get b c.1 c.2 =? role
    then (λ d : Z * Z, count_in_line b c.1 c.2 d.1 d.2 role) <$> directions
    else [].

(** The per-player line score in the words of the specification: the fixed
    bonus as soon as some run has length 5, else the sum of the points of
    all runs. *)
Definition line_score_spec (b : board) (role : Z) : Z :=
  if existsb (λ len, len =? 5) (run_lengths b role) then 10000
  else sumZ (line_points <$> run_lengths b role).

(** The scan of [evaluate_lines] over a list of run lengths. *)
Fixpoint score_runs (lens : list Z) (score : Z) : Z :=
  match lens with
  | [] => score
  | len :: rest =>
      if len =? 5 then 10000 else score_runs rest (score + line_points len)
  end.

(** [cached_scores] only ever holds the length [count_in_line] returns. *)
Definition cache_ok (b : board) (role : Z) (cached : gmap (Z * Z * Z * Z) Z)
  : Prop :=
  ∀ x y dx dy v,
    cached !! (x, y, dx, dy) = Some v → v = count_in_line b x y dx dy role.

Definition final_score (st : lines_state) : Z :=
  match st with
  | Returned v => v
  | Running score _ => score
  end.

(** The points a cell contributes to the line score of [role]. *)
Definition cell_points (b : board) (role : Z) (c : move) : Z :=
  sumZ (line_points <$>
    (if get b c.1 c.2 =? role
     then (λ d : Z * Z, count_in_line b c.1 c.2 d.1 d.2 role) <$> directions
     else [])).

(** Three stones of [role] side by side in row [x], columns [y] to [y + 2],
    and no other stone of [role] on the board. *)
Definition three_in_row (b : board) (role x y : Z) : Prop :=
  in_bounds b x y = true ∧ in_bounds b x (y + 2) = true ∧
  ∀ x' y', in_bounds b x' y' = true →
    (get b x' y' = role ↔ x' = x ∧ y ≤ y' ≤ y + 2).

(** A single stone of [role], at [(x, y)]. *)
Definition single_stone (b : board) (role x y : Z) : Prop :=
  in_bounds b x y = true ∧
  ∀ x' y', in_bounds b x' y' = true → (get b x' y' = role ↔ x' = x ∧ y' = y).

(** Evaluates a run length once the test of each cell is known as a decision
    [Hcell]. *)
Ltac run_length Hcell :=
  unfold count_in_line; cbn [count_in_line_loop fst snd];
  rewrite ?Hcell;
  repeat (case_bool_decide; try lia);
  reflexivity.

(** What [list(s)] guarantees of a set [s]: its elements, each once. *)
Definition set_enumeration (set_order : list move → list move) : Prop :=
  ∀ l, NoDup (set_order l) ∧ ∀ m, m ∈ set_order l ↔ m ∈ l.

(** Row-major order on cells: ascending by row, then by column. *)
Definition cell_lt (c1 c2 : move) : Prop :=
  c1.1 < c2.1 ∨ (c1.1 = c2.1 ∧ c1.2 < c2.2).

Definition ascending (l : list move) : Prop :=
  ∀ i j c1 c2, (i < j)%nat → l !! i = Some c1 → l !! j = Some c2 → cell_lt c1 c2.

(** An empty cell of the grid within Chebyshev distance 2 of an occupied one. *)
Definition candidate (b : board) (m : move) : Prop :=
  in_bounds b m.1 m.2 = true ∧ get b m.1 m.2 = 0 ∧
  ∃ x y, in_bounds b x y = true ∧ get b x y ≠ 0 ∧
         -2 ≤ m.1 - x ≤ 2 ∧ -2 ≤ m.2 - y ≤ 2.

(** The table [t'] keeps every key of [t], with its entry unchanged or
    replaced by one of strictly greater depth. *)
Definition tt_mono (t t' : gmap Z tt_entry) : Prop :=
  ∀ h s d, t !! h = Some (s, d) →
    ∃ s' d', t' !! h = Some (s', d') ∧ ((s', d') = (s, d) ∨ d < d').

(** A board the Zobrist table covers: at most 20 rows, cells 0, 1 or 2. *)
Definition board_in_table (b : board) : Prop :=
  size b ≤ 20 ∧
  ∀ x y, in_bounds b x y = true → 0 ≤ get b x y ≤ 2.

Definition board_in_tableb (b : board) : bool :=
  (size b <=? 20) &&
  forallb (λ c : move, (0 <=? get b c.1 c.2) && (get b c.1 c.2 <=? 2))
    (all_cells (size b)).

(** Number of empty cells of the grid. *)
Definition empties (b : board) : nat :=
  length (filter (λ c : move, get b c.1 c.2 = 0) (all_cells (size b))).

(** The life of an engine: searches on a grid, and writes of the game loop
    on the board it shares with the engine. *)
Inductive lifetime (ZOBRIST_TABLE : Z → Z → Z → Z)
    (set_order : list move → list move) (e : engine) : engine → Prop :=
| lifetime_new : lifetime ZOBRIST_TABLE set_order e e
| lifetime_search e1 fuel depth alpha beta maximizing_player score mv e2 :
    lifetime ZOBRIST_TABLE set_order e e1 →
    square (eboard e1) →
    minimax ZOBRIST_TABLE set_order fuel depth alpha beta maximizing_player e1
      = Ok (score, mv, e2) →
    lifetime ZOBRIST_TABLE set_order e e2
| lifetime_board e1 b :
    lifetime ZOBRIST_TABLE set_order e e1 →
    lifetime ZOBRIST_TABLE set_order e
      (Engine b (transposition_table e1) (calls e1)).

(** ** The searches [minimax] is compared with *)

(** The role placed at a node: [self.ai_role if maximizing_player else
    self.opponent_role]. *)
Definition mover (maximizing_player : bool) : Z :=
  if maximizing_player then ai_role else opponent_role.

(** A node where the search stops, [d] plies from the horizon. *)
Definition leaf (d : nat) (b : board) : bool :=
  match d with
  | O => true
  | S _ => is_winning_move b ai_role || is_winning_move b opponent_role
  end.

Section PureSearch.

Variable set_order : list move → list move.

(** [minimax] with its transposition table taken out: the same loop, the
    same pruning, on a board passed by value. *)
Fixpoint alphabeta_loop (rec : float → float → board → float)
    (maximizing_player : bool) (b : board) (moves : list move)
    (alpha beta : float) (best_move : option move) : float * option move :=
  match moves with
  | [] => (if maximizing_player then alpha else beta, best_move)
  | (x, y) :: rest =>
      let eval := rec alpha beta (set_cell b x y (mover maximizing_player)) in
      let '(alpha, beta, best_move) :=
        if maximizing_player then
          if PrimFloat.ltb alpha eval
          then (eval, beta, Some (x, y))
          else (alpha, beta, best_move)
        else
          if PrimFloat.ltb eval beta
          then (alpha, eval, Some (x, y))
          else (alpha, beta, best_move) in
      if PrimFloat.leb beta alpha
      then (if maximizing_player then alpha else beta, best_move)
      else alphabeta_loop rec maximizing_player b rest alpha beta best_move
  end.

Fixpoint alphabeta (d : nat) (alpha beta : float) (maximizing_player : bool)
    (b : board) : float * option move :=
  match d with
  | O => (evaluate_board b, None)
  | S d' =>
      if is_winning_move b ai_role || is_winning_move b opponent_role
      then (evaluate_board b, None)
      else
        alphabeta_loop
          (λ alpha beta b', (alphabeta d' alpha beta (negb maximizing_player) b').1)
          maximizing_player b (available_moves set_order b) alpha beta None
  end.

(** [minimax] with its table and its pruning taken out: every candidate of
    every node is searched; a maximizing node keeps the first candidate of
    greatest score, starting from [-inf], a minimizing node the first of
    least score, starting from [+inf].  As in the code, a node without
    candidates falls through the loop and returns that starting value. *)
Fixpoint exhaustive_loop (rec : board → float) (maximizing_player : bool)
    (b : board) (moves : list move) (best : float) (best_move : option move)
  : float * option move :=
  match moves with
  | [] => (best, best_move)
  | (x, y) :: rest =>
      let eval := rec (set_cell b x y (mover maximizing_player)) in
      if (if maximizing_player then PrimFloat.ltb best eval
          else PrimFloat.ltb eval best)
      then exhaustive_loop rec maximizing_player b rest eval (Some (x, y))
      else exhaustive_loop rec maximizing_player b rest best best_move
  end.

Fixpoint exhaustive (d : nat) (maximizing_player : bool) (b : board)
  : float * option move :=
  match d with
  | O => (evaluate_board b, None)
  | S d' =>
      if is_winning_move b ai_role || is_winning_move b opponent_role
      then (evaluate_board b, None)
      else
        exhaustive_loop (λ b', (exhaustive d' (negb maximizing_player) b').1)
          maximizing_player b (available_moves set_order b)
          (if maximizing_player then neg_infinity else infinity) None
  end.

(** The positions of the search tree of depth [d] below [b]. *)
Fixpoint positions (d : nat) (maximizing_player : bool) (b : board)
  : list board :=
  b ::
  match d with
  | O => []
  | S d' =>
      if is_winning_move b ai_role || is_winning_move b opponent_role then []
      else
        available_moves set_order b ≫= λ m : move,
          positions d' (negb maximizing_player)
            (set_cell b m.1 m.2 (mover maximizing_player))
  end.

(** Exhaustive minimax in the words of the specification (4.5, steps 3 to 6,
    without the table of step 2 and the pruning of step 5): a terminal node
    has its static score; at any other node every candidate is searched, and
    the maximizing side remembers the move whenever the score of the child
    exceeds the best so far, which starts at [-inf] (the minimizing side
    symmetrically, from [+inf]); if no candidate moves exist the node
    returns no move with its static score. *)
Fixpoint spec_exhaustive (d : nat) (maximizing_player : bool) (b : board)
  : float * option move :=
  match d with
  | O => (evaluate_board b, None)
  | S d' =>
      if is_winning_move b ai_role || is_winning_move b opponent_role
      then (evaluate_board b, None)
      else
        match available_moves set_order b with
        | [] => (evaluate_board b, None)
        | moves =>
            exhaustive_loop
              (λ b', (spec_exhaustive d' (negb maximizing_player) b').1)
              maximizing_player b moves
              (if maximizing_player then neg_infinity else infinity) None
        end
  end.

(** Every position of the search tree of depth [d] below [b] at which the
    search goes on (above the horizon, no five on the board) has a
    candidate move. *)
Fixpoint nodes_have_candidates (d : nat) (maximizing_player : bool)
    (b : board) : bool :=
  match d with
  | O => true
  | S d' =>
      if is_winning_move b ai_role || is_winning_move b opponent_role
      then true
      else
        match available_moves set_order b with
        | [] => false
        | moves =>
            forallb (λ m : move,
                nodes_have_candidates d' (negb maximizing_player)
                  (set_cell b m.1 m.2 (mover maximizing_player)))
              moves
        end
  end.

End PureSearch.

(** No two positions of [P] share a fingerprint. *)
Definition fingerprints_distinct (ZOBRIST_TABLE : Z → Z → Z → Z)
    (P : list board) : Prop :=
  ∀ p q, p ∈ P → q ∈ P →
    zobrist_hash ZOBRIST_TABLE p = zobrist_hash ZOBRIST_TABLE q → p = q.

Definition fingerprints_distinctb (ZOBRIST_TABLE : Z → Z → Z → Z)
    (P : list board) : bool :=
  let hashed := (λ p, (zobrist_hash ZOBRIST_TABLE p, p)) <$> P in
  forallb (λ hp : option Z * board, forallb (λ hq : option Z * board,
      implb (bool_decide (hp.1 = hq.1)) (bool_decide (hp.2 = hq.2)))
    hashed) hashed.

(** What the table holds for the positions of [P] is what a search stores:
    the static score of the position, at depth 0 or for a won position. *)
Definition table_consistent (ZOBRIST_TABLE : Z → Z → Z → Z) (P : list board)
    (tt : gmap Z tt_entry) : Prop :=
  ∀ p h score d, p ∈ P → zobrist_hash ZOBRIST_TABLE p = Some h →
    tt !! h = Some (score, d) →
    score = evaluate_board p ∧
    (d ≤ 0 ∨ is_winning_move p ai_role || is_winning_move p opponent_role = true).

(** ** Orders on scores, for the comparison of the searches *)

(** What the searches use of the comparisons of floats; [le x x] says that
    [x] is a number (not NaN). *)
Record search_order (lt le : float → float → bool) (bot top : float) : Prop := {
  so_lt_le : ∀ x y, lt x y = true → le x y = true;
  so_le_not_lt : ∀ x y, le x y = true → lt y x = false;
  so_total : ∀ x y, le x x = true → le y y = true → lt x y = false →
                    le y x = true;
  so_le_trans : ∀ x y z, le x y = true → le y z = true → le x z = true;
  so_lt_le_trans : ∀ x y z, lt x y = true → le y z = true → lt x z = true;
  so_le_lt_trans : ∀ x y z, le x y = true → lt y z = true → lt x z = true;
  so_refl_l : ∀ x y, le x y = true → le x x = true;
  so_refl_r : ∀ x y, le x y = true → le y y = true;
  so_bot : ∀ x, le x x = true → le bot x = true;
  so_top : ∀ x, le x x = true → le x top = true;
  so_le_bot : ∀ x, le x bot = true → x = bot;
  so_top_le : ∀ x, le top x = true → x = top
}.

(** The loop of a node with pruning, for the side that raises [lo] towards
    [hi] in the order [lt], [le]. *)
Fixpoint prune_loop (lt le : float → float → bool)
    (rec : float → float → board → float) (b : board) (role : Z)
    (moves : list move) (lo hi : float) (best_move : option move)
  : float * option move :=
  match moves with
  | [] => (lo, best_move)
  | (x, y) :: rest =>
      let eval := rec lo hi (set_cell b x y role) in
      let '(lo, best_move) :=
        if lt lo eval then (eval, Some (x, y)) else (lo, best_move) in
      if le hi lo then (lo, best_move)
      else prune_loop lt le rec b role rest lo hi best_move
  end.

(** The loop of a node without pruning, in the order [lt]. *)
Fixpoint full_loop (lt : float → float → bool) (rec : board → float)
    (b : board) (role : Z) (moves : list move) (best : float)
    (best_move : option move) : float * option move :=
  match moves with
  | [] => (best, best_move)
  | (x, y) :: rest =>
      let eval := rec (set_cell b x y role) in
      if lt best eval
      then full_loop lt rec b role rest eval (Some (x, y))
      else full_loop lt rec b role rest best best_move
  end.

(** The score [r] of a pruned search stands for the score [v] of the full
    search under the window [(lo, hi)]: equal, or both at most [lo], or both
    at least [hi]. *)
Definition agree (le : float → float → bool) (lo hi v r : float) : Prop :=
  r = v ∨ (le v lo = true ∧ le r lo = true) ∨ (le hi v = true ∧ le hi r = true).

(** The same with the moves: equal results, or both scores off the window
    on a side where the window is not open. *)
Definition agree_move (le : float → float → bool) (bot top lo hi : float)
    (v r : float * option move) : Prop :=
  r = v ∨
  (le v.1 lo = true ∧ le r.1 lo = true ∧ lo ≠ bot) ∨
  (le hi v.1 = true ∧ le hi r.1 = true ∧ hi ≠ top).

(** How the two loops stand to each other before a candidate: the pruned
    loop has the best score of the full loop as its bound, with the same
    move, or its bound is still the one it was given. *)
Definition loops_related (lt le : float → float → bool) (bot : float)
    (lo0 hi lo best : float) (pbm bm : option move) : Prop :=
  (lo = best ∧ pbm = bm ∧ lt lo0 best = true ∧ lt lo hi = true) ∨
  (lo = lo0 ∧ pbm = None ∧ le best lo0 = true ∧ (lo0 = bot → bm = None)).

Ltac sf_destruct x := destruct x as [[]|[]| |[] ? ?].

Ltac sf_compare :=
  unfold SFltb, SFleb, SFcompare in *;
  change (Pos.compare_cont Eq) with Pos.compare in *;
  repeat match goal with
         | |- context [Z.compare ?a ?b] => destruct (Z.compare_spec a b)
         | H : context [Z.compare ?a ?b] |- _ => destruct (Z.compare_spec a b)
         | |- context [Pos.compare ?a ?b] => destruct (Pos.compare_spec a b)
         | H : context [Pos.compare ?a ?b] |- _ =>
             destruct (Pos.compare_spec a b)
         end;
  cbn [CompOpp] in *; try done; try lia.

(** ** Instances of the parameters, for the examples *)

(** Row-major order on cells, not strict. *)
Definition cell_le (c1 c2 : move) : Prop :=
  c1.1 < c2.1 ∨ (c1.1 = c2.1 ∧ c1.2 ≤ c2.2).

#[global] Instance cell_le_dec : RelDecision cell_le.
Proof. intros c1 c2. unfold cell_le. apply _. Defined.

(** The enumeration the specification asks for: ascending by row, then by
    column. *)
Definition row_major_order (l : list move) : list move :=
  merge_sort cell_le (remove_dups l).

(** *** The enumeration of CPython

    How CPython 3.11 (64-bit) enumerates the set that [available_moves]
    builds: the hash of a tuple of ints, the open-addressing table of
    [set] with its probe sequence and its resizing, and the order of the
    slots.  It is one enumeration among those [set_enumeration] allows, kept
    for the examples. *)

Definition uint64 (z : Z) : Z := z mod 2 ^ 64.

(** [hash(n)] of a Python int, as an unsigned 64-bit word. *)
Definition int_hash (n : Z) : Z :=
  let h := Z.sgn n * (Z.abs n mod (2 ^ 61 - 1)) in
  uint64 (if h =? -1 then -2 else h).

(** One round of the hash of a tuple. *)
Definition tuple_hash_round (acc lane : Z) : Z :=
  let acc := uint64 (acc + lane * 14029467366897019727) in
  let acc := uint64 (Z.lor (Z.shiftl acc 31) (Z.shiftr acc 33)) in
  uint64 (acc * 11400714785074694791).

(** [hash((x, y))], as an unsigned 64-bit word. *)
Definition tuple_hash (c : move) : Z :=
  let acc := 2870177450012600261 in
  let acc := tuple_hash_round acc (int_hash c.1) in
  let acc := tuple_hash_round acc (int_hash c.2) in
  let acc := uint64 (acc + Z.lxor 2 (Z.lxor 2870177450012600261 3527539)) in
  if acc =? 2 ^ 64 - 1 then 1546275796 else acc.

(** A set object: its table of [mask + 1] slots, each free or holding a key
    with its hash, and the number of slots in use. *)
Record pyset := PySet {
  slots : list (option (move * Z));
  mask : Z;
  fill : Z
}.

(** The slots one round of probing looks at from slot [i]: ten in a row when
    they fit in the table, else [i] alone. *)
Definition probe_run (mask i : Z) : list Z :=
  if i + 9 <=? mask then seqZ i 10 else [i].

Definition slot_free_or_key (table : list (option (move * Z))) (key : move)
    (s : Z) : bool :=
  match table !! Z.to_nat s with
  | Some (Some (key', _)) => bool_decide (key' = key)
  | _ => true
  end.

(** The first slot on the probe sequence of hash [h] that is free or holds
    [key]. *)
Fixpoint find_slot (fuel : nat) (table : list (option (move * Z)))
    (mask i perturb : Z) (key : move) : option Z :=
  match fuel with
  | O => None
  | S fuel' =>
      match List.find (slot_free_or_key table key) (probe_run mask i) with
      | Some s => Some s
      | None =>
          let perturb := Z.shiftr perturb 5 in
          find_slot fuel' table mask (Z.land (i * 5 + 1 + perturb) mask)
            perturb key
      end
  end.

Definition probe_fuel (mask : Z) : nat := (64 + Z.to_nat mask)%nat.

(** Entering a key known to be absent, with its hash. *)
Definition set_insert_clean (table : option (list (option (move * Z))))
    (mask : Z) (entry : option (move * Z)) : option (list (option (move * Z))) :=
  match entry with
  | None => table
  | Some (key, h) =>
      table ← table;
      s ← find_slot (probe_fuel mask) table mask (Z.land h mask) h key;
      Some (<[Z.to_nat s := Some (key, h)]> table)
  end.

(** A table of the new size with the entries of the old one, in the order of
    its slots. *)
Definition set_table_resize (s : pyset) : option pyset :=
  let minused := if 50000 <? fill s then fill s * 2 else fill s * 4 in
  let newsize := Z.max 8 (2 ^ (Z.log2 minused + 1)) in
  let mask := newsize - 1 in
  table ← fold_left (λ t e, set_insert_clean t mask e) (slots s)
             (Some (replicate (Z.to_nat newsize) None));
  Some (PySet table mask (fill s)).

(** [s.add(key)] *)
Definition set_add (s : pyset) (key : move) : option pyset :=
  let h := tuple_hash key in
  i ← find_slot (probe_fuel (mask s)) (slots s) (mask s) (Z.land h (mask s)) h key;
  match slots s !! Z.to_nat i with
  | Some None =>
      let s := PySet (<[Z.to_nat i := Some (key, h)]> (slots s)) (mask s)
                 (fill s + 1) in
      if fill s * 5 <? mask s * 3 then Some s else set_table_resize s
  | _ => Some s
  end.

(** [list(s)] after adding the elements of [l] to an empty set. *)
Definition set_list (l : list move) : option (list move) :=
  s ← fold_left (λ s key, s ← s; set_add s key) l
        (Some (PySet (replicate 8 None) 7 0));
  Some (omap (fmap fst) (slots s)).

(** [r] holds the elements of [l], each once. *)
Definition enumeratesb (l r : list move) : bool :=
  bool_decide (NoDup r) && forallb (λ m, bool_decide (m ∈ l)) r
  && forallb (λ m, bool_decide (m ∈ r)) l.

(** The enumeration of CPython; the fall-back is never taken on the boards
    of the examples. *)
Definition cpython_order (l : list move) : list move :=
  match set_list l with
  | Some r => if enumeratesb l r then r else row_major_order l
  | None => row_major_order l
  end.

(** A Zobrist table whose entries for the cells of a 5x5 board are distinct
    powers of two (pieces 1 and 2). *)
Definition distinct_table (x y piece : Z) : Z :=
  if (x <? 5) && (y <? 5) then 2 ^ (2 * (5 * x + y) + piece) else 1.

Definition new_engine (b : board) : engine := Engine b ∅ [].

(** What the caller of [minimax] receives: [(score, move)]. *)
Definition answer (o : outcome (float * option move * engine))
  : option (float * option move) :=
  match o with
  | Ok (score, mv, _) => Some (score, mv)
  | _ => None
  end.

(** The same table, but for one coincidence: the entry of cell (4, 3) for
    piece 2 is the one of cell (0, 0). *)
Definition colliding_table (x y piece : Z) : Z :=
  if (x =? 4) && (y =? 3) && (piece =? 2) then distinct_table 0 0 2
  else distinct_table x y piece.

(** A 5x5 position: three stones of each side. *)
Definition position_a : board :=
  [[0; 0; 1; 1; 1];
   [0; 0; 0; 0; 0];
   [0; 0; 0; 0; 0];
   [0; 0; 0; 0; 0];
   [2; 2; 2; 0; 0]].

(** A 3x3 board with one stone, in the centre. *)
Definition centre_board : board := [[0; 0; 0]; [0; 1; 0]; [0; 0; 0]].

(** The board of the first call of a game: no stone yet. *)
Definition empty_board : board := replicate 5 (replicate 5 0).

(** A column of five stones of player 1, and a broken four of player 2. *)
Definition won_board : board :=
  [[0; 0; 1; 0; 2];
   [0; 0; 1; 0; 2];
   [0; 0; 1; 0; 0];
   [0; 0; 1; 0; 2];
   [0; 0; 1; 0; 2]].

(** A 5x5 board with one empty cell, the corner (4, 4), and no five. *)
Definition nearfull : board :=
  [[1; 1; 2; 2; 1];
   [2; 2; 1; 1; 2];
   [1; 1; 2; 2; 1];
   [2; 2; 1; 1; 2];
   [1; 1; 2; 2; 0]].

(** Three stones of player 1 side by side, one stone of player 2. *)
Definition three_board : board :=
  [[0; 0; 0; 0; 0];
   [0; 1; 1; 1; 0];
   [0; 0; 0; 0; 0];
   [0; 0; 0; 2; 0];
   [0; 0; 0; 0; 0]].

(** An engine on [position_a] whose table already holds the position, at
    depth 3. *)
Definition position_a_hash : Z :=
  default 0 (zobrist_hash distinct_table position_a).

Definition cached_engine : engine :=
  Engine position_a {[position_a_hash := (own_bias, 3)]} [].

(** The engine a call leaves, or the engine as it was when the call did not
    return. *)
Definition engine_after (o : outcome (float * option move * engine))
    (e : engine) : engine :=
  match o with
  | Ok (_, _, e') => e'
  | _ => e
  end.

(** An engine of the examples after [minimax(depth, -inf, inf, True)], and
    after the game loop has changed the board it is bound to. *)
Definition searched (depth : Z) (e : engine) : engine :=
  engine_after
    (minimax distinct_table cpython_order (S (empties (eboard e))) depth
       neg_infinity infinity true e) e.

Definition with_board (b : board) (e : engine) : engine :=
  Engine b (transposition_table e) (calls e).

(** An engine with a history: it has evaluated [won_board] at depth 0, then
    searched [three_board] one ply deep, and is back on [won_board]. *)
Definition warm_engine : engine :=
  with_board won_board
    (searched 1 (with_board three_board (searched 0 (new_engine won_board)))).

(** The fingerprints of [won_board] and of a leaf of the search of
    [three_board]. *)
Definition won_hash : Z :=
  default 0 (zobrist_hash distinct_table won_board).

Definition leaf_hash : Z :=
  default 0 (zobrist_hash distinct_table (set_cell three_board 0 0 1)).

(** Two answers that differ visibly: by their scores, or by their moves. *)
Definition answers_differ (r1 r2 : option (float * option move)) : bool :=
  match r1, r2 with
  | Some (s1, m1), Some (s2, m2) =>
      PrimFloat.ltb s1 s2 || PrimFloat.ltb s2 s1 || negb (bool_decide (m1 = m2))
  | None, None => false
  | _, _ => true
  end.

(** A table [np.random.randint(1, 2**63 - 1, size=(20, 20, 3))] can draw:
    every entry is at least 1 and below [2^63 - 1]. *)
Definition drawable (ZOBRIST_TABLE : Z → Z → Z → Z) : bool :=
  forallb (λ x, forallb (λ y, forallb (λ piece,
      (1 <=? ZOBRIST_TABLE x y piece) && (ZOBRIST_TABLE x y piece <? 2 ^ 63 - 1))
    (seqZ 0 3)) (seqZ 0 20)) (seqZ 0 20).

(** ** Definitions used by the further statements *)

(** An entry of the table that holds the static score of a position with
    that fingerprint, stored at depth 0 or for a position with a five. *)
Definition static_entry (ZOBRIST_TABLE : Z → Z → Z → Z) (h : Z)
    (entry : tt_entry) : Prop :=
  ∃ p : board,
    square p ∧ zobrist_hash ZOBRIST_TABLE p = Some h ∧
    entry.1 = evaluate_board p ∧
    (entry.2 = 0 ∨ is_winning_move p ai_role = true
                 ∨ is_winning_move p opponent_role = true).

(** The table [t'] holds the entries of [t] and static entries of depth at
    most [depth]. *)
Definition adds_static_entries (ZOBRIST_TABLE : Z → Z → Z → Z) (depth : Z)
    (t t' : gmap Z tt_entry) : Prop :=
  ∀ h entry, t' !! h = Some entry →
    t !! h = Some entry ∨ (static_entry ZOBRIST_TABLE h entry ∧ entry.2 ≤ depth).

(** ** The game loop (class [Game])

    [Game] holds the board and two engines built on that same list object:
    a write of the game is seen by both engines, and the writes of a search
    are made on the game's board.  The board is therefore kept once, in the
    game, and an engine is the board together with its own table.  Printing
    and the measures of time have no effect on the state and are left out;
    [self.ai1.available_moves()] in [play] only feeds the printing. *)

(** The exceptions a game can end with: TypeError when [x, y = best_move]
    unpacks None, the ValueError of [display_board], the IndexError of a
    list or of [ZOBRIST_TABLE], and the ZeroDivisionError of the average
    time per round that [play] prints after its loop. *)
Module Py.
Inductive exception :=
| TypeError
| ValueError
| IndexError
| ZeroDivisionError.
End Py.

Definition ai1_role : Z := 1.
Definition ai2_role : Z := 2.

Record game := Game {
  game_size : Z;                       (* [self.size] *)
  game_board : board;                  (* [self.board], shared *)
  game_depth : Z;                      (* [self.depth] *)
  ai1_table : gmap Z tt_entry;         (* [self.ai1.transposition_table] *)
  ai2_table : gmap Z tt_entry;         (* [self.ai2.transposition_table] *)
  current_role : Z;
  round_number : Z;
  first_move_initialised : bool
}.

(** [Game(size, board, depth, Minimax, Minimax)] *)
Definition new_game (n : Z) (b : board) (depth : Z) : game :=
  Game n b depth ∅ ∅ ai1_role 1 false.

(** The index of a Python list of length [len]: a negative index counts from
    the end; [None] is IndexError. *)
Definition list_index (len : nat) (i : Z) : option nat :=
  if (0 <=? i) && (i <? Z.of_nat len) then Some (Z.to_nat i)
  else if (- Z.of_nat len <=? i) && (i <? 0)
       then Some (Z.to_nat (Z.of_nat len + i))
       else None.

(** [board[x][y]] *)
Definition board_item (b : board) (x y : Z) : option Z :=
  i ← list_index (length b) x;
  row ← b !! i;
  j ← list_index (length row) y;
  row !! j.

(** [board[x][y] = v] *)
Definition board_setitem (b : board) (x y v : Z) : option board :=
  i ← list_index (length b) x;
  row ← b !! i;
  j ← list_index (length row) y;
  Some (<[i := <[j := v]> row]> b).

(** [display_board(start_time, best_move, available_moves_ai)] *)
Definition display_board (g : game) (best_move : option move)
  : Py.exception + game :=
  match best_move with
  | None => inl Py.TypeError
  | Some (x, y) =>
      match board_item (game_board g) x y with
      | None => inl Py.IndexError
      | Some cell =>
          if cell =? 0 then
            match board_setitem (game_board g) x y (current_role g) with
            | Some b =>
                inr (Game (game_size g) b (game_depth g) (ai1_table g)
                       (ai2_table g) (current_role g) (round_number g)
                       (first_move_initialised g))
            | None => inl Py.IndexError
            end
          else inl Py.ValueError
      end
  end.

(** What a round of the loop of [play] ends with. *)
Inductive round_end :=
| Wins (g : game)            (* [break] *)
| Next (g : game)            (* the next iteration *)
| Raises (ex : Py.exception)
| SearchOutOfFuel.

(** How a game ends; [Unfinished] is the embedding's, for a loop cut short. *)
Inductive ending :=
| Won (g : game)
| Raised (ex : Py.exception)
| Unfinished.

(** The rest of the body of the loop of [play], from [display_board] on. *)
Definition end_round (g : game) (best_move : option move) : round_end :=
  match display_board g best_move with
  | inr g =>
      if is_winning_move (game_board g) (current_role g) then Wins g
      else
        Next (Game (game_size g) (game_board g) (game_depth g)
                (ai1_table g) (ai2_table g)
                (if current_role g =? ai1_role then ai2_role else ai1_role)
                (round_number g + 1) (first_move_initialised g))
  | inl ex => Raises ex
  end.

Section Game.

Variable ZOBRIST_TABLE : Z → Z → Z → Z.
Variable set_order : list move → list move.

(** [self.ai.minimax(self.depth, -math.inf, math.inf, True)] for the engine
    with table [table]; the recursion nests at most as deep as the board has
    empty cells. *)
Definition search (g : game) (table : gmap Z tt_entry)
  : outcome (float * option move * engine) :=
  minimax ZOBRIST_TABLE set_order (S (empties (game_board g))) (game_depth g)
    neg_infinity infinity true (Engine (game_board g) table []).

(** The choice of [best_move] in [play]. *)
Definition choose_move (g : game) : outcome (option move * game) :=
  if negb (first_move_initialised g) then
    Ok (Some (game_size g / 2, game_size g / 2),
        Game (game_size g) (game_board g) (game_depth g) (ai1_table g)
          (ai2_table g) (current_role g) (round_number g) true)
  else if current_role g =? ai1_role then
    match search g (ai1_table g) with
    | Ok (_, best_move, e) =>
        Ok (best_move,
            Game (game_size g) (eboard e) (game_depth g)
              (transposition_table e) (ai2_table g) (current_role g)
              (round_number g) (first_move_initialised g))
    | IndexError => IndexError
    | OutOfFuel => OutOfFuel
    end
  else
    match search g (ai2_table g) with
    | Ok (_, best_move, e) =>
        Ok (best_move,
            Game (game_size g) (eboard e) (game_depth g) (ai1_table g)
              (transposition_table e) (current_role g) (round_number g)
              (first_move_initialised g))
    | IndexError => IndexError
    | OutOfFuel => OutOfFuel
    end.

(** The body of [while True] in [play]. *)
Definition play_round (g : game) : round_end :=
  match choose_move g with
  | Ok (best_move, g) => end_round g best_move
  | IndexError => Raises Py.IndexError
  | OutOfFuel => SearchOutOfFuel
  end.

(** [play()]: at most [rounds] iterations of the loop; after the loop the
    time elapsed, a float, is divided by [self.round_number]. *)
Fixpoint play (rounds : nat) (g : game) : ending :=
  match rounds with
  | O => Unfinished
  | S rounds' =>
      match play_round g with
      | Wins g =>
          if round_number g =? 0 then Raised Py.ZeroDivisionError else Won g
      | Next g => play rounds' g
      | Raises ex => Raised ex
      | SearchOutOfFuel => Unfinished
      end
  end.

End Game.

(** A game as [Game.__init__] and [play] keep it: a grid of the size given,
    and the role of one of the two players. *)
Definition consistent (g : game) : Prop :=
  square (game_board g) ∧ game_size g = size (game_board g) ∧
  (current_role g = ai1_role ∨ current_role g = ai2_role).

(** The other player. *)
Definition other_role (role : Z) : Z :=
  if role =? ai1_role then ai2_role else ai1_role.

(** [main()] *)
Definition main_game : game :=
  new_game 20 (replicate 20 (replicate 20 0)) 3.

(** The cell [play] takes in the first round. *)
Definition centre (g : game) : move := (game_size g / 2, game_size g / 2).

(** What a completed round leaves: one stone of the current role more, on
    the cell [(x, y)] that was empty; in the first round the centre, with no
    search, and later a candidate cell found by the engine of the current
    role, whose table alone changes. *)
Definition round_adds_stone (g g' : game) (x y : Z) : Prop :=
  in_bounds (game_board g) x y = true ∧ get (game_board g) x y = 0 ∧
  game_board g' = set_cell (game_board g) x y (current_role g) ∧
  game_size g' = game_size g ∧ game_depth g' = game_depth g ∧
  first_move_initialised g' = true ∧
  if first_move_initialised g then
    candidate (game_board g) (x, y) ∧
    if current_role g =? ai1_role
    then tt_mono (ai1_table g) (ai1_table g') ∧ ai2_table g' = ai2_table g
    else ai1_table g' = ai1_table g ∧ tt_mono (ai2_table g) (ai2_table g')
  else
    (x, y) = centre g ∧
    ai1_table g' = ai1_table g ∧ ai2_table g' = ai2_table g.
(** ** Instances for the examples of the game *)

(** What the caller of [play] sees of a game that was won: the winner and
    the board. *)
Definition winner (r : ending) : option (Z * board) :=
  match r with
  | Won g => Some (current_role g, game_board g)
  | _ => None
  end.

(** A 2x2 board with a cell of value 3, for which the Zobrist table has no
    entry. *)
Definition uncovered_board : board := [[0; 0]; [0; 3]].

(** A 2x2 board without an empty cell. *)
Definition full_board : board := [[1; 2]; [2; 1]].

(** Four stones of player 1 side by side, four stones of player 2. *)
Definition four_board : board :=
  [[0; 0; 0; 0; 0];
   [1; 1; 1; 1; 0];
   [0; 0; 0; 0; 0];
   [2; 2; 2; 0; 0];
   [0; 0; 0; 0; 2]].

(** A new game on the empty 5x5 board, and one on a 3x3 board whose centre
    is taken. *)
Definition opening_game : game := new_game 5 empty_board 2.
Definition occupied_game : game := new_game 3 centre_board 2.

(** Games in progress: the ninth round on [four_board], player 1 to move,
    with engines that search one ply; and a round on the full board. *)
Definition four_game : game := Game 5 four_board 1 ∅ ∅ ai1_role 9 true.
Definition full_game : game := Game 2 full_board 2 ∅ ∅ ai1_role 5 true.

(** The same round for engines that search to depth 0, and for a game whose
    rounds are numbered from 0. *)
Definition blind_game : game := Game 5 four_board 0 ∅ ∅ ai1_role 9 true.
Definition unnumbered_game : game := Game 5 four_board 1 ∅ ∅ ai1_role 0 true.

(** * Properties *)

(** ** Cells and boards *)

Lemma elem_of_all_cells (n x y : Z) :
  (x, y) ∈ all_cells n ↔ 0 ≤ x < n ∧ 0 ≤ y < n.
Proof.
  unfold all_cells. rewrite list_elem_of_bind. split.
  - intros (x' & Hy & Hx). apply list_elem_of_fmap in Hy as (y' & Heq & Hy).
    inversion Heq; subst. apply elem_of_seqZ in Hx, Hy. lia.
  - intros [Hx Hy]. exists x. split.
    + apply list_elem_of_fmap. exists y. split; [done|]. apply elem_of_seqZ. lia.
    + apply elem_of_seqZ. lia.
Qed.

Lemma NoDup_all_cells (n : Z) : NoDup (all_cells n).
Proof.
  unfold all_cells. apply NoDup_bind.
  - intros x1 x2 [x y] _ _ H1 H2.
    apply list_elem_of_fmap in H1 as (? & ? & _), H2 as (? & ? & _).
    congruence.
  - intros x _. apply NoDup_fmap_2; [apply _|apply NoDup_seqZ].
  - apply NoDup_seqZ.
Qed.

Lemma in_bounds_spec (b : board) (x y : Z) :
  in_bounds b x y = true ↔ 0 ≤ x < size b ∧ 0 ≤ y < size b.
Proof. unfold in_bounds. rewrite !andb_true_iff. lia. Qed.

Lemma in_bounds_all_cells (b : board) (x y : Z) :
  in_bounds b x y = true ↔ (x, y) ∈ all_cells (size b).
Proof. rewrite in_bounds_spec, elem_of_all_cells. done. Qed.

Lemma squareb_spec (b : board) : squareb b = true ↔ square b.
Proof.
  unfold squareb, square. rewrite forallb_forall, Forall_forall.
  split; intros H row Hrow.
  - apply Nat.eqb_eq, H. by apply list_elem_of_In.
  - apply Nat.eqb_eq, H. by apply list_elem_of_In.
Qed.

Lemma size_set_cell (b : board) (x y v : Z) :
  size (set_cell b x y v) = size b.
Proof. unfold size, set_cell. by rewrite length_alter. Qed.

Lemma in_bounds_set_cell (b : board) (x y v x' y' : Z) :
  in_bounds (set_cell b x y v) x' y' = in_bounds b x' y'.
Proof. unfold in_bounds. by rewrite size_set_cell. Qed.

Lemma square_set_cell (b : board) (x y v : Z) :
  square b → square (set_cell b x y v).
Proof.
  unfold square, set_cell. rewrite length_alter. intros H.
  apply Forall_alter; [done|]. intros row Hrow Hlen.
  rewrite length_insert. done.
Qed.

(** Reading back a cell after a write, for a write inside the grid. *)
Lemma get_set_cell (b : board) (x y v x' y' : Z) :
  square b → in_bounds b x y = true → 0 ≤ x' → 0 ≤ y' →
  get (set_cell b x y v) x' y' =
    if decide (x' = x ∧ y' = y) then v else get b x' y'.
Proof.
  intros Hsq Hin Hx' Hy'. apply in_bounds_spec in Hin. unfold size in Hin.
  unfold get, set_cell.
  destruct (decide (Z.to_nat x' = Z.to_nat x)) as [Hex|Hnx].
  - rewrite Hex, list_lookup_alter_eq.
    destruct (lookup_lt_is_Some_2 b (Z.to_nat x)) as [row Hrow]; [lia|].
    rewrite Hrow. simpl.
    assert (length row = length b) as Hlen.
    { unfold square in Hsq. rewrite Forall_forall in Hsq.
      eapply Hsq, list_elem_of_lookup_2, Hrow. }
    destruct (decide (Z.to_nat y' = Z.to_nat y)) as [Hey|Hny].
    + rewrite Hey, list_lookup_insert_eq by lia.
      rewrite decide_True by lia. done.
    + rewrite list_lookup_insert_ne by done.
      rewrite decide_False by lia. done.
  - rewrite list_lookup_alter_ne by done.
    rewrite decide_False by lia. done.
Qed.

Lemma get_set_cell_same (b : board) (x y v : Z) :
  square b → in_bounds b x y = true → get (set_cell b x y v) x y = v.
Proof.
  intros Hsq Hin. pose proof (proj1 (in_bounds_spec _ _ _) Hin).
  rewrite get_set_cell by (done || lia). by rewrite decide_True.
Qed.

(** Writing back the value a cell had leaves the board as it was. *)
Lemma set_cell_restore (b : board) (x y v : Z) :
  set_cell (set_cell b x y v) x y (get b x y) = b.
Proof.
  unfold set_cell, get. rewrite list_alter_alter_eq.
  destruct (b !! Z.to_nat x) as [row|] eqn:Hrow.
  - apply list_eq. intros i.
    destruct (decide (i = Z.to_nat x)) as [->|Hne].
    + rewrite list_lookup_alter_eq, Hrow. simpl. f_equal.
      rewrite list_insert_insert_eq.
      destruct (row !! Z.to_nat y) as [c|] eqn:Hc; simpl.
      * by apply list_insert_id.
      * apply list_insert_ge. by apply lookup_ge_None.
    + by rewrite list_lookup_alter_ne.
  - apply list_eq. intros i.
    destruct (decide (i = Z.to_nat x)) as [->|Hne].
    + by rewrite list_lookup_alter_eq, Hrow.
    + by rewrite list_lookup_alter_ne.
Qed.

(** Two grids of one size with the same cells are the same board. *)
Lemma board_ext (b b' : board) :
  square b → square b' → size b' = size b →
  (∀ x y, in_bounds b x y = true → get b' x y = get b x y) →
  b' = b.
Proof.
  intros Hsq Hsq' Hsize Hget. unfold size in Hsize.
  apply Nat2Z.inj in Hsize.
  unfold square in Hsq, Hsq'. rewrite Forall_forall in Hsq, Hsq'.
  apply list_eq. intros i.
  destruct (b !! i) as [row|] eqn:Hrow.
  - assert (i < length b)%nat as Hi by (by eapply lookup_lt_Some).
    destruct (lookup_lt_is_Some_2 b' i) as [row' Hrow']; [lia|].
    rewrite Hrow'. f_equal.
    pose proof (Hsq row (list_elem_of_lookup_2 _ _ _ Hrow)) as Hlen.
    pose proof (Hsq' row' (list_elem_of_lookup_2 _ _ _ Hrow')) as Hlen'.
    apply list_eq. intros j.
    destruct (row !! j) as [c|] eqn:Hc.
    + assert (j < length row)%nat as Hj by (by eapply lookup_lt_Some).
      destruct (lookup_lt_is_Some_2 row' j) as [c' Hc']; [lia|].
      rewrite Hc'. f_equal.
      specialize (Hget (Z.of_nat i) (Z.of_nat j)).
      unfold get in Hget. rewrite !Nat2Z.id, Hrow, Hrow' in Hget. simpl in Hget.
      rewrite Hc, Hc' in Hget. simpl in Hget. apply Hget.
      apply in_bounds_spec. unfold size. lia.
    + apply lookup_ge_None in Hc. apply lookup_ge_None. lia.
  - apply lookup_ge_None in Hrow. apply lookup_ge_None. lia.
Qed.

(** ** Win detection *)

Lemma check_direction_loop_spec (n : nat) (b : board) (x y role dx dy count : Z) :
  (0 < n)%nat → count + Z.of_nat n = 5 →
  check_direction_loop n b x y role dx dy count = true ↔
  ∀ k, 0 ≤ k < Z.of_nat n →
    in_bounds b (x + k * dx) (y + k * dy) = true ∧
    get b (x + k * dx) (y + k * dy) = role.
Proof.
  revert x y count. induction n as [|n IH]; intros x y count Hn Hc; [lia|].
  simpl.
  destruct (in_bounds b x y && (get b x y =? role)) eqn:Hcell.
  - apply andb_true_iff in Hcell as [Hin Hget]. apply Z.eqb_eq in Hget.
    destruct (count + 1 =? 5) eqn:Hfive.
    + apply Z.eqb_eq in Hfive. split; [|done]. intros _ k Hk.
      assert (k = 0) as -> by lia.
      by rewrite !Z.mul_0_l, !Z.add_0_r.
    + apply Z.eqb_neq in Hfive. rewrite IH by lia. split.
      * intros H k Hk. destruct (decide (k = 0)) as [->|Hk0].
        { by rewrite !Z.mul_0_l, !Z.add_0_r. }
        specialize (H (k - 1) ltac:(lia)).
        by replace (x + dx + (k - 1) * dx) with (x + k * dx) in H by lia;
           replace (y + dy + (k - 1) * dy) with (y + k * dy) in H by lia.
      * intros H k Hk. specialize (H (k + 1) ltac:(lia)).
        by replace (x + (k + 1) * dx) with (x + dx + k * dx) in H by lia;
           replace (y + (k + 1) * dy) with (y + dy + k * dy) in H by lia.
  - split; [done|]. intros H. specialize (H 0 ltac:(lia)).
    rewrite !Z.mul_0_l, !Z.add_0_r in H. destruct H as [Hin Hget].
    apply Z.eqb_eq in Hget. by rewrite Hin, Hget in Hcell.
Qed.

Lemma check_direction_spec (b : board) (x y role : Z) (d : Z * Z) :
  check_direction b x y role d = true ↔ five_from b role x y d.1 d.2.
Proof.
  destruct d as [dx dy]. unfold check_direction, five_from. cbn [fst snd].
  rewrite (check_direction_loop_spec 5) by lia. done.
Qed.

Lemma is_winning_move_spec (b : board) (role : Z) :
  is_winning_move b role = true ↔ has_five b role.
Proof.
  unfold is_winning_move, has_five. rewrite existsb_exists. split.
  - intros ([x y] & _ & H). apply andb_true_iff in H as [_ H].
    apply existsb_exists in H as (d & Hd & H).
    exists x, y, d. split; [by apply list_elem_of_In|].
    by apply check_direction_spec.
  - intros (x & y & d & Hd & H). exists (x, y).
    pose proof (H 0 ltac:(lia)) as [Hin Hget].
    rewrite !Z.mul_0_l, !Z.add_0_r in Hin, Hget. split.
    + by apply list_elem_of_In, in_bounds_all_cells.
    + apply andb_true_iff. split; [by apply Z.eqb_eq|].
      apply existsb_exists. exists d. split; [by apply list_elem_of_In|].
      by apply check_direction_spec.
Qed.

(** A five read from its other end. *)
Lemma five_from_reverse (b : board) (role x y dx dy : Z) :
  five_from b role x y (- dx) (- dy) →
  five_from b role (x - 4 * dx) (y - 4 * dy) dx dy.
Proof.
  intros H k Hk. specialize (H (4 - k) ltac:(lia)).
  by replace (x + (4 - k) * - dx) with (x - 4 * dx + k * dx) in H by lia;
     replace (y + (4 - k) * - dy) with (y - 4 * dy + k * dy) in H by lia.
Qed.

(** C7: on a grid, [is_winning_move role] answers true when [role] has five
    consecutive cells along a row, a column or a diagonal, read from either
    end, and false when it has no unbroken five (so also when its longest
    run is a four broken by a gap). *)
Theorem is_winning_move_correct (b : board) (role : Z) :
  square b →
  (has_five b role → is_winning_move b role = true) ∧
  (∀ x y d, d ∈ directions → five_from b role x y (- d.1) (- d.2) →
     is_winning_move b role = true) ∧
  (¬ has_five b role → is_winning_move b role = false).
Proof.
  intros _. split_and!.
  - apply is_winning_move_spec.
  - intros x y d Hd H. apply is_winning_move_spec.
    exists (x - 4 * d.1), (y - 4 * d.2), d. split; [done|].
    by apply five_from_reverse.
  - intros H. apply not_true_is_false. by rewrite is_winning_move_spec.
Qed.

(** ** The fingerprint *)




Section Fingerprint.

Variable ZOBRIST_TABLE : Z → Z → Z → Z.

Lemma hash_fold_None (b : board) (cells : list move) :
  fold_left (hash_step ZOBRIST_TABLE b) cells None = None.
Proof. induction cells as [|[x y] cells IH]; [done|]. simpl. apply IH. Qed.

Lemma hash_fold (b : board) (cells : list move) (acc : Z) :
  fold_left (hash_step ZOBRIST_TABLE b) cells (Some acc) =
  Z.lxor acc <$>
    xor_entries ZOBRIST_TABLE b (filter (λ c : move, get b c.1 c.2 ≠ 0) cells).
Proof.
  revert acc. induction cells as [|[x y] cells IH]; intros acc.
  - simpl. by rewrite Z.lxor_0_r.
  - rewrite filter_cons. cbn [fold_left hash_step fst snd]. simpl.
    destruct (Z.eqb_spec (get b x y) 0) as [Hz|Hnz].
    + rewrite decide_False by (intros H; by apply H). apply IH.
    + rewrite decide_True by done. cbn [xor_entries].
      destruct (zobrist_entry ZOBRIST_TABLE x y (get b x y)) as [entry|];
        simpl; [|apply hash_fold_None].
      rewrite IH.
      destruct (xor_entries ZOBRIST_TABLE b _) as [others|]; simpl; [|done].
      by rewrite Z.lxor_assoc.
Qed.




End Fingerprint.

(** ** The evaluator *)

Lemma lines_direction_Returned (b : board) (role x y v : Z) (ds : list (Z * Z)) :
  fold_left (lines_direction b role x y) ds (Returned v) = Returned v.
Proof. induction ds as [|d ds IH]; [done|]. apply IH. Qed.

Lemma lines_cell_Returned (b : board) (role v : Z) (cells : list move) :
  fold_left (lines_cell b role) cells (Returned v) = Returned v.
Proof.
  induction cells as [|[x y] cells IH]; [done|].
  cbn [fold_left lines_cell]. rewrite lines_direction_Returned.
  by destruct (get b x y =? role).
Qed.

Lemma lines_direction_Running (b : board) (role x y dx dy score : Z)
    (cached : gmap (Z * Z * Z * Z) Z) :
  cache_ok b role cached →
  ∃ cached', cache_ok b role cached' ∧
    lines_direction b role x y (Running score cached) (dx, dy) =
    let len := count_in_line b x y dx dy role in
    if len =? 5 then Returned 10000
    else Running (score + line_points len) cached'.
Proof.
  intros Hok. unfold lines_direction.
  destruct (cached !! (x, y, dx, dy)) as [v|] eqn:Hlook.
  - exists cached. by rewrite (Hok _ _ _ _ _ Hlook).
  - eexists. split; [|done]. intros x' y' dx' dy' v Hv.
    destruct (decide ((x, y, dx, dy) = (x', y', dx', dy'))) as [Heq|Hne].
    + rewrite Heq, lookup_insert_eq in Hv. by simplify_eq.
    + rewrite lookup_insert_ne in Hv by done. by apply Hok.
Qed.

Lemma lines_direction_fold (b : board) (role x y : Z) (ds : list (Z * Z))
    (score : Z) (cached : gmap (Z * Z * Z * Z) Z) :
  cache_ok b role cached →
  let lens := (λ d : Z * Z, count_in_line b x y d.1 d.2 role) <$> ds in
  let st := fold_left (lines_direction b role x y) ds (Running score cached) in
  (st = Returned 10000 ∧ ∀ rest, score_runs (lens ++ rest) score = 10000) ∨
  (∃ score' cached', st = Running score' cached' ∧ cache_ok b role cached' ∧
     ∀ rest, score_runs (lens ++ rest) score = score_runs rest score').
Proof.
  revert score cached. induction ds as [|[dx dy] ds IH]; intros score cached Hok.
  { right. by exists score, cached. }
  cbn [fold_left fmap list_fmap app fst snd].
  destruct (lines_direction_Running b role x y dx dy score cached Hok)
    as (cached' & Hok' & ->).
  cbn zeta. cbn [score_runs].
  destruct (count_in_line b x y dx dy role =? 5).
  - left. by rewrite lines_direction_Returned.
  - apply IH, Hok'.
Qed.

Lemma lines_cell_fold (b : board) (role : Z) (cells : list move) (score : Z)
    (cached : gmap (Z * Z * Z * Z) Z) :
  cache_ok b role cached →
  final_score (fold_left (lines_cell b role) cells (Running score cached)) =
  score_runs
    (cells ≫= λ c : move,
       if get b c.1 c.2 =? role
       then (λ d : Z * Z, count_in_line b c.1 c.2 d.1 d.2 role) <$> directions
       else [])
    score.
Proof.
  revert score cached.
  induction cells as [|[x y] cells IH]; intros score cached Hok; [done|].
  rewrite bind_cons. cbn [fold_left lines_cell fst snd].
  destruct (get b x y =? role); [|by apply IH].
  destruct (lines_direction_fold b role x y directions score cached Hok)
    as [[-> Hret]|(score' & cached' & -> & Hok' & Hrun)].
  - by rewrite lines_cell_Returned, Hret.
  - rewrite Hrun. by apply IH.
Qed.

Lemma score_runs_spec (lens : list Z) (score : Z) :
  score_runs lens score =
  if existsb (λ len, len =? 5) lens then 10000
  else score + sumZ (line_points <$> lens).
Proof.
  revert score. induction lens as [|len lens IH]; intros score;
    cbn [score_runs existsb fmap list_fmap sumZ orb].
  - lia.
  - destruct (len =? 5); [done|]. rewrite IH. cbn [orb].
    destruct (existsb _ lens); lia.
Qed.

(** The code's scan, with its early return and its dict of lengths, computes
    the line score of the specification. *)
Lemma evaluate_lines_spec (b : board) (role : Z) :
  evaluate_lines b role = line_score_spec b role.
Proof.
  unfold evaluate_lines, line_score_spec, run_lengths.
  change (match ?st with Returned v => v | Running score _ => score end)
    with (final_score st).
  rewrite lines_cell_fold by (intros ?????; by rewrite lookup_empty).
  by rewrite score_runs_spec.
Qed.

Lemma sumZ_app (l k : list Z) : sumZ (l ++ k) = sumZ l + sumZ k.
Proof. induction l as [|z l IH]; simpl; lia. Qed.

Lemma sumZ_bind {A} (f : Z → Z) (g : A → list Z) (l : list A) :
  sumZ (f <$> (l ≫= g)) = sumZ ((λ c, sumZ (f <$> g c)) <$> l).
Proof.
  induction l as [|c l IH]; [done|].
  rewrite bind_cons, fmap_app, sumZ_app, IH. done.
Qed.

Lemma sumZ_zero {A} (F : A → Z) (l : list A) :
  (∀ c, c ∈ l → F c = 0) → sumZ (F <$> l) = 0.
Proof.
  induction l as [|c l IH]; intros H; [done|].
  cbn [fmap list_fmap sumZ]. rewrite H by apply list_elem_of_here.
  rewrite IH; [done|]. intros c' Hc'. by apply H, list_elem_of_further.
Qed.

(** A sum over a duplicate-free list, with one summand taken out. *)
Lemma sumZ_split {A} `{EqDecision A} (F : A → Z) (c : A) (l : list A) :
  NoDup l → c ∈ l →
  sumZ (F <$> l) =
  F c + sumZ ((λ c', if decide (c' = c) then 0 else F c') <$> l).
Proof.
  induction l as [|c0 l IH]; intros Hnd Hin; [by apply elem_of_nil in Hin|].
  apply NoDup_cons in Hnd as [Hnotin Hnd]. cbn [fmap list_fmap sumZ].
  destruct (decide (c0 = c)) as [->|Hne].
  - f_equal. symmetry. rewrite <- Z.add_0_l at 1. f_equal.
    apply (f_equal sumZ), list_fmap_ext. intros i c' Hc'.
    rewrite decide_False; [done|]. intros ->.
    by apply Hnotin, list_elem_of_lookup_2 with i.
  - apply elem_of_cons in Hin as [->|Hin]; [done|].
    rewrite IH by done. lia.
Qed.

Lemma sumZ_run_lengths (b : board) (role : Z) :
  sumZ (line_points <$> run_lengths b role) =
  sumZ (cell_points b role <$> all_cells (size b)).
Proof. unfold run_lengths. by rewrite sumZ_bind. Qed.

Lemma existsb_run_lengths_false (b : board) (role : Z) :
  (∀ x y d, in_bounds b x y = true → get b x y = role → d ∈ directions →
     count_in_line b x y d.1 d.2 role ≠ 5) →
  existsb (λ len, len =? 5) (run_lengths b role) = false.
Proof.
  intros H. apply not_true_is_false. intros Hex.
  apply existsb_exists in Hex as (len & Hin & Hlen).
  apply list_elem_of_In in Hin. unfold run_lengths in Hin.
  apply list_elem_of_bind in Hin as ([x y] & Hin & Hc). cbn [fst snd] in Hin.
  destruct (Z.eqb_spec (get b x y) role) as [Hrole|_];
    [|by apply elem_of_nil in Hin].
  apply list_elem_of_fmap in Hin as (d & -> & Hd).
  apply Z.eqb_eq in Hlen. revert Hlen. apply H; try done.
  by apply in_bounds_all_cells.
Qed.

Lemma three_in_row_score (b : board) (role x y : Z) :
  three_in_row b role x y → line_score_spec b role = 11.
Proof.
  intros (Hin0 & Hin2 & Hrole).
  apply in_bounds_spec in Hin0 as Hb0. apply in_bounds_spec in Hin2 as Hb2.
  assert (∀ x' y', in_bounds b x' y' && (get b x' y' =? role) =
                   bool_decide (x' = x ∧ y ≤ y' ≤ y + 2)) as Hcell.
  { intros x' y'. destruct (in_bounds b x' y') eqn:Hin; simpl.
    - specialize (Hrole x' y' Hin).
      destruct (Z.eqb_spec (get b x' y') role); case_bool_decide; tauto.
    - case_bool_decide as Hd; [|done]. exfalso.
      destruct Hd as [-> Hy]. apply not_true_iff_false in Hin. apply Hin.
      apply in_bounds_spec. lia. }
  assert (∀ y', y ≤ y' ≤ y + 2 →
    (λ d : Z * Z, count_in_line b x y' d.1 d.2 role) <$> directions =
    [1; y + 3 - y'; 1; 1]) as Hlens.
  { intros y' Hy'. unfold directions. cbn [fmap list_fmap fst snd].
    assert (y' = y ∨ y' = y + 1 ∨ y' = y + 2) as [-> | [-> | ->]] by lia.
    - repeat f_equal; [run_length Hcell| |run_length Hcell..].
      replace (y + 3 - y) with 3 by lia. run_length Hcell.
    - repeat f_equal; [run_length Hcell| |run_length Hcell..].
      replace (y + 3 - (y + 1)) with 2 by lia. run_length Hcell.
    - repeat f_equal; [run_length Hcell| |run_length Hcell..].
      replace (y + 3 - (y + 2)) with 1 by lia. run_length Hcell. }
  unfold line_score_spec. rewrite existsb_run_lengths_false.
  - rewrite sumZ_run_lengths.
    rewrite (sumZ_split _ (x, y)), (sumZ_split _ (x, y + 1));
      [|apply NoDup_all_cells|apply in_bounds_all_cells, in_bounds_spec; lia
       |apply NoDup_all_cells|by apply in_bounds_all_cells].
    rewrite sumZ_zero.
    + rewrite decide_False by (intros [=]; lia).
      unfold cell_points. cbn [fst snd].
      rewrite !(proj2 (Z.eqb_eq _ _)) by (apply Hrole; [apply in_bounds_spec|]; lia).
      rewrite !Hlens by lia.
      replace (y + 3 - y) with 3 by lia.
      replace (y + 3 - (y + 1)) with 2 by lia. reflexivity.
    + intros [x' y'] Hc. apply in_bounds_all_cells in Hc.
      destruct (decide ((x', y') = (x, y + 1))); [done|].
      destruct (decide ((x', y') = (x, y))); [done|].
      unfold cell_points. cbn [fst snd].
      destruct (Z.eqb_spec (get b x' y') role) as [Hr|_]; [|done].
      apply Hrole in Hr as [-> Hy']; [|done].
      rewrite Hlens by done.
      assert (y' = y + 2) as ->.
      { destruct (decide (y' = y)) as [->|]; [done|].
        destruct (decide (y' = y + 1)) as [->|]; [done|lia]. }
      replace (y + 3 - (y + 2)) with 1 by lia. reflexivity.
  - intros x' y' d Hin Hr Hd. apply Hrole in Hr as [-> Hy']; [|done].
    pose proof (Hlens y' Hy') as Hl. unfold directions in Hl, Hd.
    cbn [fmap list_fmap fst snd] in Hl. injection Hl as H1 H2 H3 H4.
    repeat (apply elem_of_cons in Hd as [->|Hd]); cbn [fst snd]; try lia.
    by apply elem_of_nil in Hd.
Qed.

Lemma single_stone_score (b : board) (role x y : Z) :
  single_stone b role x y → line_score_spec b role = 0.
Proof.
  intros (Hin0 & Hrole). apply in_bounds_spec in Hin0 as Hb0.
  assert (∀ x' y', in_bounds b x' y' && (get b x' y' =? role) =
                   bool_decide (x' = x ∧ y' = y)) as Hcell.
  { intros x' y'. destruct (in_bounds b x' y') eqn:Hin; simpl.
    - specialize (Hrole x' y' Hin).
      destruct (Z.eqb_spec (get b x' y') role); case_bool_decide; tauto.
    - case_bool_decide as Hd; [|done]. destruct Hd as [-> ->]. congruence. }
  assert ((λ d : Z * Z, count_in_line b x y d.1 d.2 role) <$> directions =
          [1; 1; 1; 1]) as Hlens.
  { unfold directions. cbn [fmap list_fmap fst snd].
    repeat f_equal; run_length Hcell. }
  unfold line_score_spec. rewrite existsb_run_lengths_false.
  - rewrite sumZ_run_lengths. apply sumZ_zero.
    intros [x' y'] Hc. apply in_bounds_all_cells in Hc.
    unfold cell_points. cbn [fst snd].
    destruct (Z.eqb_spec (get b x' y') role) as [Hr|_]; [|done].
    apply Hrole in Hr as [-> ->]; [|done]. by rewrite Hlens.
  - intros x' y' d Hin Hr Hd. apply Hrole in Hr as [-> ->]; [|done].
    unfold directions in Hlens, Hd.
    cbn [fmap list_fmap fst snd] in Hlens. injection Hlens as H1 H2 H3 H4.
    repeat (apply elem_of_cons in Hd as [->|Hd]); cbn [fst snd]; try lia.
    by apply elem_of_nil in Hd.
Qed.

Lemma sumZ_line_points_le (l : list Z) :
  sumZ (line_points <$> l) ≤ 100 * Z.of_nat (length l).
Proof.
  induction l as [|len l IH]; cbn [fmap list_fmap sumZ length]; [lia|].
  assert (line_points len ≤ 100)
    by (unfold line_points; repeat case_match; lia).
  change (list_fmap Z Z line_points l) with (line_points <$> l). lia.
Qed.

Lemma sumZ_line_points_nonneg (l : list Z) : 0 ≤ sumZ (line_points <$> l).
Proof.
  induction l as [|len l IH]; cbn [fmap list_fmap sumZ]; [lia|].
  assert (0 ≤ line_points len)
    by (unfold line_points; repeat case_match; lia).
  change (list_fmap Z Z line_points l) with (line_points <$> l). lia.
Qed.

Lemma length_all_cells (n : Z) :
  length (all_cells n) = (Z.to_nat n * Z.to_nat n)%nat.
Proof.
  unfold all_cells.
  assert (∀ l : list Z,
    length (l ≫= λ x, pair x <$> seqZ 0 n) = (length l * Z.to_nat n)%nat) as H.
  { induction l as [|x l IH]; [done|].
    rewrite bind_cons, length_app, length_fmap, length_seqZ, IH. simpl. lia. }
  by rewrite H, length_seqZ.
Qed.

Lemma length_run_lengths (b : board) (role : Z) :
  (length (run_lengths b role) ≤ 4 * length (all_cells (size b)))%nat.
Proof.
  unfold run_lengths. induction (all_cells (size b)) as [|c l IH]; [done|].
  rewrite bind_cons, length_app. cbn [length].
  destruct (get b c.1 c.2 =? role); [|cbn [length]; lia].
  rewrite length_fmap. change (length directions) with 4%nat. lia.
Qed.

(** The line score is an integer that a float holds without overflow. *)
Lemma line_score_spec_bounds (b : board) (role : Z) :
  0 ≤ line_score_spec b role ∧
  line_score_spec b role ≤ Z.max 10000 (400 * (size b * size b)).
Proof.
  unfold line_score_spec. destruct (existsb _ _); [lia|].
  split; [apply sumZ_line_points_nonneg|].
  pose proof (sumZ_line_points_le (run_lengths b role)).
  pose proof (length_run_lengths b role) as Hlen.
  rewrite length_all_cells in Hlen. unfold size in *.
  rewrite Nat2Z.id in Hlen. nia.
Qed.

(** The conversion of a Python int below [2^63] to float is the rounding of
    IEEE 754. *)
Lemma float_of_int_spec (n : Z) :
  0 ≤ n < 2 ^ 63 →
  Prim2SF (float_of_int n) = binary_normalize prec emax n 0 false.
Proof.
  intros Hn. unfold float_of_int. rewrite (proj2 (Z.leb_le _ _)) by lia.
  rewrite of_uint63_spec, Uint63.of_Z_spec.
  rewrite Z.mod_small; [done|]. change Uint63.wB with (2 ^ 63). lia.
Qed.

Lemma evaluate_board_spec (b : board) :
  size b < 2 ^ 26 →
  Prim2SF (evaluate_board b) =
  SF64sub
    (SF64mul (binary_normalize prec emax (line_score_spec b ai_role) 0 false)
       (Prim2SF own_bias))
    (binary_normalize prec emax (line_score_spec b opponent_role) 0 false).
Proof.
  intros Hsize. unfold evaluate_board.
  rewrite sub_spec, mul_spec, !evaluate_lines_spec.
  assert (∀ role, 0 ≤ line_score_spec b role < 2 ^ 63) as Hb.
  { intros role. pose proof (line_score_spec_bounds b role).
    assert (0 ≤ size b) by (unfold size; lia).
    assert (size b * size b < 2 ^ 26 * 2 ^ 26) by nia.
    lia. }
  by rewrite !float_of_int_spec.
Qed.

(** C9: on a grid, the per-player line score of the code is the line score
    of the specification (10000 as soon as a run of 5 is met, else the sum
    over the player's cells and the four directions of 100, 10, 1 or 0 for
    runs of 4, 3, 2 or less).  The overall score is the own score times 1.2
    minus the opponent's in the arithmetic of IEEE 754 binary64: the two
    integer scores converted, the product with the double nearest to 1.2
    and the difference, each rounded to nearest.  Three stones side by side
    in a row with no other stone of that player score 11 and a single stone
    scores 0; with three such stones of the engine and a single stone of
    the opponent the overall score is 11 times 1.2, minus 0, in binary64:
    the double nearest to 13.2, which Python prints as 13.2. *)
Theorem evaluate_board_correct (b : board) :
  square b →
  (∀ role, evaluate_lines b role = line_score_spec b role) ∧
  (size b < 2 ^ 26 →
   Prim2SF (evaluate_board b) =
   SF64sub
     (SF64mul
        (binary_normalize prec emax (line_score_spec b ai_role) 0 false)
        (Prim2SF own_bias))
     (binary_normalize prec emax (line_score_spec b opponent_role) 0 false)) ∧
  Prim2SF own_bias = S754_finite false 5404319552844595 (-52) ∧
  (∀ role x y, three_in_row b role x y → evaluate_lines b role = 11) ∧
  (∀ role x y, single_stone b role x y → evaluate_lines b role = 0) ∧
  (∀ x y x' y',
     three_in_row b ai_role x y → single_stone b opponent_role x' y' →
     evaluate_board b = 0x1.a666666666666p+3%float).
Proof.
  intros _. split_and!.
  - apply evaluate_lines_spec.
  - apply evaluate_board_spec.
  - reflexivity.
  - intros role x y H. rewrite evaluate_lines_spec.
    by apply three_in_row_score with x y.
  - intros role x y H. rewrite evaluate_lines_spec.
    by apply single_stone_score with x y.
  - intros x y x' y' H3 H1. unfold evaluate_board.
    rewrite !evaluate_lines_spec.
    rewrite (three_in_row_score _ _ _ _ H3), (single_stone_score _ _ _ _ H1).
    vm_compute. reflexivity.
Qed.

(** ** Candidate moves *)

Lemma elem_of_taken_moves (b : board) (x y : Z) :
  (x, y) ∈ taken_moves b ↔ in_bounds b x y = true ∧ get b x y ≠ 0.
Proof.
  unfold taken_moves. rewrite list_elem_of_filter, in_bounds_all_cells.
  simpl. tauto.
Qed.

Lemma elem_of_neighbourhood (b : board) (x y : Z) (m : move) :
  m ∈ neighbourhood b (x, y) ↔
  in_bounds b m.1 m.2 = true ∧ get b m.1 m.2 = 0 ∧
  -2 ≤ m.1 - x ≤ 2 ∧ -2 ≤ m.2 - y ≤ 2.
Proof.
  unfold neighbourhood. rewrite list_elem_of_bind. split.
  - intros (dx & Hm & Hdx). apply list_elem_of_bind in Hm as (dy & Hm & Hdy).
    apply elem_of_seqZ in Hdx, Hdy.
    destruct (in_bounds b (x + dx) (y + dy) && (get b (x + dx) (y + dy) =? 0))
      eqn:Hc; [|by apply elem_of_nil in Hm].
    apply list_elem_of_singleton in Hm as ->. simpl.
    apply andb_true_iff in Hc as [Hin Hz]. apply Z.eqb_eq in Hz.
    split_and!; try done; lia.
  - destruct m as [nx ny]. cbn [fst snd]. intros (Hin & Hz & Hx & Hy).
    exists (nx - x). split; [|apply elem_of_seqZ; lia].
    apply list_elem_of_bind. exists (ny - y). split; [|apply elem_of_seqZ; lia].
    replace (x + (nx - x)) with nx by lia. replace (y + (ny - y)) with ny by lia.
    rewrite Hin, Hz. cbn [andb Z.eqb]. apply list_elem_of_singleton. done.
Qed.

Lemma elem_of_added_moves (b : board) (m : move) :
  m ∈ added_moves b ↔ candidate b m.
Proof.
  unfold added_moves, candidate. rewrite list_elem_of_bind. split.
  - intros ([x y] & Hm & Ht). apply elem_of_neighbourhood in Hm.
    apply elem_of_taken_moves in Ht as [Hin Hocc].
    destruct Hm as (? & ? & ? & ?). split_and!; try done. by exists x, y.
  - intros (Hin & Hz & x & y & Hxy & Hocc & Hd). exists (x, y). split.
    + apply elem_of_neighbourhood. tauto.
    + by apply elem_of_taken_moves.
Qed.

Section CandidateMoves.

Variable set_order : list move → list move.
Hypothesis set_order_elements : set_enumeration set_order.

Lemma elem_of_available_moves (b : board) (m : move) :
  m ∈ available_moves set_order b ↔ candidate b m.
Proof.
  unfold available_moves.
  rewrite (proj2 (set_order_elements _)). apply elem_of_added_moves.
Qed.

(** C6, as the code has it: on a grid, [available_moves] returns each
    candidate cell (an empty cell within Chebyshev distance 2 of an occupied
    one) exactly once, in the order in which the set enumerates them, and two
    grids with the same contents get the same sequence. *)
Theorem available_moves_enumeration (b : board) :
  square b →
  NoDup (available_moves set_order b) ∧
  (∀ m, m ∈ available_moves set_order b ↔ candidate b m) ∧
  (∀ b', square b' → size b' = size b →
     (∀ x y, in_bounds b x y = true → get b' x y = get b x y) →
     available_moves set_order b' = available_moves set_order b).
Proof.
  intros Hsq. split_and!.
  - apply set_order_elements.
  - apply elem_of_available_moves.
  - intros b' Hsq' Hsize Hget. by rewrite (board_ext b b').
Qed.

End CandidateMoves.

(** ** The search: frame, table and termination *)

Lemma tt_mono_refl (t : gmap Z tt_entry) : tt_mono t t.
Proof. intros h s d H. exists s, d. auto. Qed.

Lemma tt_mono_trans (t1 t2 t3 : gmap Z tt_entry) :
  tt_mono t1 t2 → tt_mono t2 t3 → tt_mono t1 t3.
Proof.
  intros H12 H23 h s d H1.
  destruct (H12 h s d H1) as (s2 & d2 & H2 & Hd2).
  destruct (H23 h s2 d2 H2) as (s3 & d3 & H3 & Hd3).
  exists s3, d3. split; [done|].
  destruct Hd2 as [[= -> ->]|Hd2], Hd3 as [[= -> ->]|Hd3]; auto. right. lia.
Qed.

(** The only store of [minimax] follows a miss: the key is absent or holds a
    smaller depth. *)
Lemma tt_mono_store (t : gmap Z tt_entry) (h depth : Z) (score : float) :
  tt_hit t h depth = None → tt_mono t (<[h := (score, depth)]> t).
Proof.
  intros Hmiss h' s d H. destruct (decide (h' = h)) as [->|Hne].
  - exists score, depth. rewrite lookup_insert_eq. split; [done|]. right.
    unfold tt_hit in Hmiss. rewrite H in Hmiss.
    destruct (Z.leb_spec depth d); [done|lia].
  - exists s, d. rewrite lookup_insert_ne by done. auto.
Qed.

Lemma board_in_tableb_spec (b : board) :
  board_in_tableb b = true ↔ board_in_table b.
Proof.
  unfold board_in_tableb, board_in_table.
  rewrite andb_true_iff, forallb_forall, Z.leb_le. split.
  - intros [Hs H]. split; [done|]. intros x y Hin.
    specialize (H (x, y)). simpl in H.
    rewrite andb_true_iff, !Z.leb_le in H. apply H.
    by apply list_elem_of_In, in_bounds_all_cells.
  - intros [Hs H]. split; [done|]. intros [x y] Hin. simpl.
    rewrite andb_true_iff, !Z.leb_le. apply H.
    by apply in_bounds_all_cells, list_elem_of_In.
Qed.

Lemma board_in_table_set_cell (b : board) (x y v : Z) :
  square b → in_bounds b x y = true → 0 ≤ v ≤ 2 →
  board_in_table b → board_in_table (set_cell b x y v).
Proof.
  intros Hsq Hin Hv [Hs H]. split; [by rewrite size_set_cell|].
  intros x' y' Hin'. rewrite in_bounds_set_cell in Hin'.
  pose proof (proj1 (in_bounds_spec _ _ _) Hin').
  rewrite get_set_cell by (done || lia). case_decide; [done|]. by apply H.
Qed.

Lemma length_filter_lt {A} (P Q : A → Prop) `{∀ x, Decision (P x)}
    `{∀ x, Decision (Q x)} (l : list A) (c : A) :
  (∀ x, x ∈ l → P x → Q x) → c ∈ l → Q c → ¬ P c →
  (length (filter P l) < length (filter Q l))%nat.
Proof.
  intros Himp Hc HQ HnP.
  assert (∀ l', (∀ x, x ∈ l' → P x → Q x) →
            (length (filter P l') ≤ length (filter Q l'))%nat) as Hle.
  { induction l' as [|x l' IH]; intros HPQ; [done|].
    rewrite !filter_cons.
    pose proof (IH (λ x' Hx', HPQ x' (list_elem_of_further _ _ _ Hx'))).
    pose proof (HPQ x (list_elem_of_here _ _)).
    repeat case_decide; simpl; try lia. tauto. }
  induction l as [|x l IH]; [by apply elem_of_nil in Hc|].
  rewrite !filter_cons.
  pose proof (Hle l (λ x' Hx', Himp x' (list_elem_of_further _ _ _ Hx'))).
  apply elem_of_cons in Hc as [<-|Hc].
  - rewrite decide_False, decide_True by done. simpl. lia.
  - specialize (IH (λ x' Hx', Himp x' (list_elem_of_further _ _ _ Hx')) Hc).
    pose proof (Himp x (list_elem_of_here _ _)).
    repeat case_decide; simpl; try lia. tauto.
Qed.

(** Placing a stone on an empty cell leaves one empty cell less. *)
Lemma empties_set_cell (b : board) (x y v : Z) :
  square b → in_bounds b x y = true → get b x y = 0 → v ≠ 0 →
  (empties (set_cell b x y v) < empties b)%nat.
Proof.
  intros Hsq Hin Hz Hv. unfold empties. rewrite size_set_cell.
  apply length_filter_lt with (x, y).
  - intros [x' y'] Hc. simpl. apply elem_of_all_cells in Hc.
    rewrite get_set_cell by (done || lia). case_decide as Hd; [done|].
    done.
  - by apply in_bounds_all_cells.
  - done.
  - simpl. by rewrite get_set_cell_same.
Qed.

Section Search.

Variable ZOBRIST_TABLE : Z → Z → Z → Z.
Variable set_order : list move → list move.
Hypothesis set_order_elements : set_enumeration set_order.

Lemma minimax_S (fuel : nat) (depth : Z) (alpha beta : float)
    (maximizing_player : bool) (e : engine) :
  minimax ZOBRIST_TABLE set_order (S fuel) depth alpha beta maximizing_player e =
  let e := log CallHash (log (CallMinimax depth) e) in
  match zobrist_hash ZOBRIST_TABLE (eboard e) with
  | None => IndexError
  | Some hash_value =>
      match tt_hit (transposition_table e) hash_value depth with
      | Some score => Ok (score, None, e)
      | None =>
          expand_node set_order (child_call ZOBRIST_TABLE set_order fuel depth maximizing_player)
            hash_value depth alpha beta maximizing_player e
      end
  end.
Proof. reflexivity. Qed.

Lemma terminal_frame (depth : Z) (e e1 : engine) (stop : bool) :
  terminal depth e = (stop, e1) →
  eboard e1 = eboard e ∧ transposition_table e1 = transposition_table e ∧
  stop = (depth =? 0) || (is_winning_move (eboard e) ai_role
                          || is_winning_move (eboard e) opponent_role).
Proof.
  unfold terminal. destruct (depth =? 0); [by intros [= <- <-]|].
  cbn [log eboard transposition_table orb].
  destruct (is_winning_move (eboard e) ai_role); by intros [= <- <-].
Qed.

(** What the loop of [minimax] preserves, given that the recursive call
    preserves it. *)
Lemma candidates_loop_sound
    (rec : float → float → engine → outcome (float * engine))
    (maximizing_player : bool) (moves : list move) :
  (∀ alpha beta e1 eval e2, square (eboard e1) →
     rec alpha beta e1 = Ok (eval, e2) →
     eboard e2 = eboard e1 ∧
     tt_mono (transposition_table e1) (transposition_table e2)) →
  ∀ alpha beta best e score mv e',
    square (eboard e) →
    (∀ m, m ∈ moves → candidate (eboard e) m) →
    candidates_loop rec maximizing_player moves alpha beta best e =
      Ok (score, mv, e') →
    eboard e' = eboard e ∧
    tt_mono (transposition_table e) (transposition_table e') ∧
    (mv = best ∨ ∃ m, m ∈ moves ∧ mv = Some m).
Proof.
  intros Hrec. induction moves as [|[x y] moves IH];
    intros alpha beta best e score mv e' Hsq Hcand Hloop.
  { injection Hloop as <- <- <-. split_and!; auto using tt_mono_refl. }
  cbn [candidates_loop] in Hloop.
  destruct (Hcand (x, y) (list_elem_of_here _ _)) as (Hin & Hz & _).
  cbn [fst snd] in Hin, Hz.
  set (role := if maximizing_player then ai_role else opponent_role) in *.
  destruct (rec alpha beta (place e x y role)) as [[eval e2]| |] eqn:Hcall;
    try done.
  apply Hrec in Hcall as [Hb2 Ht2]; [|by apply square_set_cell].
  cbn [place eboard transposition_table] in Hb2, Ht2.
  assert (eboard (place e2 x y 0) = eboard e) as Hb3.
  { cbn [place eboard]. rewrite Hb2, <- Hz at 1. apply set_cell_restore. }
  assert (∀ a b' bm, 
    (if PrimFloat.leb b' a
     then Ok (if maximizing_player then a else b', bm, place e2 x y 0)
     else candidates_loop rec maximizing_player moves a b' bm (place e2 x y 0))
    = Ok (score, mv, e') →
    (bm = best ∨ bm = Some (x, y)) →
    eboard e' = eboard e ∧
    tt_mono (transposition_table e) (transposition_table e') ∧
    (mv = best ∨ ∃ m, m ∈ (x, y) :: moves ∧ mv = Some m)) as Hrest.
  { intros a b' bm Hr Hbm.
    assert (mv = bm ∨ (∃ m, m ∈ moves ∧ mv = Some m) →
            mv = best ∨ ∃ m, m ∈ (x, y) :: moves ∧ mv = Some m) as Hmv.
    { intros [->|(m & Hm & ->)].
      - destruct Hbm as [->| ->]; [by left|]. right. exists (x, y).
        split; [apply list_elem_of_here|done].
      - right. exists m. split; [by apply list_elem_of_further|done]. }
    destruct (PrimFloat.leb b' a).
    - injection Hr as <- <- <-. split_and!; auto.
    - apply IH in Hr as (Hb' & Ht' & Hm').
      + rewrite Hb3 in Hb'. split_and!; auto.
        eapply tt_mono_trans; [exact Ht2|exact Ht'].
      + by rewrite Hb3.
      + intros m Hm. rewrite Hb3. by apply Hcand, list_elem_of_further. }
  destruct maximizing_player.
  - destruct (PrimFloat.ltb alpha eval); eapply Hrest; eauto.
  - destruct (PrimFloat.ltb eval beta); eapply Hrest; eauto.
Qed.

(** A call that returns leaves the board as it was, only adds or deepens
    table entries, and names a candidate cell when it names a move. *)
Lemma minimax_sound (fuel : nat) :
  ∀ depth alpha beta maximizing_player e score mv e',
    square (eboard e) →
    minimax ZOBRIST_TABLE set_order fuel depth alpha beta maximizing_player e
      = Ok (score, mv, e') →
    eboard e' = eboard e ∧
    tt_mono (transposition_table e) (transposition_table e') ∧
    (∀ m, mv = Some m → candidate (eboard e) m).
Proof.
  induction fuel as [|fuel IH];
    intros depth alpha beta maxi e score mv e' Hsq Hcall; [done|].
  rewrite minimax_S in Hcall. cbn zeta in Hcall.
  cbn [log eboard transposition_table] in Hcall.
  destruct (zobrist_hash ZOBRIST_TABLE (eboard e)) as [h|]; [|done].
  destruct (tt_hit (transposition_table e) h depth) as [s|] eqn:Hhit.
  { injection Hcall as <- <- <-. split_and!; auto using tt_mono_refl. done. }
  unfold expand_node in Hcall.
  destruct (terminal depth _) as [stop e1] eqn:Hterm.
  apply terminal_frame in Hterm as (Hb1 & Ht1 & _).
  cbn [log eboard transposition_table] in Hb1, Ht1.
  destruct stop.
  { injection Hcall as <- <- <-. cbn [store log eboard transposition_table].
    rewrite Ht1. split_and!; [done|by apply tt_mono_store|done]. }
  apply candidates_loop_sound in Hcall as (Hb' & Ht' & Hmv).
  - cbn [log eboard transposition_table] in Hb', Ht', Hmv.
    rewrite Hb1 in Hb', Hmv. rewrite Ht1 in Ht'. split_and!; [done..|].
    intros m ->. destruct Hmv as [?|(m' & Hm' & [= ->])]; [done|].
    by apply (elem_of_available_moves set_order set_order_elements).
  - intros a b' e1' eval e2 Hsq1 Hchild. unfold child_call in Hchild.
    destruct (minimax ZOBRIST_TABLE set_order fuel _ _ _ _ e1') as [[[ev mv'] e2']| |] eqn:Hrec;
      try done.
    injection Hchild as <- <-. apply IH in Hrec as (? & ? & _); auto.
  - cbn [log eboard]. by rewrite Hb1.
  - cbn [log eboard]. intros m Hm.
    by apply (elem_of_available_moves set_order set_order_elements).
Qed.

Lemma zobrist_hash_defined (b : board) :
  board_in_table b → is_Some (zobrist_hash ZOBRIST_TABLE b).
Proof.
  intros [Hsize Hcells]. unfold zobrist_hash. rewrite hash_fold.
  apply fmap_is_Some.
  assert (∀ cells, (∀ c, c ∈ cells → c ∈ all_cells (size b)) →
            is_Some (xor_entries ZOBRIST_TABLE b cells)) as H.
  { induction cells as [|[x y] cells IH]; intros Hc; [by eexists|].
    cbn [xor_entries].
    pose proof (Hc (x, y) (list_elem_of_here _ _)) as Hxy.
    apply in_bounds_all_cells in Hxy as Hin. apply elem_of_all_cells in Hxy.
    specialize (Hcells x y Hin). unfold zobrist_entry.
    rewrite !(proj2 (Z.ltb_lt _ _)), (proj2 (Z.leb_le _ _)) by lia.
    cbn [andb mbind option_bind].
    destruct IH as [others ->].
    - intros c Hc'. by apply Hc, list_elem_of_further.
    - by eexists. }
  apply H. intros c Hc. by apply list_elem_of_filter in Hc as [_ Hc].
Qed.

Lemma candidates_loop_returns
    (rec : float → float → engine → outcome (float * engine))
    (maximizing_player : bool) (b : board) (moves : list move) :
  square b →
  (∀ m, m ∈ moves → candidate b m) →
  (∀ alpha beta x y e1, (x, y) ∈ moves →
     eboard e1 =
       set_cell b x y (if maximizing_player then ai_role else opponent_role) →
     ∃ eval e2, rec alpha beta e1 = Ok (eval, e2) ∧ eboard e2 = eboard e1) →
  ∀ alpha beta best e, eboard e = b →
    ∃ r, candidates_loop rec maximizing_player moves alpha beta best e = Ok r.
Proof.
  intros Hsq. induction moves as [|[x y] moves IH];
    intros Hcand Hrec alpha beta best e Hb; [by eexists|].
  cbn [candidates_loop].
  destruct (Hcand (x, y) (list_elem_of_here _ _)) as (Hin & Hz & _).
  cbn [fst snd] in Hin, Hz.
  destruct (Hrec alpha beta x y
              (place e x y
                 (if maximizing_player then ai_role else opponent_role)))
    as (eval & e2 & -> & Hb2); [apply list_elem_of_here|by cbn; rewrite Hb|].
  cbn [place eboard] in Hb2.
  assert (eboard (place e2 x y 0) = b) as Hb3.
  { cbn [place eboard]. rewrite Hb2, Hb, <- Hz at 1. apply set_cell_restore. }
  assert (∀ a b' bm, ∃ r,
    (if PrimFloat.leb b' a
     then Ok (if maximizing_player then a else b', bm, place e2 x y 0)
     else candidates_loop rec maximizing_player moves a b' bm (place e2 x y 0))
    = Ok r) as Hrest.
  { intros a b' bm. destruct (PrimFloat.leb b' a); [by eexists|].
    apply IH; [| |done].
    - intros m Hm. by apply Hcand, list_elem_of_further.
    - intros a' b'' x' y' e1 Hm He1.
      apply Hrec with x' y'; [by apply list_elem_of_further|done]. }
  destruct maximizing_player.
  - destruct (PrimFloat.ltb alpha eval); apply Hrest.
  - destruct (PrimFloat.ltb eval beta); apply Hrest.
Qed.

(** With more fuel than the grid has empty cells, a call on a board the
    Zobrist table covers returns: it neither raises nor runs out of fuel. *)
Lemma minimax_returns (fuel : nat) :
  ∀ depth alpha beta maximizing_player e,
    square (eboard e) → board_in_table (eboard e) →
    (empties (eboard e) < fuel)%nat →
    ∃ r, minimax ZOBRIST_TABLE set_order fuel depth alpha beta
           maximizing_player e = Ok r.
Proof.
  induction fuel as [|fuel IH];
    intros depth alpha beta maxi e Hsq Htab Hfuel; [lia|].
  rewrite minimax_S. cbn zeta. cbn [log eboard transposition_table].
  destruct (zobrist_hash_defined _ Htab) as [h ->].
  destruct (tt_hit (transposition_table e) h depth) as [s|]; [by eexists|].
  unfold expand_node.
  destruct (terminal depth _) as [stop e1] eqn:Hterm.
  apply terminal_frame in Hterm as (Hb1 & Ht1 & _).
  cbn [log eboard transposition_table] in Hb1, Ht1.
  destruct stop; [by eexists|].
  apply candidates_loop_returns with (eboard e); try done.
  - cbn [log eboard]. rewrite Hb1. intros m Hm.
    by apply (elem_of_available_moves set_order set_order_elements).
  - cbn [log eboard]. rewrite Hb1. intros a b' x y e1' Hm Hb1'.
    apply (elem_of_available_moves set_order set_order_elements) in Hm
      as (Hin & Hz & _). cbn [fst snd] in Hin, Hz.
    assert (square (eboard e1')) as Hsq'
      by (rewrite Hb1'; by apply square_set_cell).
    unfold child_call.
    destruct (IH (depth - 1) a b' (negb maxi) e1') as [[[ev mv] e2] Hcall].
    + done.
    + rewrite Hb1'. apply board_in_table_set_cell; try done.
      unfold ai_role, opponent_role. destruct maxi; lia.
    + rewrite Hb1'.
      pose proof (empties_set_cell (eboard e) x y
                    (if maxi then ai_role else opponent_role) Hsq Hin Hz).
      unfold ai_role, opponent_role in *. destruct maxi; lia.
    + rewrite Hcall. exists ev, e2. split; [done|].
      by apply minimax_sound in Hcall as (? & _).
Qed.

(** C2: a call to [minimax] on a grid that returns leaves every cell of the
    board as it was, whatever the depth, the window and the side, pruned or
    not; and on a board the Zobrist table covers the call does return. *)
Theorem minimax_restores_board (e : engine) (depth : Z) (alpha beta : float)
    (maximizing_player : bool) :
  square (eboard e) →
  (∀ fuel score mv e',
     minimax ZOBRIST_TABLE set_order fuel depth alpha beta maximizing_player e
       = Ok (score, mv, e') →
     eboard e' = eboard e) ∧
  (board_in_table (eboard e) →
   ∃ score mv e',
     minimax ZOBRIST_TABLE set_order (S (empties (eboard e))) depth alpha beta
       maximizing_player e = Ok (score, mv, e') ∧
     eboard e' = eboard e).
Proof.
  intros Hsq. split.
  - intros fuel score mv e' Hcall. by apply minimax_sound in Hcall as (? & _).
  - intros Htab.
    destruct (minimax_returns (S (empties (eboard e))) depth alpha beta
                maximizing_player e Hsq Htab ltac:(lia))
      as [[[score mv] e'] Hcall].
    exists score, mv, e'. split; [done|].
    by apply minimax_sound in Hcall as (? & _).
Qed.

(** C5: when a call to [minimax] on a grid returns a move, the cell of that
    move is inside the grid and empty on the board as the call leaves it. *)
Theorem minimax_move_is_empty (e : engine) (depth : Z) (alpha beta : float)
    (maximizing_player : bool) (fuel : nat) (score : float) (m : move)
    (e' : engine) :
  square (eboard e) →
  minimax ZOBRIST_TABLE set_order fuel depth alpha beta maximizing_player e
    = Ok (score, Some m, e') →
  in_bounds (eboard e') m.1 m.2 = true ∧ get (eboard e') m.1 m.2 = 0.
Proof.
  intros Hsq Hcall. apply minimax_sound in Hcall as (-> & _ & Hm); [|done].
  destruct (Hm m eq_refl) as (? & ? & _). done.
Qed.

(** C10: over the life of an engine (searches on grids, the game loop
    writing on the board in between) the table keeps each of its keys, and
    the entry of a key is only ever replaced by one of strictly greater
    depth: stored depths never decrease. *)
Theorem transposition_depth_never_decreases (e e' : engine) :
  lifetime ZOBRIST_TABLE set_order e e' →
  tt_mono (transposition_table e) (transposition_table e').
Proof.
  induction 1 as [|e1 fuel depth alpha beta maxi score mv e2 _ IH Hsq Hcall
                  |e1 b _ IH].
  - apply tt_mono_refl.
  - apply minimax_sound in Hcall as (_ & Hmono & _); [|done].
    by eapply tt_mono_trans.
  - done.
Qed.

(** C3, as the code has it: at a node of a grid with no candidate move that
    is neither a table hit nor terminal, [minimax] returns no move, without
    raising, paired with the bound it was given ([alpha] when maximizing,
    [beta] otherwise); the evaluator is not called and the table is left as
    it was. *)
Theorem minimax_no_candidates (e : engine) (fuel : nat) (depth h : Z)
    (alpha beta : float) (maximizing_player : bool) :
  square (eboard e) →
  zobrist_hash ZOBRIST_TABLE (eboard e) = Some h →
  tt_hit (transposition_table e) h depth = None →
  depth ≠ 0 →
  is_winning_move (eboard e) ai_role = false →
  is_winning_move (eboard e) opponent_role = false →
  available_moves set_order (eboard e) = [] →
  minimax ZOBRIST_TABLE set_order (S fuel) depth alpha beta maximizing_player e
  = Ok (if maximizing_player then alpha else beta, None,
        Engine (eboard e) (transposition_table e)
          (CallMoves :: CallWin opponent_role :: CallWin ai_role :: CallHash
             :: CallMinimax depth :: calls e)).
Proof.
  intros _ Hh Hmiss Hd Hw1 Hw2 Hmoves.
  rewrite minimax_S. cbn zeta. cbn [log eboard transposition_table].
  rewrite Hh, Hmiss. unfold expand_node, terminal.
  rewrite (proj2 (Z.eqb_neq _ _) Hd).
  cbn [log eboard transposition_table calls]. rewrite Hw1.
  cbn [log eboard transposition_table calls]. rewrite Hw2.
  cbn [log eboard transposition_table calls]. rewrite Hmoves. done.
Qed.

(** C4: at a grid whose fingerprint is in the table with a stored depth at
    least the requested one, [minimax] returns the stored score and no move
    at once: the engine is left as it was but for the record of this call and
    of its hash (no win test, no evaluation, no recursive call), and one unit
    of fuel is enough.  With a stored depth below the requested one the node
    is expanded exactly as when the key is absent. *)
Theorem minimax_table_hit (e : engine) (fuel : nat) (depth h : Z)
    (alpha beta : float) (maximizing_player : bool) :
  square (eboard e) →
  zobrist_hash ZOBRIST_TABLE (eboard e) = Some h →
  (∀ score d, transposition_table e !! h = Some (score, d) → depth ≤ d →
     minimax ZOBRIST_TABLE set_order (S fuel) depth alpha beta
       maximizing_player e
     = Ok (score, None,
           Engine (eboard e) (transposition_table e)
             (CallHash :: CallMinimax depth :: calls e))) ∧
  (transposition_table e !! h = None ∨
   (∃ score d, transposition_table e !! h = Some (score, d) ∧ d < depth) →
   minimax ZOBRIST_TABLE set_order (S fuel) depth alpha beta
     maximizing_player e
   = expand_node set_order
       (child_call ZOBRIST_TABLE set_order fuel depth maximizing_player)
       h depth alpha beta maximizing_player
       (Engine (eboard e) (transposition_table e)
          (CallHash :: CallMinimax depth :: calls e))).
Proof.
  intros _ Hh. split.
  - intros score d Hlook Hd. rewrite minimax_S. cbn zeta.
    cbn [log eboard transposition_table]. rewrite Hh. unfold tt_hit.
    rewrite Hlook, (proj2 (Z.leb_le _ _) Hd). done.
  - intros Hmiss. rewrite minimax_S. cbn zeta.
    cbn [log eboard transposition_table]. rewrite Hh. unfold tt_hit.
    destruct Hmiss as [->|(score & d & -> & Hd)]; [done|].
    by rewrite (proj2 (Z.leb_gt _ _) Hd).
Qed.

End Search.

(** ** Comparisons of floats *)

Lemma SFleb_trans (x y z : spec_float) :
  SFleb x y = true → SFleb y z = true → SFleb x z = true.
Proof. sf_destruct x; sf_destruct y; sf_destruct z; sf_compare. Qed.

Lemma SFltb_leb_trans (x y z : spec_float) :
  SFltb x y = true → SFleb y z = true → SFltb x z = true.
Proof. sf_destruct x; sf_destruct y; sf_destruct z; sf_compare. Qed.

Lemma SFleb_ltb_trans (x y z : spec_float) :
  SFleb x y = true → SFltb y z = true → SFltb x z = true.
Proof. sf_destruct x; sf_destruct y; sf_destruct z; sf_compare. Qed.

Lemma SFltb_leb (x y : spec_float) : SFltb x y = true → SFleb x y = true.
Proof. sf_destruct x; sf_destruct y; sf_compare. Qed.

Lemma SFleb_not_ltb (x y : spec_float) : SFleb x y = true → SFltb y x = false.
Proof. sf_destruct x; sf_destruct y; sf_compare. Qed.

Lemma SFleb_total (x y : spec_float) :
  SFleb x x = true → SFleb y y = true → SFltb x y = false → SFleb y x = true.
Proof. sf_destruct x; sf_destruct y; sf_compare. Qed.

Lemma SFleb_refl_l (x y : spec_float) : SFleb x y = true → SFleb x x = true.
Proof. sf_destruct x; sf_destruct y; sf_compare. Qed.

Lemma SFleb_refl_r (x y : spec_float) : SFleb x y = true → SFleb y y = true.
Proof. sf_destruct x; sf_destruct y; sf_compare. Qed.

Lemma SFleb_neg_infinity (x : spec_float) :
  SFleb x x = true → SFleb (S754_infinity true) x = true.
Proof. sf_destruct x; sf_compare. Qed.

Lemma SFleb_infinity (x : spec_float) :
  SFleb x x = true → SFleb x (S754_infinity false) = true.
Proof. sf_destruct x; sf_compare. Qed.

Lemma SFleb_neg_infinity_inv (x : spec_float) :
  SFleb x (S754_infinity true) = true → x = S754_infinity true.
Proof. sf_destruct x; sf_compare. Qed.

Lemma SFleb_infinity_inv (x : spec_float) :
  SFleb (S754_infinity false) x = true → x = S754_infinity false.
Proof. sf_destruct x; sf_compare. Qed.

(** The comparisons [<] and [<=] of Python floats, with [-inf] and [inf]. *)
Lemma float_order :
  search_order PrimFloat.ltb PrimFloat.leb neg_infinity infinity.
Proof.
  split; intros *; rewrite ?ltb_spec, ?leb_spec.
  - apply SFltb_leb.
  - apply SFleb_not_ltb.
  - apply SFleb_total.
  - apply SFleb_trans.
  - apply SFltb_leb_trans.
  - apply SFleb_ltb_trans.
  - apply SFleb_refl_l.
  - apply SFleb_refl_r.
  - apply SFleb_neg_infinity.
  - apply SFleb_infinity.
  - intros H. apply Prim2SF_inj. by apply SFleb_neg_infinity_inv.
  - intros H. apply Prim2SF_inj. by apply SFleb_infinity_inv.
Qed.

(** The same comparisons read from the other side. *)
Lemma search_order_flip (lt le : float → float → bool) (bot top : float) :
  search_order lt le bot top →
  search_order (flip lt) (flip le) top bot.
Proof.
  intros []. split; unfold flip; eauto.
Qed.

(** ** Pruning against the full search, in an order *)

Lemma float_eq_dec (x y : float) : {x = y} + {x ≠ y}.
Proof.
  destruct (PrimFloat.Leibniz.eqb x y) eqn:H.
  - left. by apply FloatAxioms.Leibniz.eqb_spec.
  - right. intros Heq. apply FloatAxioms.Leibniz.eqb_spec in Heq. congruence.
Qed.

Section OrderedSearch.

Variables (lt le : float → float → bool) (bot top : float).
Hypothesis ord : search_order lt le bot top.

Lemma so_irrefl (x : float) : lt x x = false.
Proof.
  destruct (lt x x) eqn:H; [|done].
  apply (so_lt_le _ _ _ _ ord) in H as Hle.
  by rewrite (so_le_not_lt _ _ _ _ ord _ _ Hle) in H.
Qed.

Lemma so_lt_num_l (x y : float) : lt x y = true → le x x = true.
Proof. intros H. eapply so_refl_l, so_lt_le; eauto. Qed.

Lemma so_lt_num_r (x y : float) : lt x y = true → le y y = true.
Proof. intros H. eapply so_refl_r, so_lt_le; eauto. Qed.

Lemma so_lt_not_le (x y : float) : lt x y = true → le y x = false.
Proof.
  intros H. destruct (le y x) eqn:Hle; [|done].
  by rewrite (so_le_not_lt _ _ _ _ ord _ _ Hle) in H.
Qed.

Lemma so_not_le_lt (x y : float) :
  le x x = true → le y y = true → le y x = false → lt x y = true.
Proof.
  intros Hx Hy H. destruct (lt x y) eqn:Hlt; [done|].
  by rewrite (so_total _ _ _ _ ord x y) in H.
Qed.

Lemma so_lt_top (x : float) : lt top x = false.
Proof.
  destruct (lt top x) eqn:H; [|done].
  apply (so_lt_le _ _ _ _ ord) in H as Hle.
  apply (so_top_le _ _ _ _ ord) in Hle as ->. by rewrite so_irrefl in H.
Qed.

Lemma so_lt_bot (x : float) : lt x bot = false.
Proof.
  destruct (lt x bot) eqn:H; [|done].
  apply (so_lt_le _ _ _ _ ord) in H as Hle.
  apply (so_le_bot _ _ _ _ ord) in Hle as ->. by rewrite so_irrefl in H.
Qed.

Lemma full_loop_top (rec : board → float) (b : board) (role : Z)
    (moves : list move) (bm : option move) :
  full_loop lt rec b role moves top bm = (top, bm).
Proof.
  induction moves as [|[x y] moves IH]; [done|].
  cbn [full_loop]. by rewrite so_lt_top.
Qed.

(** The full loop never returns less than it starts from. *)
Lemma full_loop_ge (rec : board → float) (b : board) (role : Z)
    (moves : list move) (best : float) (bm : option move) :
  le best best = true →
  le best (full_loop lt rec b role moves best bm).1 = true.
Proof.
  revert best bm. induction moves as [|[x y] moves IH]; intros best bm Hn;
    [done|].
  cbn [full_loop]. destruct (lt best _) eqn:Hlt; [|by apply IH].
  eapply so_le_trans; [done|by eapply so_lt_le|].
  apply IH. by eapply so_lt_num_r.
Qed.

Lemma prune_loop_agree (recF : board → float)
    (recP : float → float → board → float) (b : board) (role : Z)
    (moves : list move) (lo0 hi : float) :
  lt lo0 hi = true →
  (∀ lo x y, (x, y) ∈ moves → lt lo hi = true →
     agree le lo hi (recF (set_cell b x y role))
       (recP lo hi (set_cell b x y role))) →
  ∀ lo best pbm bm,
    loops_related lt le bot lo0 hi lo best pbm bm →
    agree_move le bot top lo0 hi
      (full_loop lt recF b role moves best bm)
      (prune_loop lt le recP b role moves lo hi pbm).
Proof.
  intros Hwin. induction moves as [|[x y] moves IH];
    intros Hchild lo best pbm bm Hrel.
  { cbn [full_loop prune_loop].
    destruct Hrel as [(-> & -> & _)|(-> & -> & Hle & Hbot)]; [by left|].
    destruct (float_eq_dec lo0 bot) as [->|Hne].
    - left. rewrite Hbot by done.
      by rewrite (so_le_bot _ _ _ _ ord _ Hle).
    - right. left. cbn [fst]. split_and!; [done|by eapply so_refl_r|done]. }
  assert (lt lo hi = true) as Hlo.
  { destruct Hrel as [(_ & _ & _ & H)|(-> & _)]; done. }
  pose proof (so_lt_num_r _ _ Hwin) as Hhi.
  specialize (IH (λ lo' x' y' Hm, Hchild lo' x' y' (list_elem_of_further _ _ _ Hm))).
  pose proof (Hchild lo x y (list_elem_of_here _ _) Hlo) as Hc.
  cbn [full_loop prune_loop].
  set (v := recF (set_cell b x y role)) in *.
  set (r := recP lo hi (set_cell b x y role)) in *.
  (* the outcome of a cut: the pruned loop stops at [lo'], the full loop
     goes on from [best'] = the same or more *)
  assert (∀ lo' best' m, le hi lo' = true → le hi best' = true →
            (hi = top → lo' = best') →
            agree_move le bot top lo0 hi
              (full_loop lt recF b role moves best' m) (lo', m)) as Hcut.
  { intros lo' best' m Hl Hb Heq.
    destruct (float_eq_dec hi top) as [->|Hne].
    - rewrite (Heq eq_refl).
      apply (so_top_le _ _ _ _ ord) in Hb as ->.
      left. by rewrite full_loop_top.
    - right. right. cbn [fst]. split_and!; [|done..].
      eapply so_le_trans; [done|exact Hb|].
      apply full_loop_ge. by eapply so_refl_r. }
  (* going on after an update to the same score on both sides *)
  assert (lt lo0 v = true → 
          agree_move le bot top lo0 hi
            (full_loop lt recF b role moves v (Some (x, y)))
            (if le hi v then (v, Some (x, y))
             else prune_loop lt le recP b role moves v hi (Some (x, y))))
    as Hup.
  { intros Hv. destruct (le hi v) eqn:Hle.
    - by apply Hcut.
    - apply IH. left. split_and!; try done.
      apply so_not_le_lt; [by eapply so_lt_num_r|done|done]. }
  destruct Hrel as [(-> & -> & Hb0 & _)|(-> & -> & Hle & Hbot)].
  - (* the pruned bound is the best of the full loop *)
    destruct Hc as [Hc|[[Hv Hr]|[Hv Hr]]].
    + rewrite Hc. destruct (lt best v) eqn:Hlt.
      * apply Hup. eapply so_lt_le_trans; [done|exact Hb0|by eapply so_lt_le].
      * rewrite (so_lt_not_le _ _ Hlo). apply IH. left. by split_and!.
    + rewrite (so_le_not_lt _ _ _ _ ord _ _ Hv).
      rewrite (so_le_not_lt _ _ _ _ ord _ _ Hr).
      rewrite (so_lt_not_le _ _ Hlo). apply IH. left. by split_and!.
    + rewrite (so_lt_le_trans _ _ _ _ ord _ _ _ Hlo Hv).
      rewrite (so_lt_le_trans _ _ _ _ ord _ _ _ Hlo Hr).
      rewrite Hr. apply Hcut; [done..|].
      intros ->. apply (so_top_le _ _ _ _ ord) in Hv, Hr. congruence.
  - (* the pruned bound is still the one given *)
    assert (lt best v = true → le v lo0 = true → 
            agree_move le bot top lo0 hi
              (full_loop lt recF b role moves v (Some (x, y)))
              (prune_loop lt le recP b role moves lo0 hi None)) as Hlow.
    { intros Hlt Hv. apply IH. right. split_and!; try done.
      intros ->. apply (so_le_bot _ _ _ _ ord) in Hv, Hle.
      by rewrite Hv, Hle, so_irrefl in Hlt. }
    destruct Hc as [Hc|[[Hv Hr]|[Hv Hr]]].
    + rewrite Hc. destruct (lt lo0 v) eqn:Hlt.
      * rewrite (so_le_lt_trans _ _ _ _ ord _ _ _ Hle Hlt). by apply Hup.
      * rewrite (so_lt_not_le _ _ Hlo).
        destruct (lt best v) eqn:Hbv.
        -- apply Hlow; [done|]. 
           apply (so_total _ _ _ _ ord); [by eapply so_refl_r|
                                           by eapply so_lt_num_r|done].
        -- apply IH. right. by split_and!.
    + rewrite (so_le_not_lt _ _ _ _ ord _ _ Hr).
      rewrite (so_lt_not_le _ _ Hlo).
      destruct (lt best v) eqn:Hbv.
      * by apply Hlow.
      * apply IH. right. by split_and!.
    + rewrite (so_lt_le_trans _ _ _ _ ord _ _ _ Hlo Hr).
      assert (lt best v = true) as ->.
      { eapply so_le_lt_trans; [done|exact Hle|].
        by eapply so_lt_le_trans. }
      rewrite Hr. apply Hcut; [done..|].
      intros ->. apply (so_top_le _ _ _ _ ord) in Hv, Hr. congruence.
Qed.

End OrderedSearch.

(** ** Alpha-beta pruning against exhaustive minimax *)

Section AlphaBeta.

Variable set_order : list move → list move.

Lemma alphabeta_loop_max (rec : float → float → board → float) (b : board)
    (moves : list move) (alpha beta : float) (best : option move) :
  alphabeta_loop rec true b moves alpha beta best =
  prune_loop PrimFloat.ltb PrimFloat.leb rec b ai_role moves alpha beta best.
Proof.
  revert alpha best. induction moves as [|[x y] moves IH]; intros alpha best;
    [done|].
  cbn [alphabeta_loop prune_loop mover].
  destruct (PrimFloat.ltb alpha _); destruct (PrimFloat.leb beta _);
    done || apply IH.
Qed.

Lemma alphabeta_loop_min (rec : float → float → board → float) (b : board)
    (moves : list move) (alpha beta : float) (best : option move) :
  alphabeta_loop rec false b moves alpha beta best =
  prune_loop (flip PrimFloat.ltb) (flip PrimFloat.leb)
    (λ lo hi, rec hi lo) b opponent_role moves beta alpha best.
Proof.
  revert beta best. induction moves as [|[x y] moves IH]; intros beta best;
    [done|].
  cbn [alphabeta_loop prune_loop mover]. unfold flip at 1 3.
  destruct (PrimFloat.ltb _ beta); unfold flip at 1;
    destruct (PrimFloat.leb _ alpha); done || apply IH.
Qed.

Lemma exhaustive_loop_max (rec : board → float) (b : board)
    (moves : list move) (best : float) (bm : option move) :
  exhaustive_loop rec true b moves best bm =
  full_loop PrimFloat.ltb rec b ai_role moves best bm.
Proof.
  revert best bm. induction moves as [|[x y] moves IH]; intros best bm;
    [done|].
  cbn [exhaustive_loop full_loop mover].
  destruct (PrimFloat.ltb best _); apply IH.
Qed.

Lemma exhaustive_loop_min (rec : board → float) (b : board)
    (moves : list move) (best : float) (bm : option move) :
  exhaustive_loop rec false b moves best bm =
  full_loop (flip PrimFloat.ltb) rec b opponent_role moves best bm.
Proof.
  revert best bm. induction moves as [|[x y] moves IH]; intros best bm;
    [done|].
  cbn [exhaustive_loop full_loop mover]. unfold flip at 1.
  destruct (PrimFloat.ltb _ best); apply IH.
Qed.

(** Under a window [alpha < beta], the pruned search agrees with the
    exhaustive one. *)
Lemma alphabeta_agree (d : nat) :
  ∀ maximizing_player alpha beta b,
    PrimFloat.ltb alpha beta = true →
    agree_move PrimFloat.leb neg_infinity infinity alpha beta
      (exhaustive set_order d maximizing_player b)
      (alphabeta set_order d alpha beta maximizing_player b).
Proof.
  induction d as [|d IH]; intros maxi alpha beta b Hwin; [by left|].
  cbn [exhaustive alphabeta].
  destruct (is_winning_move b ai_role || is_winning_move b opponent_role);
    [by left|].
  assert (∀ a b' bd, PrimFloat.ltb a b' = true →
            agree PrimFloat.leb a b'
              (exhaustive set_order d (negb maxi) bd).1
              (alphabeta set_order d a b' (negb maxi) bd).1) as Hchild.
  { intros a b' bd Hab.
    destruct (IH (negb maxi) a b' bd Hab) as [->|[(?&?&_)|(?&?&_)]];
      [by left|right; by left|right; by right]. }
  destruct maxi.
  - rewrite alphabeta_loop_max, exhaustive_loop_max.
    apply (prune_loop_agree _ _ _ _ float_order); [done| |].
    + intros lo x y _ Hlo. by apply Hchild.
    + right. split_and!; try done.
      apply (so_bot _ _ _ _ float_order).
      by eapply so_lt_num_l; [apply float_order|].
  - rewrite alphabeta_loop_min, exhaustive_loop_min.
    pose proof (search_order_flip _ _ _ _ float_order) as Hflip.
    destruct (prune_loop_agree _ _ _ _ Hflip
                (λ b', (exhaustive set_order d true b').1)
                (λ lo hi b', (alphabeta set_order d hi lo true b').1)
                b opponent_role (available_moves set_order b) beta alpha)
      with (lo := beta) (best := infinity) (pbm := @None move)
           (bm := @None move) as [H|[H|H]].
    + done.
    + intros lo x y _ Hlo. unfold flip in Hlo.
      destruct (Hchild alpha lo (set_cell b x y opponent_role) Hlo)
        as [?|[?|?]]; [by left|right; by right|right; by left].
    + right. split_and!; try done. unfold flip.
      apply (so_top _ _ _ _ float_order).
      by eapply so_lt_num_r; [apply float_order|].
    + by left.
    + right. by right.
    + right. by left.
Qed.

(** With the window open on both sides, pruning changes neither the score
    nor the move. *)
Lemma alphabeta_exhaustive (d : nat) (maximizing_player : bool) (b : board) :
  alphabeta set_order d neg_infinity infinity maximizing_player b =
  exhaustive set_order d maximizing_player b.
Proof.
  destruct (alphabeta_agree d maximizing_player neg_infinity infinity b)
    as [H|[(_ & _ & H)|(_ & _ & H)]]; done.
Qed.

End AlphaBeta.

(** ** The search with its table against the search without *)

Section TableSearch.

Variable ZOBRIST_TABLE : Z → Z → Z → Z.
Variable set_order : list move → list move.
Hypothesis set_order_elements : set_enumeration set_order.

Lemma positions_self (d : nat) (maxi : bool) (b : board) :
  b ∈ positions set_order d maxi b.
Proof. destruct d; apply list_elem_of_here. Qed.

Lemma positions_child (d : nat) (maxi : bool) (b p : board) (m : move) :
  is_winning_move b ai_role || is_winning_move b opponent_role = false →
  m ∈ available_moves set_order b →
  p ∈ positions set_order d (negb maxi) (set_cell b m.1 m.2 (mover maxi)) →
  p ∈ positions set_order (S d) maxi b.
Proof.
  intros Hwin Hm Hp. cbn [positions]. rewrite Hwin.
  apply list_elem_of_further, list_elem_of_bind. by exists m.
Qed.

Lemma table_consistent_store (P : list board) (tt : gmap Z tt_entry)
    (b : board) (h depth : Z) :
  fingerprints_distinct ZOBRIST_TABLE P →
  table_consistent ZOBRIST_TABLE P tt →
  b ∈ P → zobrist_hash ZOBRIST_TABLE b = Some h →
  (depth ≤ 0 ∨
   is_winning_move b ai_role || is_winning_move b opponent_role = true) →
  table_consistent ZOBRIST_TABLE P (<[h := (evaluate_board b, depth)]> tt).
Proof.
  intros Hdist Hcons Hb Hh Hterm q h' score d Hq Hh' Hlook.
  destruct (decide (h' = h)) as [->|Hne].
  - rewrite lookup_insert_eq in Hlook. injection Hlook as <- <-.
    assert (q = b) as -> by (apply Hdist; congruence). done.
  - rewrite lookup_insert_ne in Hlook by done. by eapply Hcons.
Qed.

Lemma candidates_loop_alphabeta
    (rec : float → float → engine → outcome (float * engine))
    (recP : float → float → board → float) (maxi : bool) (b : board)
    (P : list board) (moves : list move) :
  square b →
  (∀ m, m ∈ moves → candidate b m) →
  (∀ alpha beta x y e1, (x, y) ∈ moves →
     eboard e1 = set_cell b x y (mover maxi) →
     table_consistent ZOBRIST_TABLE P (transposition_table e1) →
     ∃ e2, rec alpha beta e1 = Ok (recP alpha beta (eboard e1), e2) ∧
           eboard e2 = eboard e1 ∧
           table_consistent ZOBRIST_TABLE P (transposition_table e2)) →
  ∀ alpha beta best e,
    eboard e = b →
    table_consistent ZOBRIST_TABLE P (transposition_table e) →
    ∃ e', candidates_loop rec maxi moves alpha beta best e =
            Ok (alphabeta_loop recP maxi b moves alpha beta best, e') ∧
          eboard e' = b ∧
          table_consistent ZOBRIST_TABLE P (transposition_table e').
Proof.
  intros Hsq. induction moves as [|[x y] moves IH];
    intros Hcand Hrec alpha beta best e Hb Hcons; [by exists e|].
  cbn [candidates_loop alphabeta_loop].
  destruct (Hcand (x, y) (list_elem_of_here _ _)) as (Hin & Hz & _).
  cbn [fst snd] in Hin, Hz.
  destruct (Hrec alpha beta x y (place e x y (mover maxi)))
    as (e2 & Hcall & Hb2 & Hcons2);
    [apply list_elem_of_here|by cbn; rewrite Hb|done|].
  change (if maxi then ai_role else opponent_role) with (mover maxi).
  rewrite Hcall. cbn [place eboard] in *. rewrite Hb.
  set (eval := recP alpha beta (set_cell b x y (mover maxi))).
  assert (eboard (place e2 x y 0) = b) as Hb3.
  { cbn [place eboard]. rewrite Hb2, Hb, <- Hz at 1. apply set_cell_restore. }
  assert (∀ a b' bm, ∃ e',
    (if PrimFloat.leb b' a
     then Ok (if maxi then a else b', bm, place e2 x y 0)
     else candidates_loop rec maxi moves a b' bm (place e2 x y 0)) =
    Ok (if PrimFloat.leb b' a then (if maxi then a else b', bm)
        else alphabeta_loop recP maxi b moves a b' bm, e') ∧
    eboard e' = b ∧
    table_consistent ZOBRIST_TABLE P (transposition_table e')) as Hrest.
  { intros a b' bm. destruct (PrimFloat.leb b' a); [by eexists|].
    apply IH; try done.
    - intros m Hm. by apply Hcand, list_elem_of_further.
    - intros a' b'' x' y' e1 Hm. apply Hrec. by apply list_elem_of_further. }
  destruct maxi.
  - destruct (PrimFloat.ltb alpha eval); apply Hrest.
  - destruct (PrimFloat.ltb eval beta); apply Hrest.
Qed.

(** On positions with distinct fingerprints, and a table that holds for them
    what searches store, the table changes nothing to the result. *)
Lemma minimax_alphabeta (P : list board) (fuel : nat) :
  fingerprints_distinct ZOBRIST_TABLE P →
  ∀ d alpha beta maxi e,
    (d < fuel)%nat →
    square (eboard e) → board_in_table (eboard e) →
    (∀ p, p ∈ positions set_order d maxi (eboard e) → p ∈ P) →
    table_consistent ZOBRIST_TABLE P (transposition_table e) →
    ∃ e', minimax ZOBRIST_TABLE set_order fuel (Z.of_nat d) alpha beta maxi e
          = Ok (alphabeta set_order d alpha beta maxi (eboard e), e') ∧
          eboard e' = eboard e ∧
          table_consistent ZOBRIST_TABLE P (transposition_table e').
Proof.
  intros Hdist. induction fuel as [|fuel IH];
    intros d alpha beta maxi e Hfuel Hsq Htab Hpos Hcons; [lia|].
  rewrite minimax_S. cbn zeta. cbn [log eboard transposition_table].
  destruct (zobrist_hash_defined ZOBRIST_TABLE _ Htab) as [h Hh]. rewrite Hh.
  pose proof (Hpos _ (positions_self d maxi (eboard e))) as HbP.
  destruct (tt_hit (transposition_table e) h (Z.of_nat d)) as [s|] eqn:Hhit.
  { unfold tt_hit in Hhit.
    destruct (transposition_table e !! h) as [[s' dp]|] eqn:Hlook; [|done].
    destruct (Z.leb_spec (Z.of_nat d) dp); [|done]. injection Hhit as ->.
    destruct (Hcons _ _ _ _ HbP Hh Hlook) as [-> Hterm].
    exists (log CallHash (log (CallMinimax (Z.of_nat d)) e)).
    split_and!; [|done..]. do 2 f_equal.
    destruct d as [|d]; [done|]. cbn [alphabeta].
    destruct Hterm as [?| ->]; [lia|done]. }
  unfold expand_node.
  destruct (terminal (Z.of_nat d) _) as [stop e1] eqn:Hterm.
  apply terminal_frame in Hterm as (Hb1 & Ht1 & Hstop).
  cbn [log eboard transposition_table] in Hb1, Ht1, Hstop.
  destruct stop.
  { eexists. split_and!.
    - f_equal. f_equal. cbn [log eboard]. rewrite Hb1.
      destruct d as [|d]; [done|]. cbn [alphabeta].
      destruct (is_winning_move (eboard e) ai_role
                || is_winning_move (eboard e) opponent_role); [done|].
      rewrite orb_false_r in Hstop. by destruct (Z.eqb_spec (Z.of_nat (S d)) 0); [lia|].
    - cbn [store log eboard]. done.
    - cbn [store log eboard transposition_table]. rewrite Ht1, Hb1.
      apply table_consistent_store; try done.
      destruct (Z.eqb_spec (Z.of_nat d) 0); [left; lia|right].
      by rewrite orb_false_l in Hstop. }
  destruct d as [|d]; [done|].
  destruct (is_winning_move (eboard e) ai_role
            || is_winning_move (eboard e) opponent_role) eqn:Hwin;
    [by rewrite orb_true_r in Hstop; destruct (Z.of_nat (S d) =? 0)|].
  cbn [alphabeta]. rewrite Hwin.
  destruct (candidates_loop_alphabeta
              (child_call ZOBRIST_TABLE set_order fuel (Z.of_nat (S d)) maxi)
              (λ a b' bd, (alphabeta set_order d a b' (negb maxi) bd).1)
              maxi (eboard e) P (available_moves set_order (eboard e)))
    with (alpha := alpha) (beta := beta) (best := @None move)
         (e := log CallMoves e1) as (e' & Hloop & Hb' & Hcons').
  - done.
  - intros m Hm. by apply (elem_of_available_moves set_order).
  - intros a b' x y e1' Hm Hb1' Hcons1.
    apply (elem_of_available_moves set_order set_order_elements) in Hm as Hc.
    destruct Hc as (Hin & Hz & _). cbn [fst snd] in Hin, Hz.
    unfold child_call.
    replace (Z.of_nat (S d) - 1) with (Z.of_nat d) by lia.
    destruct (IH d a b' (negb maxi) e1') as (e2 & -> & Hb2 & Hcons2).
    + lia.
    + rewrite Hb1'. by apply square_set_cell.
    + rewrite Hb1'. apply board_in_table_set_cell; try done.
      unfold mover, ai_role, opponent_role. destruct maxi; lia.
    + intros p Hp. apply Hpos. rewrite Hb1' in Hp.
      by apply positions_child with (x, y).
    + done.
    + exists e2. split_and!; [|done..].
      by destruct (alphabeta set_order d a b' (negb maxi) (eboard e1')).
  - cbn [log eboard]. done.
  - cbn [log transposition_table]. by rewrite Ht1.
  - exists e'. cbn [log eboard]. rewrite Hb1. split_and!; done.
Qed.

Lemma table_consistent_empty (P : list board) :
  table_consistent ZOBRIST_TABLE P ∅.
Proof. intros p h score d _ _ H. by rewrite lookup_empty in H. Qed.

Lemma fingerprints_distinctb_spec (P : list board) :
  fingerprints_distinctb ZOBRIST_TABLE P = true →
  fingerprints_distinct ZOBRIST_TABLE P.
Proof.
  unfold fingerprints_distinctb. cbn zeta. rewrite forallb_forall.
  intros H p q Hp Hq Heq.
  specialize (H (zobrist_hash ZOBRIST_TABLE p, p)).
  rewrite forallb_forall in H.
  assert (∀ r, r ∈ P →
            In (zobrist_hash ZOBRIST_TABLE r, r)
               ((λ p, (zobrist_hash ZOBRIST_TABLE p, p)) <$> P)) as Hin.
  { intros r Hr. apply list_elem_of_In, list_elem_of_fmap. by exists r. }
  specialize (H (Hin p Hp) (zobrist_hash ZOBRIST_TABLE q, q) (Hin q Hq)).
  cbn [fst snd] in H. rewrite bool_decide_eq_true_2 in H by done.
  by apply bool_decide_eq_true_1 in H.
Qed.

(** Without collisions and with a table that holds only what searches
    store, [minimax] with the window open is the search without table and
    without pruning. *)
Lemma minimax_exhaustive (e : engine) (d fuel : nat)
    (maximizing_player : bool) :
  square (eboard e) → board_in_table (eboard e) →
  fingerprints_distinct ZOBRIST_TABLE
    (positions set_order d maximizing_player (eboard e)) →
  table_consistent ZOBRIST_TABLE
    (positions set_order d maximizing_player (eboard e))
    (transposition_table e) →
  (d < fuel)%nat →
  ∃ e', minimax ZOBRIST_TABLE set_order fuel (Z.of_nat d)
          neg_infinity infinity maximizing_player e
        = Ok (exhaustive set_order d maximizing_player (eboard e), e').
Proof.
  intros Hsq Htab Hdist Hcons Hfuel.
  destruct (minimax_alphabeta _ fuel Hdist d neg_infinity infinity
              maximizing_player e) as (e' & Hcall & _); try done.
  exists e'. by rewrite Hcall, alphabeta_exhaustive.
Qed.

Lemma exhaustive_loop_ext (rec1 rec2 : board → float)
    (maximizing_player : bool) (b : board) (moves : list move) :
  (∀ m, m ∈ moves →
     rec1 (set_cell b m.1 m.2 (mover maximizing_player)) =
     rec2 (set_cell b m.1 m.2 (mover maximizing_player))) →
  ∀ best bm,
    exhaustive_loop rec1 maximizing_player b moves best bm =
    exhaustive_loop rec2 maximizing_player b moves best bm.
Proof.
  induction moves as [|[x y] moves IH]; intros Hrec best bm; [done|].
  cbn [exhaustive_loop].
  pose proof (Hrec (x, y) (list_elem_of_here _ _)) as Hxy.
  cbn [fst snd] in Hxy. rewrite Hxy.
  assert (∀ m, m ∈ moves →
     rec1 (set_cell b m.1 m.2 (mover maximizing_player)) =
     rec2 (set_cell b m.1 m.2 (mover maximizing_player))) as Hrest
    by (intros m Hm; by apply Hrec, list_elem_of_further).
  by rewrite !(IH Hrest).
Qed.

(** Where every node that is searched on has a candidate, the fall-through
    of the code is never taken: its exhaustive search is the one of the
    specification. *)
Lemma exhaustive_spec_exhaustive (d : nat) :
  ∀ maximizing_player b,
    nodes_have_candidates set_order d maximizing_player b = true →
    exhaustive set_order d maximizing_player b =
    spec_exhaustive set_order d maximizing_player b.
Proof.
  induction d as [|d IH]; intros maxi b Hnodes; [done|].
  cbn [exhaustive spec_exhaustive nodes_have_candidates] in *.
  destruct (is_winning_move b ai_role || is_winning_move b opponent_role);
    [done|].
  destruct (available_moves set_order b) as [|m moves] eqn:Hmoves; [done|].
  apply exhaustive_loop_ext. intros m' Hm'. f_equal. apply IH.
  rewrite forallb_forall in Hnodes. by apply Hnodes, list_elem_of_In.
Qed.

(** C1, as the code has it: on a board the Zobrist table covers, searched
    [d] plies deep with the window open and a table that holds, for the
    positions of the search, only what searches store (an empty table for
    one), [minimax] returns the score and the move of the exhaustive minimax
    of the specification over the same enumeration of candidates, provided
    no two positions of the search share a fingerprint and every position
    at which the search goes on has a candidate move. *)
Theorem minimax_equals_exhaustive (e : engine) (d fuel : nat)
    (maximizing_player : bool) :
  square (eboard e) → board_in_table (eboard e) →
  fingerprints_distinct ZOBRIST_TABLE
    (positions set_order d maximizing_player (eboard e)) →
  table_consistent ZOBRIST_TABLE
    (positions set_order d maximizing_player (eboard e))
    (transposition_table e) →
  nodes_have_candidates set_order d maximizing_player (eboard e) = true →
  (d < fuel)%nat →
  ∃ e', minimax ZOBRIST_TABLE set_order fuel (Z.of_nat d)
          neg_infinity infinity maximizing_player e
        = Ok (spec_exhaustive set_order d maximizing_player (eboard e), e').
Proof.
  intros Hsq Htab Hdist Hcons Hnodes Hfuel.
  destruct (minimax_exhaustive e d fuel maximizing_player)
    as (e' & Hcall); try done.
  exists e'. by rewrite Hcall, exhaustive_spec_exhaustive.
Qed.

End TableSearch.

(** ** The instances *)

Lemma row_major_order_enumeration : set_enumeration row_major_order.
Proof.
  intros l. unfold row_major_order. split.
  - rewrite merge_sort_Permutation. apply NoDup_remove_dups.
  - intros m. rewrite merge_sort_Permutation. apply elem_of_remove_dups.
Qed.

Lemma enumeratesb_spec (l r : list move) :
  enumeratesb l r = true → NoDup r ∧ ∀ m, m ∈ r ↔ m ∈ l.
Proof.
  unfold enumeratesb. rewrite !andb_true_iff, !forallb_forall.
  intros [[Hnd Hr] Hl]. apply bool_decide_eq_true_1 in Hnd.
  split; [done|]. intros m. split; intros Hm.
  - eapply bool_decide_eq_true_1, Hr. by apply list_elem_of_In.
  - eapply bool_decide_eq_true_1, Hl. by apply list_elem_of_In.
Qed.

Lemma cpython_order_enumeration : set_enumeration cpython_order.
Proof.
  intros l. unfold cpython_order.
  destruct (set_list l) as [r|]; [|apply row_major_order_enumeration].
  destruct (enumeratesb l r) eqn:Hr; [|apply row_major_order_enumeration].
  by apply enumeratesb_spec.
Qed.

Lemma answer_Some (o : outcome (float * option move * engine))
    (score : float) (mv : option move) :
  answer o = Some (score, mv) → ∃ e', o = Ok (score, mv, e').
Proof.
  destruct o as [[[s m] e']| |]; simpl; intros [=]. subst. by exists e'.
Qed.

Lemma answers_differ_neq (r1 r2 : option (float * option move)) :
  answers_differ r1 r2 = true → r1 ≠ r2.
Proof.
  intros H ->. destruct r2 as [[s m]|]; simpl in H; [|done].
  rewrite (so_irrefl _ _ _ _ float_order) in H.
  by rewrite bool_decide_eq_true_2 in H.
Qed.

Lemma searched_lifetime (depth : Z) (e0 e : engine) :
  lifetime distinct_table cpython_order e0 e →
  square (eboard e) → board_in_table (eboard e) →
  lifetime distinct_table cpython_order e0 (searched depth e).
Proof.
  intros Hlife Hsq Htab. unfold searched.
  destruct (minimax_returns distinct_table cpython_order
              cpython_order_enumeration (S (empties (eboard e))) depth
              neg_infinity infinity true e Hsq Htab ltac:(lia))
    as [[[score mv] e'] Hcall].
  rewrite Hcall. cbn [engine_after].
  eapply lifetime_search; [exact Hlife|exact Hsq|exact Hcall].
Qed.

(** ** Examples: the theorems at concrete boards *)

Lemma is_winning_move_correct_witness :
  is_winning_move won_board 1 = true ∧
  (¬ has_five won_board 2 → is_winning_move won_board 2 = false).
Proof.
  split.
  - destruct (is_winning_move_correct won_board 1) as [H _].
    + apply squareb_spec. vm_compute. reflexivity.
    + apply H. exists 0, 2, (1, 0). split.
      * apply list_elem_of_here.
      * intros k Hk.
        assert (k = 0 ∨ k = 1 ∨ k = 2 ∨ k = 3 ∨ k = 4) as Hcases by lia.
        destruct Hcases as [-> | [-> | [-> | [-> | ->]]]];
          vm_compute; split; reflexivity.
  - apply (is_winning_move_correct won_board 2).
    apply squareb_spec. vm_compute. reflexivity.
Defined.


Lemma evaluate_board_correct_witness :
  evaluate_lines three_board 1 = 11 ∧ evaluate_lines three_board 2 = 0 ∧
  evaluate_board three_board = 0x1.a666666666666p+3%float ∧
  evaluate_lines three_board 1 = line_score_spec three_board 1.
Proof.
  assert (∀ x y : Z, in_bounds three_board x y = true →
            (x = 0 ∨ x = 1 ∨ x = 2 ∨ x = 3 ∨ x = 4) ∧
            (y = 0 ∨ y = 1 ∨ y = 2 ∨ y = 3 ∨ y = 4)) as Hcells.
  { intros x y Hin. apply in_bounds_spec in Hin.
    change (size three_board) with 5 in Hin. lia. }
  assert (three_in_row three_board 1 1 1) as H3.
  { split_and!; [reflexivity..|]. intros x y Hin.
    destruct (Hcells x y Hin)
      as [[-> | [-> | [-> | [-> | ->]]]] [-> | [-> | [-> | [-> | ->]]]]];
      (split; [intros Hget; cbv in Hget; (discriminate || lia)
              |intros [? ?]; (lia || reflexivity)]). }
  assert (single_stone three_board 2 3 3) as H1.
  { split; [reflexivity|]. intros x y Hin.
    destruct (Hcells x y Hin)
      as [[-> | [-> | [-> | [-> | ->]]]] [-> | [-> | [-> | [-> | ->]]]]];
      (split; [intros Hget; cbv in Hget; (discriminate || lia)
              |intros [? ?]; (lia || reflexivity)]). }
  destruct (evaluate_board_correct three_board)
    as (Hspec & _ & _ & Hthree & Hsingle & Hboard).
  - apply squareb_spec. vm_compute. reflexivity.
  - split_and!.
    + exact (Hthree 1 1 1 H3).
    + exact (Hsingle 2 3 3 H1).
    + exact (Hboard 1 1 3 3 H3 H1).
    + apply Hspec.
Defined.

Lemma available_moves_enumeration_witness :
  NoDup (available_moves cpython_order position_a) ∧
  ∀ m, m ∈ available_moves cpython_order position_a ↔ candidate position_a m.
Proof.
  destruct (available_moves_enumeration cpython_order
              cpython_order_enumeration position_a) as (H1 & H2 & _).
  - apply squareb_spec. vm_compute. reflexivity.
  - split; [exact H1|exact H2].
Defined.

Lemma minimax_restores_board_witness :
  ∃ score mv e',
    minimax distinct_table cpython_order (S (empties position_a)) 2
      neg_infinity infinity true (new_engine position_a) = Ok (score, mv, e') ∧
    eboard e' = position_a.
Proof.
  destruct (minimax_restores_board distinct_table cpython_order
              cpython_order_enumeration (new_engine position_a) 2
              neg_infinity infinity true) as [_ Hret].
  - apply squareb_spec. vm_compute. reflexivity.
  - apply Hret. apply board_in_tableb_spec. vm_compute. reflexivity.
Defined.

Lemma minimax_move_is_empty_witness :
  ∃ score m e',
    minimax distinct_table cpython_order 3 2 neg_infinity infinity true
      (new_engine position_a) = Ok (score, Some m, e') ∧
    in_bounds (eboard e') m.1 m.2 = true ∧ get (eboard e') m.1 m.2 = 0.
Proof.
  assert (∃ score m,
            answer (minimax distinct_table cpython_order 3 2 neg_infinity
                      infinity true (new_engine position_a))
            = Some (score, Some m)) as (score & m & Hres).
  { do 2 eexists. vm_compute. reflexivity. }
  apply answer_Some in Hres as [e' Hcall].
  exists score, m, e'. split; [exact Hcall|].
  apply (minimax_move_is_empty distinct_table cpython_order
           cpython_order_enumeration (new_engine position_a) 2
           neg_infinity infinity true 3 score m e').
  - apply squareb_spec. vm_compute. reflexivity.
  - exact Hcall.
Defined.

Lemma transposition_depth_never_decreases_witness :
  ∃ entry,
    transposition_table warm_engine !! won_hash
      = Some (evaluate_board won_board, 0) ∧
    transposition_table warm_engine !! leaf_hash = Some entry ∧
    lifetime distinct_table cpython_order warm_engine (searched 2 warm_engine) ∧
    transposition_table (searched 2 warm_engine) !! won_hash
      = Some (evaluate_board won_board, 2) ∧
    transposition_table (searched 2 warm_engine) !! leaf_hash = Some entry ∧
    tt_mono (transposition_table warm_engine)
      (transposition_table (searched 2 warm_engine)).
Proof.
  assert (lifetime distinct_table cpython_order warm_engine
            (searched 2 warm_engine)) as Hlife.
  { apply searched_lifetime.
    - apply lifetime_new.
    - apply squareb_spec. vm_compute. reflexivity.
    - apply board_in_tableb_spec. vm_compute. reflexivity. }
  eexists. split_and!.
  - vm_compute. reflexivity.
  - vm_compute. reflexivity.
  - exact Hlife.
  - vm_compute. reflexivity.
  - vm_compute. reflexivity.
  - apply (transposition_depth_never_decreases distinct_table cpython_order
             cpython_order_enumeration _ _ Hlife).
Defined.

Lemma minimax_no_candidates_witness :
  minimax distinct_table cpython_order 1 1 neg_infinity infinity true
    (new_engine empty_board)
  = Ok (neg_infinity, None,
        Engine empty_board ∅
          [CallMoves; CallWin opponent_role; CallWin ai_role; CallHash;
           CallMinimax 1]).
Proof.
  apply (minimax_no_candidates distinct_table cpython_order
           (new_engine empty_board) 0 1 0 neg_infinity infinity true).
  - apply squareb_spec. vm_compute. reflexivity.
  - vm_compute. reflexivity.
  - vm_compute. reflexivity.
  - lia.
  - vm_compute. reflexivity.
  - vm_compute. reflexivity.
  - vm_compute. reflexivity.
Defined.

Lemma minimax_table_hit_witness :
  minimax distinct_table cpython_order 1 2 neg_infinity infinity true
    cached_engine
  = Ok (own_bias, None,
        Engine position_a {[position_a_hash := (own_bias, 3)]}
          [CallHash; CallMinimax 2]).
Proof.
  destruct (minimax_table_hit distinct_table cpython_order cached_engine 0 2
              position_a_hash neg_infinity infinity true) as [Hhit _].
  - apply squareb_spec. vm_compute. reflexivity.
  - vm_compute. reflexivity.
  - apply (Hhit own_bias 3).
    + apply lookup_singleton_eq.
    + lia.
Defined.

Lemma minimax_equals_exhaustive_witness :
  ∃ e', minimax distinct_table cpython_order 3 2 neg_infinity infinity true
          (new_engine position_a)
        = Ok (spec_exhaustive cpython_order 2 true position_a, e').
Proof.
  apply (minimax_equals_exhaustive distinct_table cpython_order
           cpython_order_enumeration (new_engine position_a) 2 3 true).
  - apply squareb_spec. vm_compute. reflexivity.
  - apply board_in_tableb_spec. vm_compute. reflexivity.
  - apply fingerprints_distinctb_spec. vm_compute. reflexivity.
  - apply table_consistent_empty.
  - vm_compute. reflexivity.
  - lia.
Defined.

(** ** Counterexamples *)

(** Against C1 as stated, twice.  With a Zobrist table in which two entries
    coincide, [minimax] on [position_a] at depth 2, from a new engine,
    answers move (0, 1) with a score above 119 where the exhaustive minimax
    of the specification over the same enumeration answers the same move
    with a score below 23, be the enumeration the one of CPython or the
    row-major one.  And without any collision, on [nearfull] at depth 2:
    the one candidate leads to a full board, which is not terminal and has
    no candidate; the code answers [+inf] for it where the specification
    takes the static score, so that [minimax] returns [+inf] and the
    exhaustive minimax of the specification a score below 3. *)
Lemma minimax_differs_from_spec_exhaustive :
  (drawable colliding_table = true ∧
   (∃ score,
      answer (minimax colliding_table cpython_order 3 2 neg_infinity infinity
                true (new_engine position_a)) = Some (score, Some (0, 1)) ∧
      PrimFloat.ltb 119 score = true) ∧
   (∃ score,
      spec_exhaustive cpython_order 2 true position_a
        = (score, Some (0, 1)) ∧
      PrimFloat.ltb score 23 = true) ∧
   answer (minimax colliding_table cpython_order 3 2 neg_infinity infinity
             true (new_engine position_a))
   ≠ Some (spec_exhaustive cpython_order 2 true position_a) ∧
   answer (minimax colliding_table row_major_order 3 2 neg_infinity infinity
             true (new_engine position_a))
   ≠ Some (spec_exhaustive row_major_order 2 true position_a)) ∧
  (square nearfull ∧ board_in_table nearfull ∧
   fingerprints_distinct distinct_table
     (positions cpython_order 2 true nearfull) ∧
   nodes_have_candidates cpython_order 2 true nearfull = false ∧
   answer (minimax distinct_table cpython_order 3 2 neg_infinity infinity
             true (new_engine nearfull)) = Some (infinity, Some (4, 4)) ∧
   (∃ score,
      spec_exhaustive cpython_order 2 true nearfull
        = (score, Some (4, 4)) ∧
      PrimFloat.ltb score 3 = true) ∧
   answer (minimax distinct_table cpython_order 3 2 neg_infinity infinity
             true (new_engine nearfull))
   ≠ Some (spec_exhaustive cpython_order 2 true nearfull)).
Proof.
  split; split_and!.
  - vm_compute. reflexivity.
  - eexists. split; vm_compute; reflexivity.
  - eexists. split; vm_compute; reflexivity.
  - apply answers_differ_neq. vm_compute. reflexivity.
  - apply answers_differ_neq. vm_compute. reflexivity.
  - apply squareb_spec. vm_compute. reflexivity.
  - apply board_in_tableb_spec. vm_compute. reflexivity.
  - apply fingerprints_distinctb_spec. vm_compute. reflexivity.
  - vm_compute. reflexivity.
  - vm_compute. reflexivity.
  - eexists. split; vm_compute; reflexivity.
  - apply answers_differ_neq. vm_compute. reflexivity.
Qed.

(** Against C3 as stated: on the empty board, a node with no candidate that
    is neither terminal nor a hit, [minimax] returns [-inf], not the static
    score of the board, which is 0. *)
Lemma no_candidates_score_not_static :
  available_moves cpython_order empty_board = [] ∧
  answer (minimax distinct_table cpython_order 1 1 neg_infinity infinity
            true (new_engine empty_board)) = Some (neg_infinity, None) ∧
  evaluate_board empty_board = 0%float ∧
  answer (minimax distinct_table cpython_order 1 1 neg_infinity infinity
            true (new_engine empty_board))
  ≠ Some (evaluate_board empty_board, None).
Proof.
  split_and!.
  - vm_compute. reflexivity.
  - vm_compute. reflexivity.
  - vm_compute. reflexivity.
  - apply answers_differ_neq. vm_compute. reflexivity.
Qed.

(** Against C6 as stated: nothing in [available_moves] orders the cells.
    With the enumeration of CPython the candidates around a stone in the
    centre of a 3x3 board come in an order that is not ascending. *)
Lemma available_moves_not_ascending :
  set_enumeration cpython_order ∧ square centre_board ∧
  available_moves cpython_order centre_board =
    [(0, 1); (1, 2); (2, 1); (0, 0); (2, 0); (0, 2); (2, 2); (1, 0)] ∧
  ¬ ascending (available_moves cpython_order centre_board).
Proof.
  split_and!.
  - apply cpython_order_enumeration.
  - apply squareb_spec. vm_compute. reflexivity.
  - vm_compute. reflexivity.
  - intros H.
    specialize (H 2%nat 3%nat (2, 1) (0, 0) ltac:(lia)
                  ltac:(vm_compute; reflexivity) ltac:(vm_compute; reflexivity)).
    unfold cell_lt in H. simpl in H. lia.
Qed.

(** * Further properties *)

(** ** Run lengths *)

(** The loop of [count_in_line] adds to [count] the number of cells of
    [role] it meets before the first other cell, at most [n]. *)
Lemma count_in_line_loop_spec (n : nat) (b : board) (x y dx dy role count k : Z) :
  0 ≤ k →
  count + k ≤ count_in_line_loop n b x y dx dy role count ↔
  k ≤ Z.of_nat n ∧
  ∀ j, 0 ≤ j < k →
    in_bounds b (x + j * dx) (y + j * dy) = true ∧
    get b (x + j * dx) (y + j * dy) = role.
Proof.
  revert x y count k. induction n as [|n IH]; intros x y count k Hk.
  { cbn [count_in_line_loop]. split.
    - intros H. assert (k = 0) as -> by lia. split; [done|]. intros j Hj. lia.
    - intros [H _]. simpl in H. lia. }
  cbn [count_in_line_loop].
  destruct (in_bounds b x y && (get b x y =? role)) eqn:Hcell.
  - apply andb_true_iff in Hcell as [Hin Hget]. apply Z.eqb_eq in Hget.
    destruct (decide (k = 0)) as [->|Hk0].
    + split.
      * intros _. split; [lia|]. intros j Hj. lia.
      * intros _. specialize (IH (x + dx) (y + dy) (count + 1) 0 ltac:(lia)).
        assert (count + 1 + 0 ≤
                count_in_line_loop n b (x + dx) (y + dy) dx dy role (count + 1))
          as H by (apply IH; split; [lia|intros j Hj; lia]).
        lia.
    + replace (count + k) with (count + 1 + (k - 1)) by lia.
      rewrite IH by lia. split.
      * intros [Hn H]. split; [lia|]. intros j Hj.
        destruct (decide (j = 0)) as [->|Hj0].
        { by rewrite !Z.mul_0_l, !Z.add_0_r. }
        specialize (H (j - 1) ltac:(lia)).
        by replace (x + dx + (j - 1) * dx) with (x + j * dx) in H by lia;
           replace (y + dy + (j - 1) * dy) with (y + j * dy) in H by lia.
      * intros [Hn H]. split; [lia|]. intros j Hj.
        specialize (H (j + 1) ltac:(lia)).
        by replace (x + (j + 1) * dx) with (x + dx + j * dx) in H by lia;
           replace (y + (j + 1) * dy) with (y + dy + j * dy) in H by lia.
  - split.
    + intros H. assert (k = 0) as -> by lia. split; [lia|]. intros j Hj. lia.
    + intros [Hn H]. destruct (decide (k = 0)) as [->|Hk0]; [lia|].
      specialize (H 0 ltac:(lia)).
      rewrite !Z.mul_0_l, !Z.add_0_r in H. destruct H as [Hin Hget].
      apply Z.eqb_eq in Hget. by rewrite Hin, Hget in Hcell.
Qed.

Lemma count_in_line_loop_le (n : nat) (b : board) (x y dx dy role count : Z) :
  count_in_line_loop n b x y dx dy role count ≤ count + Z.of_nat n.
Proof.
  revert x y count. induction n as [|n IH]; intros x y count;
    cbn [count_in_line_loop]; [lia|].
  destruct (in_bounds b x y && (get b x y =? role)); [|lia].
  specialize (IH (x + dx) (y + dy) (count + 1)). lia.
Qed.

Lemma count_in_line_bounds (b : board) (x y dx dy role : Z) :
  0 ≤ count_in_line b x y dx dy role ≤ 5.
Proof.
  unfold count_in_line.
  pose proof (count_in_line_loop_le 5 b x y dx dy role 0) as Hle.
  change (0 + Z.of_nat 5) with 5 in Hle.
  pose proof (proj2 (count_in_line_loop_spec 5 b x y dx dy role 0 0 ltac:(lia)))
    as Hge.
  split; [|done]. rewrite Z.add_0_l in Hge. apply Hge.
  split; [done|]. intros j Hj. lia.
Qed.

(** X1: on a grid, [count_in_line] is the number of consecutive cells of
    [role] from [(x, y)] in the direction, capped at 5: it lies between 0 and
    5, it reaches [k] exactly when the first [k] cells are inside the grid
    and hold [role], and [check_direction] answers true exactly when it is
    5. *)
Theorem count_in_line_run (b : board) (x y dx dy role : Z) :
  square b →
  0 ≤ count_in_line b x y dx dy role ≤ 5 ∧
  (∀ k, 0 ≤ k ≤ 5 →
     k ≤ count_in_line b x y dx dy role ↔
     ∀ j, 0 ≤ j < k →
       in_bounds b (x + j * dx) (y + j * dy) = true ∧
       get b (x + j * dx) (y + j * dy) = role) ∧
  (check_direction b x y role (dx, dy) = true ↔
   count_in_line b x y dx dy role = 5).
Proof.
  intros _. unfold count_in_line.
  pose proof (count_in_line_loop_le 5 b x y dx dy role 0) as Hle.
  change (0 + Z.of_nat 5) with 5 in Hle.
  pose proof (proj2 (count_in_line_loop_spec 5 b x y dx dy role 0 0 ltac:(lia)))
    as Hge.
  assert (∀ k, 0 ≤ k ≤ 5 →
     k ≤ count_in_line_loop 5 b x y dx dy role 0 ↔
     ∀ j, 0 ≤ j < k →
       in_bounds b (x + j * dx) (y + j * dy) = true ∧
       get b (x + j * dx) (y + j * dy) = role) as Hrun.
  { intros k Hk.
    pose proof (count_in_line_loop_spec 5 b x y dx dy role 0 k ltac:(lia)) as H.
    rewrite Z.add_0_l in H. rewrite H. split; [tauto|].
    intros Hj. split; [change (Z.of_nat 5) with 5; lia|done]. }
  split_and!.
  - apply Hge. split; [change (Z.of_nat 5) with 5; lia|]. intros j Hj. lia.
  - lia.
  - exact Hrun.
  - rewrite check_direction_spec. unfold five_from. cbn [fst snd].
    rewrite <- (Hrun 5) by lia. lia.
Qed.

Lemma check_direction_count_in_line (b : board) (x y role : Z) (d : Z * Z) :
  check_direction b x y role d = true ↔ count_in_line b x y d.1 d.2 role = 5.
Proof.
  rewrite check_direction_spec. unfold five_from, count_in_line.
  pose proof (count_in_line_loop_le 5 b x y d.1 d.2 role 0) as Hle.
  change (0 + Z.of_nat 5) with 5 in Hle.
  pose proof (count_in_line_loop_spec 5 b x y d.1 d.2 role 0 5 ltac:(lia)) as H.
  change (Z.of_nat 5) with 5 in H. rewrite Z.add_0_l in H. split.
  - intros Hfive. assert (5 ≤ count_in_line_loop 5 b x y d.1 d.2 role 0)
      by (apply H; split; [lia|done]). lia.
  - intros Heq. apply H. lia.
Qed.

(** The win test and the evaluator look for the same runs. *)
Lemma is_winning_move_run_lengths (b : board) (role : Z) :
  is_winning_move b role = existsb (λ len, len =? 5) (run_lengths b role).
Proof.
  apply eq_true_iff_eq. rewrite is_winning_move_spec, existsb_exists. split.
  - intros (x & y & d & Hd & Hfive). exists 5. split; [|done].
    apply list_elem_of_In. unfold run_lengths. apply list_elem_of_bind.
    pose proof (Hfive 0 ltac:(lia)) as [Hin Hget].
    rewrite !Z.mul_0_l, !Z.add_0_r in Hin, Hget.
    exists (x, y). split; [|by apply in_bounds_all_cells]. cbn [fst snd].
    rewrite (proj2 (Z.eqb_eq _ _) Hget). apply list_elem_of_fmap.
    exists d. split; [|done]. symmetry.
    by apply check_direction_count_in_line, check_direction_spec.
  - intros (len & Hin & Hlen). apply Z.eqb_eq in Hlen as ->.
    apply list_elem_of_In in Hin. unfold run_lengths in Hin.
    apply list_elem_of_bind in Hin as ([x y] & Hin & Hc). cbn [fst snd] in Hin.
    destruct (Z.eqb_spec (get b x y) role) as [Hrole|_];
      [|by apply elem_of_nil in Hin].
    apply list_elem_of_fmap in Hin as (d & Heq & Hd).
    exists x, y, d. split; [done|].
    by apply check_direction_spec, check_direction_count_in_line.
Qed.

Lemma line_points_bounds (len : Z) : 0 ≤ line_points len ≤ 100.
Proof. unfold line_points. repeat case_match; lia. Qed.

Lemma sumZ_nonneg (l : list Z) : (∀ z, z ∈ l → 0 ≤ z) → 0 ≤ sumZ l.
Proof.
  induction l as [|z l IH]; intros H; cbn [sumZ]; [lia|].
  pose proof (H z (list_elem_of_here _ _)).
  assert (0 ≤ sumZ l) by (apply IH; intros z' Hz'; by apply H, list_elem_of_further).
  lia.
Qed.

(** X2: the evaluator and the win test agree on a win.  On a grid, a
    position that [is_winning_move] reports as won for [role] gets the line
    score 10000 for [role]; a position it reports as not won gets the sum of
    the points of the runs, none of which has length 5, and that sum is not
    negative. *)
Theorem evaluate_lines_of_win (b : board) (role : Z) :
  square b →
  (is_winning_move b role = true → evaluate_lines b role = 10000) ∧
  (is_winning_move b role = false →
     evaluate_lines b role = sumZ (line_points <$> run_lengths b role) ∧
     (∀ len, len ∈ run_lengths b role → 0 ≤ len < 5) ∧
     0 ≤ evaluate_lines b role).
Proof.
  intros Hsq. rewrite evaluate_lines_spec. unfold line_score_spec.
  rewrite is_winning_move_run_lengths. split; intros Hwin; rewrite Hwin; [done|].
  split_and!; [done| |].
  - intros len Hlen. 
    assert (len ≠ 5) as Hne.
    { intros ->. apply not_true_iff_false in Hwin. apply Hwin.
      apply existsb_exists. exists 5. by rewrite <- list_elem_of_In. }
    unfold run_lengths in Hlen.
    apply list_elem_of_bind in Hlen as ([x y] & Hin & Hc). cbn [fst snd] in Hin.
    destruct (get b x y =? role); [|by apply elem_of_nil in Hin].
    apply list_elem_of_fmap in Hin as (d & -> & Hd).
    pose proof (count_in_line_bounds b x y d.1 d.2 role). lia.
  - apply sumZ_nonneg. intros z Hz.
    apply list_elem_of_fmap in Hz as (len & -> & _). apply line_points_bounds.
Qed.

(** ** The fingerprint outside the table *)

Section HashErrors.

Variable ZOBRIST_TABLE : Z → Z → Z → Z.
Variable set_order : list move → list move.

Lemma zobrist_entry_None (x y piece : Z) :
  zobrist_entry ZOBRIST_TABLE x y piece = None ↔
  20 ≤ x ∨ 20 ≤ y ∨ piece < -3 ∨ 3 ≤ piece.
Proof.
  unfold zobrist_entry.
  destruct (Z.ltb_spec x 20), (Z.ltb_spec y 20), (Z.leb_spec (-3) piece),
    (Z.ltb_spec piece 3); cbn [andb]; split; intros Hx; try done; lia.
Qed.

Lemma xor_entries_None (b : board) (cells : list move) :
  xor_entries ZOBRIST_TABLE b cells = None ↔
  ∃ x y, (x, y) ∈ cells ∧ zobrist_entry ZOBRIST_TABLE x y (get b x y) = None.
Proof.
  induction cells as [|[x y] cells IH]; cbn [xor_entries].
  - split; [done|]. intros (x & y & H & _). by apply elem_of_nil in H.
  - destruct (zobrist_entry ZOBRIST_TABLE x y (get b x y)) as [entry|] eqn:He;
      cbn [mbind option_bind].
    + rewrite bind_None. split.
      * intros [Hn|(others & _ & [=])]. apply IH in Hn as (x' & y' & Hin & Hn).
        exists x', y'. split; [by apply list_elem_of_further|done].
      * intros (x' & y' & Hin & Hn). left. apply IH.
        apply elem_of_cons in Hin as [[= -> ->]|Hin]; [congruence|].
        by exists x', y'.
    + split; [|done]. intros _. exists x, y.
      split; [apply list_elem_of_here|done].
Qed.

Lemma zobrist_hash_None (b : board) :
  zobrist_hash ZOBRIST_TABLE b = None ↔
  ∃ x y, in_bounds b x y = true ∧ get b x y ≠ 0 ∧
         (20 ≤ x ∨ 20 ≤ y ∨ get b x y < -3 ∨ 3 ≤ get b x y).
Proof.
  unfold zobrist_hash. rewrite hash_fold, fmap_None, xor_entries_None.
  split; intros (x & y & H1 & H2); exists x, y.
  - apply list_elem_of_filter in H1 as [Hocc Hin]. cbn [fst snd] in Hocc.
    apply in_bounds_all_cells in Hin. by apply zobrist_entry_None in H2.
  - destruct H2 as [Hocc Hout]. split.
    + apply list_elem_of_filter. split; [done|]. by apply in_bounds_all_cells.
    + by apply zobrist_entry_None.
Qed.

(** X3: the table of fingerprints has the shape (20, 20, 3).  On a grid,
    [zobrist_hash] raises IndexError exactly when some occupied cell lies in
    a row or a column from 20 on or holds a value outside -3 .. 2; and on
    such a board every call to [minimax] raises it at once, whatever the
    depth, the window and the transposition table. *)
Theorem zobrist_hash_index_error (b : board) :
  square b →
  (zobrist_hash ZOBRIST_TABLE b = None ↔
   ∃ x y, in_bounds b x y = true ∧ get b x y ≠ 0 ∧
          (20 ≤ x ∨ 20 ≤ y ∨ get b x y < -3 ∨ 3 ≤ get b x y)) ∧
  (zobrist_hash ZOBRIST_TABLE b = None →
   ∀ fuel depth alpha beta maximizing_player e, eboard e = b →
     minimax ZOBRIST_TABLE set_order (S fuel) depth alpha beta
       maximizing_player e = IndexError).
Proof.
  intros _. split; [apply zobrist_hash_None|].
  intros Hnone fuel depth alpha beta maxi e <-.
  cbn [minimax log eboard]. by rewrite Hnone.
Qed.

End HashErrors.

(** ** Boards without candidate moves *)

Section NoCandidates.

Variable set_order : list move → list move.
Hypothesis set_order_elements : set_enumeration set_order.

Lemma available_moves_nil (b : board) :
  available_moves set_order b = [] ↔ ∀ m, ¬ candidate b m.
Proof.
  split.
  - intros Hnil m Hm.
    apply (elem_of_available_moves set_order set_order_elements) in Hm.
    rewrite Hnil in Hm. by apply elem_of_nil in Hm.
  - intros Hnone. destruct (available_moves set_order b) as [|m l] eqn:Hl;
      [done|].
    destruct (Hnone m).
    apply (elem_of_available_moves set_order set_order_elements).
    rewrite Hl. apply list_elem_of_here.
Qed.

(** X4: on a grid, [available_moves] returns the empty list exactly when
    every cell within distance 2 of a stone is occupied; so it does on a
    board without a stone and on a board without an empty cell. *)
Theorem available_moves_empty (b : board) :
  square b →
  (available_moves set_order b = [] ↔
   ∀ x y x' y', in_bounds b x y = true → get b x y ≠ 0 →
     in_bounds b x' y' = true → -2 ≤ x' - x ≤ 2 → -2 ≤ y' - y ≤ 2 →
     get b x' y' ≠ 0) ∧
  ((∀ x y, in_bounds b x y = true → get b x y = 0) →
   available_moves set_order b = []) ∧
  ((∀ x y, in_bounds b x y = true → get b x y ≠ 0) →
   available_moves set_order b = []).
Proof.
  intros _. split_and!.
  - rewrite available_moves_nil. split.
    + intros Hnone x y x' y' Hin Hocc Hin' Hx Hy Hz.
      apply (Hnone (x', y')). split_and!; [done..|]. by exists x, y.
    + intros Hall [x' y'] (Hin' & Hz & x & y & Hin & Hocc & Hx & Hy).
      cbn [fst snd] in *. by apply (Hall x y x' y').
  - intros Hempty. apply available_moves_nil.
    intros m (_ & _ & x & y & Hin & Hocc & _). by apply Hocc, Hempty.
  - intros Hfull. apply available_moves_nil.
    intros m (Hin & Hz & _). by apply (Hfull _ _ Hin).
Qed.

End NoCandidates.

(** ** Stones and wins *)

Lemma five_from_set_cell (b : board) (role x y v x0 y0 dx dy : Z) :
  square b → in_bounds b x y = true → get b x y ≠ role → v ≠ role →
  five_from (set_cell b x y v) role x0 y0 dx dy ↔ five_from b role x0 y0 dx dy.
Proof.
  intros Hsq Hin Hold Hnew. unfold five_from.
  split; intros H k Hk; specialize (H k Hk) as [Hin' Hget];
    rewrite ?in_bounds_set_cell in *;
    pose proof (proj1 (in_bounds_spec _ _ _) Hin') as Hb;
    rewrite get_set_cell in * by (done || lia).
  - split; [done|]. by case_decide.
  - split; [done|]. case_decide as Hd; [|done].
    destruct Hd as [Hx Hy]. by rewrite Hx, Hy in Hget.
Qed.

Lemma is_winning_move_other_stone (b : board) (role x y v : Z) :
  square b → in_bounds b x y = true → get b x y ≠ role → v ≠ role →
  is_winning_move (set_cell b x y v) role = is_winning_move b role.
Proof.
  intros Hsq Hin Hold Hnew. apply eq_true_iff_eq.
  rewrite !is_winning_move_spec.
  unfold has_five. by setoid_rewrite five_from_set_cell.
Qed.

(** Placing a stone on an empty cell leaves exactly one empty cell less. *)
Lemma empties_set_cell_S (b : board) (x y v : Z) :
  square b → in_bounds b x y = true → get b x y = 0 → v ≠ 0 →
  empties b = S (empties (set_cell b x y v)).
Proof.
  intros Hsq Hin Hz Hv. unfold empties. rewrite size_set_cell.
  pose proof (NoDup_all_cells (size b)) as Hnd.
  destruct (list_elem_of_split _ _ (proj1 (in_bounds_all_cells _ _ _) Hin))
    as (l1 & l2 & Hsplit).
  assert (∀ l : list move,
    (∀ c, c ∈ l → c ∈ all_cells (size b)) → (x, y) ∉ l →
    filter (λ c : move, get (set_cell b x y v) c.1 c.2 = 0) l =
    filter (λ c : move, get b c.1 c.2 = 0) l) as Hsame.
  { induction l as [|[x' y'] l IH]; intros Hl Hnotin; [done|].
    apply not_elem_of_cons in Hnotin as [Hne Hnotin].
    pose proof (Hl _ (list_elem_of_here _ _)) as Hc.
    apply elem_of_all_cells in Hc.
    rewrite !filter_cons. cbn [fst snd].
    rewrite get_set_cell by (done || lia).
    rewrite (decide_False (P := x' = x ∧ y' = y)) by (intros [-> ->]; done).
    rewrite IH; [done| |done].
    intros c Hc'. by apply Hl, list_elem_of_further. }
  assert (∀ c, c ∈ l1 ∨ c ∈ l2 → c ∈ all_cells (size b)) as Hsub.
  { intros c Hc. rewrite Hsplit. apply elem_of_app.
    destruct Hc as [Hc|Hc]; [by left|right]. by apply list_elem_of_further. }
  rewrite Hsplit in Hnd |- *.
  apply NoDup_app in Hnd as (_ & Hl1 & Hnd). apply NoDup_cons in Hnd as [Hl2 _].
  rewrite !filter_app, !filter_cons. cbn [fst snd].
  rewrite get_set_cell_same by done.
  rewrite (decide_False (P := v = 0)), (decide_True (P := get b x y = 0))
    by done.
  rewrite !Hsame; [|by auto|done|by auto|].
  - rewrite !length_app. cbn [length]. lia.
  - intros H1. apply (Hl1 _ H1), list_elem_of_here.
Qed.

(** X5: stones and wins.  On a grid, writing a value other than [role] on a
    cell that does not hold [role] changes nothing to whether [role] has
    five in a row; and a five of [role] is still there after any value is
    written on a cell that does not hold [role]. *)
Theorem is_winning_move_set_cell (b : board) (role x y v : Z) :
  square b → in_bounds b x y = true → get b x y ≠ role →
  (v ≠ role →
   is_winning_move (set_cell b x y v) role = is_winning_move b role) ∧
  (is_winning_move b role = true →
   is_winning_move (set_cell b x y v) role = true).
Proof.
  intros Hsq Hin Hold. split.
  - intros Hnew. by apply is_winning_move_other_stone.
  - rewrite !is_winning_move_spec. intros (x0 & y0 & d & Hd & Hfive).
    exists x0, y0, d. split; [done|]. intros k Hk.
    destruct (Hfive k Hk) as [Hin' Hget].
    pose proof (proj1 (in_bounds_spec _ _ _) Hin') as Hb.
    rewrite in_bounds_set_cell, get_set_cell by (done || lia).
    split; [done|]. case_decide as Hc; [|done].
    destruct Hc as [Hx Hy]. by rewrite Hx, Hy in Hget.
Qed.

(** ** The search: what it stores and what it returns *)

Lemma ltb_trans (x y z : float) :
  PrimFloat.ltb x y = true → PrimFloat.ltb y z = true →
  PrimFloat.ltb x z = true.
Proof.
  intros Hxy Hyz. eapply (so_lt_le_trans _ _ _ _ float_order); [exact Hxy|].
  by apply (so_lt_le _ _ _ _ float_order).
Qed.

Section SearchResults.

Variable ZOBRIST_TABLE : Z → Z → Z → Z.
Variable set_order : list move → list move.
Hypothesis set_order_elements : set_enumeration set_order.

Lemma candidates_loop_bound
    (rec : float → float → engine → outcome (float * engine))
    (maximizing_player : bool) (moves : list move) :
  ∀ alpha beta best e score mv e',
    candidates_loop rec maximizing_player moves alpha beta best e =
      Ok (score, mv, e') →
    (mv = best ∧ score = (if maximizing_player then alpha else beta)) ∨
    (∃ m, m ∈ moves ∧ mv = Some m ∧
       (if maximizing_player then PrimFloat.ltb alpha score
        else PrimFloat.ltb score beta) = true).
Proof.
  induction moves as [|[x y] moves IH];
    intros alpha beta best e score mv e' Hloop.
  { injection Hloop as <- <- <-. by left. }
  cbn [candidates_loop] in Hloop.
  destruct (rec alpha beta _) as [[eval e2]| |]; try done.
  assert (∀ m, m ∈ moves → m ∈ (x, y) :: moves) as Hfurther
    by (intros m Hm; by apply list_elem_of_further).
  destruct maximizing_player.
  - destruct (PrimFloat.ltb alpha eval) eqn:Hlt.
    + destruct (PrimFloat.leb beta eval).
      * injection Hloop as <- <- <-. right. exists (x, y).
        split_and!; [apply list_elem_of_here|done..].
      * apply IH in Hloop as [[-> ->]|(m & Hm & -> & Hlt')]; right.
        -- exists (x, y). split_and!; [apply list_elem_of_here|done..].
        -- exists m. split_and!; [auto|done|by eapply ltb_trans].
    + destruct (PrimFloat.leb beta alpha).
      * injection Hloop as <- <- <-. by left.
      * apply IH in Hloop as [[-> ->]|(m & Hm & -> & Hlt')]; [by left|].
        right. exists m. auto.
  - destruct (PrimFloat.ltb eval beta) eqn:Hlt.
    + destruct (PrimFloat.leb eval alpha).
      * injection Hloop as <- <- <-. right. exists (x, y).
        split_and!; [apply list_elem_of_here|done..].
      * apply IH in Hloop as [[-> ->]|(m & Hm & -> & Hlt')]; right.
        -- exists (x, y). split_and!; [apply list_elem_of_here|done..].
        -- exists m. split_and!; [auto|done|by eapply ltb_trans].
    + destruct (PrimFloat.leb beta alpha).
      * injection Hloop as <- <- <-. by left.
      * apply IH in Hloop as [[-> ->]|(m & Hm & -> & Hlt')]; [by left|].
        right. exists m. auto.
Qed.

(** X7: a move is returned only with a score that improved the bound.  When
    a call on a grid returns a move, the score is strictly above the [alpha]
    it was given (maximizing) or strictly below the [beta] (minimizing); and
    a node that is expanded (no table hit, [depth] not 0, no five) and
    returns no move returns the bound itself. *)
Theorem minimax_move_improves_bound (e : engine) (fuel : nat) (depth : Z)
    (alpha beta : float) (maximizing_player : bool) (score : float)
    (mv : option move) (e' : engine) :
  square (eboard e) →
  minimax ZOBRIST_TABLE set_order fuel depth alpha beta maximizing_player e
    = Ok (score, mv, e') →
  (∀ m, mv = Some m →
     (if maximizing_player then PrimFloat.ltb alpha score
      else PrimFloat.ltb score beta) = true) ∧
  (∀ h, zobrist_hash ZOBRIST_TABLE (eboard e) = Some h →
     tt_hit (transposition_table e) h depth = None →
     depth ≠ 0 →
     is_winning_move (eboard e) ai_role = false →
     is_winning_move (eboard e) opponent_role = false →
     mv = None →
     score = (if maximizing_player then alpha else beta)).
Proof.
  intros _ Hcall. destruct fuel as [|fuel]; [done|].
  rewrite minimax_S in Hcall. cbn zeta in Hcall.
  cbn [log eboard transposition_table] in Hcall.
  destruct (zobrist_hash ZOBRIST_TABLE (eboard e)) as [h|]; [|done].
  destruct (tt_hit (transposition_table e) h depth) as [s|] eqn:Hhit.
  { injection Hcall as <- <- <-. split; [done|].
    intros h' [= <-] Hmiss. congruence. }
  unfold expand_node in Hcall.
  destruct (terminal depth _) as [stop e1] eqn:Hterm.
  apply terminal_frame in Hterm as (_ & _ & Hs).
  cbn [log eboard transposition_table] in Hs.
  destruct stop.
  { injection Hcall as <- <- <-. split; [done|].
    intros h' _ _ Hd Hw1 Hw2 _. rewrite Hw1, Hw2 in Hs.
    by rewrite (proj2 (Z.eqb_neq _ _) Hd) in Hs. }
  apply candidates_loop_bound in Hcall as [[-> ->]|(m & _ & -> & Hlt)].
  - split; [done|]. done.
  - split; [by intros ? _|]. done.
Qed.

Lemma adds_static_entries_refl (depth : Z) (t : gmap Z tt_entry) :
  adds_static_entries ZOBRIST_TABLE depth t t.
Proof. intros h entry H. by left. Qed.

Lemma adds_static_entries_trans (d1 d2 d3 : Z) (t1 t2 t3 : gmap Z tt_entry) :
  d1 ≤ d3 → d2 ≤ d3 →
  adds_static_entries ZOBRIST_TABLE d1 t1 t2 → adds_static_entries ZOBRIST_TABLE d2 t2 t3 →
  adds_static_entries ZOBRIST_TABLE d3 t1 t3.
Proof.
  intros Hd1 Hd2 H12 H23 h entry H3.
  destruct (H23 h entry H3) as [H2|[Hs Hd]]; [|right; split; [done|lia]].
  destruct (H12 h entry H2) as [H1|[Hs Hd]]; [by left|].
  right. split; [done|lia].
Qed.

Lemma candidates_loop_static
    (rec : float → float → engine → outcome (float * engine))
    (maximizing_player : bool) (depth : Z) (moves : list move) :
  (∀ alpha beta e1 eval e2, square (eboard e1) →
     rec alpha beta e1 = Ok (eval, e2) →
     eboard e2 = eboard e1 ∧
     adds_static_entries ZOBRIST_TABLE depth (transposition_table e1)
       (transposition_table e2)) →
  ∀ alpha beta best e score mv e',
    square (eboard e) →
    (∀ m, m ∈ moves → candidate (eboard e) m) →
    candidates_loop rec maximizing_player moves alpha beta best e =
      Ok (score, mv, e') →
    adds_static_entries ZOBRIST_TABLE depth (transposition_table e) (transposition_table e').
Proof.
  intros Hrec. induction moves as [|[x y] moves IH];
    intros alpha beta best e score mv e' Hsq Hcand Hloop.
  { injection Hloop as <- <- <-. apply adds_static_entries_refl. }
  cbn [candidates_loop] in Hloop.
  destruct (Hcand (x, y) (list_elem_of_here _ _)) as (Hin & Hz & _).
  cbn [fst snd] in Hin, Hz.
  set (role := if maximizing_player then ai_role else opponent_role) in *.
  destruct (rec alpha beta (place e x y role)) as [[eval e2]| |] eqn:Hcall;
    try done.
  apply Hrec in Hcall as [Hb2 Ht2]; [|by apply square_set_cell].
  cbn [place eboard transposition_table] in Hb2, Ht2.
  assert (eboard (place e2 x y 0) = eboard e) as Hb3.
  { cbn [place eboard]. rewrite Hb2, <- Hz at 1. apply set_cell_restore. }
  assert (∀ a b' bm,
    (if PrimFloat.leb b' a
     then Ok (if maximizing_player then a else b', bm, place e2 x y 0)
     else candidates_loop rec maximizing_player moves a b' bm (place e2 x y 0))
    = Ok (score, mv, e') →
    adds_static_entries ZOBRIST_TABLE depth (transposition_table e) (transposition_table e'))
    as Hrest.
  { intros a b' bm Hr. destruct (PrimFloat.leb b' a).
    - by injection Hr as <- <- <-.
    - apply IH in Hr.
      + eapply (adds_static_entries_trans depth depth depth);
          [lia|lia|exact Ht2|exact Hr].
      + by rewrite Hb3.
      + intros m Hm. rewrite Hb3. by apply Hcand, list_elem_of_further. }
  destruct maximizing_player.
  - destruct (PrimFloat.ltb alpha eval); eapply Hrest; eauto.
  - destruct (PrimFloat.ltb eval beta); eapply Hrest; eauto.
Qed.

Lemma minimax_static (fuel : nat) :
  ∀ depth alpha beta maximizing_player e score mv e',
    square (eboard e) →
    minimax ZOBRIST_TABLE set_order fuel depth alpha beta maximizing_player e
      = Ok (score, mv, e') →
    adds_static_entries ZOBRIST_TABLE depth (transposition_table e) (transposition_table e').
Proof.
  induction fuel as [|fuel IH];
    intros depth alpha beta maxi e score mv e' Hsq Hcall; [done|].
  rewrite minimax_S in Hcall. cbn zeta in Hcall.
  cbn [log eboard transposition_table] in Hcall.
  destruct (zobrist_hash ZOBRIST_TABLE (eboard e)) as [h|] eqn:Hh; [|done].
  destruct (tt_hit (transposition_table e) h depth) as [s|] eqn:Hhit.
  { injection Hcall as <- <- <-. apply adds_static_entries_refl. }
  unfold expand_node in Hcall.
  destruct (terminal depth _) as [stop e1] eqn:Hterm.
  apply terminal_frame in Hterm as (Hb1 & Ht1 & Hs).
  cbn [log eboard transposition_table] in Hb1, Ht1, Hs.
  destruct stop.
  { injection Hcall as <- <- <-. cbn [store log eboard transposition_table].
    rewrite Ht1, Hb1. intros h' entry Hlook.
    destruct (decide (h' = h)) as [->|Hne].
    - rewrite lookup_insert_eq in Hlook. injection Hlook as <-. right.
      split; [|simpl; lia]. exists (eboard e). split_and!; [done..|].
      cbn [snd]. symmetry in Hs. apply orb_true_iff in Hs as [Hd|Hw].
      + left. by apply Z.eqb_eq.
      + right. by apply orb_true_iff in Hw.
    - rewrite lookup_insert_ne in Hlook by done. by left. }
  apply candidates_loop_static with (depth := depth - 1) in Hcall.
  - cbn [log eboard transposition_table] in Hcall. rewrite Ht1 in Hcall.
    eapply (adds_static_entries_trans depth (depth - 1) depth);
      [lia|lia|apply adds_static_entries_refl|exact Hcall].
  - intros a b' e1' eval e2 Hsq1 Hchild. unfold child_call in Hchild.
    destruct (minimax ZOBRIST_TABLE set_order fuel _ _ _ _ e1')
      as [[[ev mv'] e2']| |] eqn:Hrec; try done.
    injection Hchild as <- <-. split.
    + by apply minimax_sound in Hrec as (? & _).
    + by apply IH in Hrec.
  - cbn [log eboard]. by rewrite Hb1.
  - cbn [log eboard]. intros m Hm.
    by apply (elem_of_available_moves set_order set_order_elements).
Qed.

(** X8: the table only ever caches static scores.  Every entry that a call
    to [minimax] on a grid adds to the transposition table, or replaces, is
    the static score ([evaluate_board]) of a grid with that fingerprint,
    stored at depth 0 or for a position with a five, with a depth at most
    the requested one; the value found by searching below a node is never
    stored. *)
Theorem table_holds_static_scores (e : engine) (fuel : nat) (depth : Z)
    (alpha beta : float) (maximizing_player : bool) (score : float)
    (mv : option move) (e' : engine) :
  square (eboard e) →
  minimax ZOBRIST_TABLE set_order fuel depth alpha beta maximizing_player e
    = Ok (score, mv, e') →
  ∀ h s d, transposition_table e' !! h = Some (s, d) →
    transposition_table e !! h = Some (s, d) ∨
    (d ≤ depth ∧
     ∃ p : board,
       square p ∧ zobrist_hash ZOBRIST_TABLE p = Some h ∧
       s = evaluate_board p ∧
       (d = 0 ∨ is_winning_move p ai_role = true
              ∨ is_winning_move p opponent_role = true)).
Proof.
  intros Hsq Hcall h s d Hlook.
  destruct (minimax_static _ _ _ _ _ _ _ _ _ Hsq Hcall h (s, d) Hlook)
    as [Hold|[(p & Hp) Hd]]; [by left|right].
  split; [done|]. by exists p.
Qed.



End SearchResults.

(** ** The nesting of the recursion *)

Section Fuel.

Variable ZOBRIST_TABLE : Z → Z → Z → Z.
Variable set_order : list move → list move.
Hypothesis set_order_elements : set_enumeration set_order.

Lemma candidates_loop_ext
    (rec1 rec2 : float → float → engine → outcome (float * engine))
    (maximizing_player : bool) (moves : list move) :
  (∀ alpha beta e, rec1 alpha beta e ≠ OutOfFuel →
     rec2 alpha beta e = rec1 alpha beta e) →
  ∀ alpha beta best e,
    candidates_loop rec1 maximizing_player moves alpha beta best e
      ≠ OutOfFuel →
    candidates_loop rec2 maximizing_player moves alpha beta best e =
    candidates_loop rec1 maximizing_player moves alpha beta best e.
Proof.
  intros Hrec. induction moves as [|[x y] moves IH];
    intros alpha beta best e Hloop; [done|].
  cbn [candidates_loop] in *.
  set (e1 := place e x y _) in *.
  destruct (rec1 alpha beta e1) as [[eval e2]| |] eqn:H1; [| |done].
  - rewrite Hrec, H1 by congruence.
    destruct maximizing_player.
    + destruct (PrimFloat.ltb alpha eval).
      * destruct (PrimFloat.leb beta eval); [done|by apply IH].
      * destruct (PrimFloat.leb beta alpha); [done|by apply IH].
    + destruct (PrimFloat.ltb eval beta).
      * destruct (PrimFloat.leb eval alpha); [done|by apply IH].
      * destruct (PrimFloat.leb beta alpha); [done|by apply IH].
  - by rewrite Hrec, H1 by congruence.
Qed.

(** A call that did not run out of fuel gives the same result with more. *)
Lemma minimax_fuel_S (fuel : nat) :
  ∀ depth alpha beta maximizing_player e,
    minimax ZOBRIST_TABLE set_order fuel depth alpha beta maximizing_player e
      ≠ OutOfFuel →
    minimax ZOBRIST_TABLE set_order (S fuel) depth alpha beta
      maximizing_player e =
    minimax ZOBRIST_TABLE set_order fuel depth alpha beta maximizing_player e.
Proof.
  induction fuel as [|fuel IH]; intros depth alpha beta maxi e Hcall; [done|].
  rewrite (minimax_S _ _ (S fuel)). rewrite minimax_S in Hcall |- *.
  cbn zeta in *.
  destruct (zobrist_hash ZOBRIST_TABLE _) as [h|]; [|done].
  destruct (tt_hit _ h depth) as [s|]; [done|].
  unfold expand_node in *.
  destruct (terminal depth _) as [[] e1]; [done|].
  apply candidates_loop_ext; [|done].
  intros a b' e2 Hchild. unfold child_call in *.
  rewrite IH; [done|]. intros Hfuel. by rewrite Hfuel in Hchild.
Qed.

Lemma minimax_fuel_mono (fuel fuel' : nat) depth alpha beta maximizing_player e :
  (fuel ≤ fuel')%nat →
  minimax ZOBRIST_TABLE set_order fuel depth alpha beta maximizing_player e
    ≠ OutOfFuel →
  minimax ZOBRIST_TABLE set_order fuel' depth alpha beta maximizing_player e =
  minimax ZOBRIST_TABLE set_order fuel depth alpha beta maximizing_player e.
Proof.
  induction 1 as [|fuel' _ IH]; intros Hcall; [done|].
  rewrite minimax_fuel_S; rewrite IH; done.
Qed.

Lemma candidates_loop_enough
    (rec : float → float → engine → outcome (float * engine))
    (maximizing_player : bool) (b : board) (moves : list move) :
  square b →
  (∀ m, m ∈ moves → candidate b m) →
  (∀ alpha beta x y e1, (x, y) ∈ moves →
     eboard e1 =
       set_cell b x y (if maximizing_player then ai_role else opponent_role) →
     rec alpha beta e1 ≠ OutOfFuel ∧
     ∀ eval e2, rec alpha beta e1 = Ok (eval, e2) → eboard e2 = eboard e1) →
  ∀ alpha beta best e, eboard e = b →
    candidates_loop rec maximizing_player moves alpha beta best e ≠ OutOfFuel.
Proof.
  intros Hsq. induction moves as [|[x y] moves IH];
    intros Hcand Hrec alpha beta best e Hb; [done|].
  cbn [candidates_loop].
  destruct (Hcand (x, y) (list_elem_of_here _ _)) as (Hin & Hz & _).
  cbn [fst snd] in Hin, Hz.
  destruct (Hrec alpha beta x y
              (place e x y
                 (if maximizing_player then ai_role else opponent_role)))
    as [Hfuel Hframe]; [apply list_elem_of_here|by cbn; rewrite Hb|].
  destruct (rec alpha beta _) as [[eval e2]| |]; [|done..].
  specialize (Hframe eval e2 eq_refl). cbn [place eboard] in Hframe.
  assert (eboard (place e2 x y 0) = b) as Hb3.
  { cbn [place eboard]. rewrite Hframe, Hb, <- Hz at 1. apply set_cell_restore. }
  assert (∀ a b' bm,
    (if PrimFloat.leb b' a
     then Ok (if maximizing_player then a else b', bm, place e2 x y 0)
     else candidates_loop rec maximizing_player moves a b' bm (place e2 x y 0))
    ≠ OutOfFuel) as Hrest.
  { intros a b' bm. destruct (PrimFloat.leb b' a); [done|].
    apply IH; [| |done].
    - intros m Hm. by apply Hcand, list_elem_of_further.
    - intros a' b'' x' y' e1 Hm He1.
      apply Hrec with x' y'; [by apply list_elem_of_further|done]. }
  destruct maximizing_player.
  - destruct (PrimFloat.ltb alpha eval); apply Hrest.
  - destruct (PrimFloat.ltb eval beta); apply Hrest.
Qed.

(** The recursion never nests deeper than the grid has empty cells, whatever
    [depth] is: one more unit of fuel is enough on every grid. *)
Lemma minimax_fuel_enough (fuel : nat) :
  ∀ depth alpha beta maximizing_player e,
    square (eboard e) → (empties (eboard e) < fuel)%nat →
    minimax ZOBRIST_TABLE set_order fuel depth alpha beta maximizing_player e
      ≠ OutOfFuel.
Proof.
  induction fuel as [|fuel IH];
    intros depth alpha beta maxi e Hsq Hfuel; [lia|].
  rewrite minimax_S. cbn zeta. cbn [log eboard transposition_table].
  destruct (zobrist_hash ZOBRIST_TABLE (eboard e)) as [h|]; [|done].
  destruct (tt_hit (transposition_table e) h depth) as [s|]; [done|].
  unfold expand_node.
  destruct (terminal depth _) as [stop e1] eqn:Hterm.
  apply terminal_frame in Hterm as (Hb1 & Ht1 & _).
  cbn [log eboard transposition_table] in Hb1, Ht1.
  destruct stop; [done|].
  apply candidates_loop_enough with (eboard e); try done.
  - cbn [log eboard]. rewrite Hb1. intros m Hm.
    by apply (elem_of_available_moves set_order set_order_elements).
  - cbn [log eboard]. rewrite Hb1. intros a b' x y e1' Hm Hb1'.
    apply (elem_of_available_moves set_order set_order_elements) in Hm
      as (Hin & Hz & _). cbn [fst snd] in Hin, Hz.
    assert (square (eboard e1')) as Hsq'
      by (rewrite Hb1'; by apply square_set_cell).
    unfold child_call. split.
    + assert (minimax ZOBRIST_TABLE set_order fuel (depth - 1) a b'
                (negb maxi) e1' ≠ OutOfFuel) as Hne.
      { apply IH; [done|]. rewrite Hb1'.
        pose proof (empties_set_cell (eboard e) x y
                      (if maxi then ai_role else opponent_role) Hsq Hin Hz).
        unfold ai_role, opponent_role in *. destruct maxi; lia. }
      by destruct (minimax ZOBRIST_TABLE set_order fuel _ _ _ _ e1')
        as [[[ev mv] e2]| |].
    + intros eval e2 Hcall.
      destruct (minimax ZOBRIST_TABLE set_order fuel _ _ _ _ e1')
        as [[[ev mv] e2']| |] eqn:Hrec; try done.
      injection Hcall as <- <-.
      by apply (minimax_sound _ _ set_order_elements) in Hrec as (? & _).
Qed.

End Fuel.

(** ** The game loop *)

Lemma list_index_in_range (len : nat) (i : Z) :
  0 ≤ i < Z.of_nat len → list_index len i = Some (Z.to_nat i).
Proof.
  intros Hi. unfold list_index.
  by rewrite (proj2 (Z.leb_le _ _)), (proj2 (Z.ltb_lt _ _)) by lia.
Qed.

Lemma board_row (b : board) (x y : Z) :
  square b → in_bounds b x y = true →
  ∃ row, b !! Z.to_nat x = Some row ∧ length row = length b.
Proof.
  intros Hsq Hin. apply in_bounds_spec in Hin. unfold size in Hin.
  destruct (lookup_lt_is_Some_2 b (Z.to_nat x)) as [row Hrow]; [lia|].
  exists row. split; [done|].
  unfold square in Hsq. rewrite Forall_forall in Hsq.
  eapply Hsq, list_elem_of_lookup_2, Hrow.
Qed.

(** Inside the grid, the reads and writes of the game are those of the
    engines. *)
Lemma board_item_get (b : board) (x y : Z) :
  square b → in_bounds b x y = true → board_item b x y = Some (get b x y).
Proof.
  intros Hsq Hin. destruct (board_row b x y Hsq Hin) as (row & Hrow & Hlen).
  apply in_bounds_spec in Hin. unfold size in Hin.
  unfold board_item, get.
  rewrite list_index_in_range by lia. cbn [mbind option_bind].
  rewrite Hrow. cbn [mbind option_bind].
  rewrite list_index_in_range by lia. cbn [mbind option_bind].
  destruct (lookup_lt_is_Some_2 row (Z.to_nat y)) as [c Hc]; [lia|].
  by rewrite Hc.
Qed.

Lemma board_setitem_set_cell (b : board) (x y v : Z) :
  square b → in_bounds b x y = true →
  board_setitem b x y v = Some (set_cell b x y v).
Proof.
  intros Hsq Hin. destruct (board_row b x y Hsq Hin) as (row & Hrow & Hlen).
  apply in_bounds_spec in Hin. unfold size in Hin.
  unfold board_setitem, set_cell.
  rewrite list_index_in_range by lia. cbn [mbind option_bind].
  rewrite Hrow. cbn [mbind option_bind].
  rewrite list_index_in_range by lia. cbn [mbind option_bind].
  f_equal. apply list_eq. intros i.
  destruct (decide (i = Z.to_nat x)) as [->|Hne].
  - rewrite list_lookup_insert_eq by lia.
    by rewrite list_lookup_alter_eq, Hrow.
  - by rewrite list_lookup_insert_ne, list_lookup_alter_ne.
Qed.

(** X9: what [display_board] does with a move.  Without a move it raises
    TypeError.  For a cell of the grid it raises ValueError when the cell is
    occupied, and otherwise writes the current role on that cell and changes
    nothing else.  The index is a Python index: a negative row or column
    counts from the end, and one outside the lists raises IndexError. *)
Theorem display_board_move (g : game) (x y : Z) :
  square (game_board g) →
  display_board g None = inl Py.TypeError ∧
  (in_bounds (game_board g) x y = true →
   display_board g (Some (x, y)) =
     if get (game_board g) x y =? 0
     then inr (Game (game_size g)
                 (set_cell (game_board g) x y (current_role g))
                 (game_depth g) (ai1_table g) (ai2_table g) (current_role g)
                 (round_number g) (first_move_initialised g))
     else inl Py.ValueError) ∧
  (in_bounds (game_board g) (size (game_board g) + x)
     (size (game_board g) + y) = true →
   display_board g (Some (x, y)) =
   display_board g (Some (size (game_board g) + x, size (game_board g) + y))) ∧
  (x < - size (game_board g) ∨ size (game_board g) ≤ x
   ∨ y < - size (game_board g) ∨ size (game_board g) ≤ y →
   display_board g (Some (x, y)) = inl Py.IndexError).
Proof.
  intros Hsq. split_and!.
  - done.
  - intros Hin. unfold display_board.
    rewrite board_item_get, board_setitem_set_cell by done. done.
  - intros Hin. 
    destruct (board_row _ _ _ Hsq Hin) as (row & Hrow & Hlen).
    apply in_bounds_spec in Hin. unfold size in *.
    assert (∀ len i, 0 ≤ Z.of_nat len + i < Z.of_nat len →
              list_index len i = list_index len (Z.of_nat len + i)) as Hidx.
    { intros len i Hi. rewrite (list_index_in_range _ (_ + _)) by done.
      unfold list_index.
      rewrite (proj2 (Z.leb_gt _ _)) by lia. cbn [andb].
      by rewrite (proj2 (Z.leb_le _ _)), (proj2 (Z.ltb_lt _ _)) by lia. }
    unfold display_board, board_item, board_setitem.
    rewrite !(Hidx (length (game_board g)) x) by lia.
    rewrite !list_index_in_range by lia. cbn [mbind option_bind].
    rewrite Hrow. cbn [mbind option_bind].
    rewrite !(Hidx (length row) y) by lia. rewrite Hlen. done.
  - intros Hout. unfold display_board, board_item.
    unfold size in Hout.
    destruct (list_index (length (game_board g)) x) as [i|] eqn:Hi;
      cbn [mbind option_bind]; [|done].
    destruct (game_board g !! i) as [row|] eqn:Hrow; cbn [mbind option_bind];
      [|done].
    assert (length row = length (game_board g)) as Hlen.
    { unfold square in Hsq. rewrite Forall_forall in Hsq.
      eapply Hsq, list_elem_of_lookup_2, Hrow. }
    assert (list_index (length row) y = None) as ->; [|done].
    unfold list_index in *. rewrite Hlen.
    destruct (Z.leb_spec 0 x), (Z.ltb_spec x (Z.of_nat (length (game_board g)))),
      (Z.leb_spec (- Z.of_nat (length (game_board g))) x), (Z.ltb_spec x 0);
      cbn [andb] in Hi; try done;
    destruct (Z.leb_spec 0 y), (Z.ltb_spec y (Z.of_nat (length (game_board g)))),
      (Z.leb_spec (- Z.of_nat (length (game_board g))) y), (Z.ltb_spec y 0);
      cbn [andb]; try done; lia.
Qed.

Lemma consistent_role (g : game) :
  consistent g → 0 ≤ current_role g ≤ 2 ∧ current_role g ≠ 0.
Proof. intros (_ & _ & [-> | ->]); unfold ai1_role, ai2_role; lia. Qed.

Section GameLoop.

Variable ZOBRIST_TABLE : Z → Z → Z → Z.
Variable set_order : list move → list move.
Hypothesis set_order_elements : set_enumeration set_order.

Lemma search_sound (g : game) (table : gmap Z tt_entry) :
  square (game_board g) →
  match search ZOBRIST_TABLE set_order g table with
  | Ok (_, mv, e) =>
      eboard e = game_board g ∧ tt_mono table (transposition_table e) ∧
      ∀ m, mv = Some m → candidate (game_board g) m
  | IndexError => ¬ board_in_table (game_board g)
  | OutOfFuel => False
  end.
Proof.
  intros Hsq. unfold search.
  destruct (minimax _ _ _ _ _ _ _ _) as [[[s mv] e]| |] eqn:Hcall.
  - by apply (minimax_sound _ _ set_order_elements) in Hcall.
  - intros Htab.
    destruct (minimax_returns ZOBRIST_TABLE set_order set_order_elements
                (S (empties (game_board g))) (game_depth g) neg_infinity
                infinity true (Engine (game_board g) table []))
      as [r Hr]; [done|done|simpl; lia|]. congruence.
  - revert Hcall.
    apply (minimax_fuel_enough _ _ set_order_elements); [done|simpl; lia].
Qed.

Lemma choose_move_cases (g : game) :
  consistent g →
  match choose_move ZOBRIST_TABLE set_order g with
  | Ok (mv, g1) =>
      game_board g1 = game_board g ∧ game_size g1 = game_size g ∧
      game_depth g1 = game_depth g ∧ current_role g1 = current_role g ∧
      round_number g1 = round_number g ∧ first_move_initialised g1 = true ∧
      if first_move_initialised g then
        (∀ m, mv = Some m → candidate (game_board g) m) ∧
        if current_role g =? ai1_role
        then tt_mono (ai1_table g) (ai1_table g1) ∧ ai2_table g1 = ai2_table g
        else ai1_table g1 = ai1_table g ∧ tt_mono (ai2_table g) (ai2_table g1)
      else
        mv = Some (centre g) ∧
        ai1_table g1 = ai1_table g ∧ ai2_table g1 = ai2_table g
  | IndexError =>
      first_move_initialised g = true ∧ ¬ board_in_table (game_board g)
  | OutOfFuel => False
  end.
Proof.
  intros (Hsq & Hsize & Hrole). unfold choose_move.
  destruct (first_move_initialised g) eqn:Hfirst; cbn [negb]; [|by cbn].
  destruct (Z.eqb_spec (current_role g) ai1_role) as [Hr|Hr].
  - pose proof (search_sound g (ai1_table g) Hsq) as Hs.
    destruct (search ZOBRIST_TABLE set_order g (ai1_table g))
      as [[[s mv] e]| |]; [|done..].
    destruct Hs as (Hb & Hmono & Hmv). by cbn.
  - pose proof (search_sound g (ai2_table g) Hsq) as Hs.
    destruct (search ZOBRIST_TABLE set_order g (ai2_table g))
      as [[[s mv] e]| |]; [|done..].
    destruct Hs as (Hb & Hmono & Hmv). by cbn.
Qed.

Lemma end_round_cases (g : game) (x y : Z) :
  square (game_board g) → in_bounds (game_board g) x y = true →
  match end_round g (Some (x, y)) with
  | Wins g' =>
      get (game_board g) x y = 0 ∧
      g' = Game (game_size g) (set_cell (game_board g) x y (current_role g))
             (game_depth g) (ai1_table g) (ai2_table g) (current_role g)
             (round_number g) (first_move_initialised g) ∧
      is_winning_move (game_board g') (current_role g) = true
  | Next g' =>
      get (game_board g) x y = 0 ∧
      g' = Game (game_size g) (set_cell (game_board g) x y (current_role g))
             (game_depth g) (ai1_table g) (ai2_table g)
             (other_role (current_role g)) (round_number g + 1)
             (first_move_initialised g) ∧
      is_winning_move (game_board g') (current_role g) = false
  | Raises ex => ex = Py.ValueError ∧ get (game_board g) x y ≠ 0
  | SearchOutOfFuel => False
  end.
Proof.
  intros Hsq Hin. unfold end_round, display_board.
  rewrite board_item_get, board_setitem_set_cell by done.
  destruct (Z.eqb_spec (get (game_board g) x y) 0) as [Hz|Hnz]; [|done].
  cbn [game_board current_role game_size game_depth ai1_table ai2_table
       round_number first_move_initialised].
  by destruct (is_winning_move _ (current_role g)) eqn:Hwin.
Qed.

(** The rounds of [play], one by one. *)
Lemma play_round_cases (g : game) :
  consistent g →
  match play_round ZOBRIST_TABLE set_order g with
  | Wins g' =>
      (∃ x y, round_adds_stone g g' x y) ∧
      current_role g' = current_role g ∧ round_number g' = round_number g ∧
      is_winning_move (game_board g') (current_role g) = true
  | Next g' =>
      (∃ x y, round_adds_stone g g' x y) ∧
      current_role g' = other_role (current_role g) ∧
      round_number g' = round_number g + 1 ∧
      is_winning_move (game_board g') (current_role g) = false
  | Raises Py.TypeError => first_move_initialised g = true
  | Raises Py.ValueError =>
      first_move_initialised g = false ∧
      in_bounds (game_board g) (centre g).1 (centre g).2 = true ∧
      get (game_board g) (centre g).1 (centre g).2 ≠ 0
  | Raises Py.IndexError =>
      (first_move_initialised g = false ∧ size (game_board g) = 0) ∨
      (first_move_initialised g = true ∧ ¬ board_in_table (game_board g))
  | Raises Py.ZeroDivisionError => False
  | SearchOutOfFuel => False
  end.
Proof.
  intros Hg. pose proof (choose_move_cases g Hg) as Hchoose.
  destruct Hg as (Hsq & Hsize & Hrole). unfold play_round.
  destruct (choose_move ZOBRIST_TABLE set_order g) as [[mv g1]| |];
    [|by right|done].
  destruct Hchoose as (Hb1 & Hs1 & Hd1 & Hr1 & Hn1 & Hf1 & Hmv).
  assert (∀ x y, mv = Some (x, y) → in_bounds (game_board g) x y = true →
    (if first_move_initialised g
     then candidate (game_board g) (x, y) else (x, y) = centre g) →
    match end_round g1 mv with
    | Wins g' =>
        (∃ x y, round_adds_stone g g' x y) ∧
        current_role g' = current_role g ∧ round_number g' = round_number g ∧
        is_winning_move (game_board g') (current_role g) = true
    | Next g' =>
        (∃ x y, round_adds_stone g g' x y) ∧
        current_role g' = other_role (current_role g) ∧
        round_number g' = round_number g + 1 ∧
        is_winning_move (game_board g') (current_role g) = false
    | Raises ex =>
        ex = Py.ValueError ∧ get (game_board g) x y ≠ 0
    | SearchOutOfFuel => False
    end) as Hend.
  { intros x y -> Hin Hxy.
    pose proof (end_round_cases g1 x y) as Hend.
    rewrite Hb1, Hr1, Hn1 in Hend. specialize (Hend Hsq Hin).
    destruct (end_round g1 (Some (x, y))) as [g'|g'|ex|]; [| |done..].
    - destruct Hend as (Hz & -> & Hwin). cbn in Hwin |- *.
      split_and!; try done. exists x, y. unfold round_adds_stone. cbn.
      rewrite Hs1, Hd1, Hf1. split_and!; try done.
      destruct (first_move_initialised g); [|by destruct Hmv as (_ & ? & ?)].
      by destruct Hmv as [_ Hmv].
    - destruct Hend as (Hz & -> & Hwin). cbn in Hwin |- *.
      split_and!; try done. exists x, y. unfold round_adds_stone. cbn.
      rewrite Hs1, Hd1, Hf1. split_and!; try done.
      destruct (first_move_initialised g); [|by destruct Hmv as (_ & ? & ?)].
      by destruct Hmv as [_ Hmv]. }
  destruct (first_move_initialised g) eqn:Hfirst.
  - destruct Hmv as [Hcand Htab]. destruct mv as [[x y]|]; [|done].
    destruct (Hcand _ eq_refl) as (Hin & Hz & Hnear). cbn [fst snd] in Hin, Hz.
    specialize (Hend x y eq_refl Hin (Hcand _ eq_refl)).
    destruct (end_round g1 (Some (x, y))) as [g'|g'|ex|]; try done.
    by destruct Hend as [_ Hnz].
  - destruct Hmv as (-> & Ht1 & Ht2). unfold centre in *. cbn [fst snd].
    destruct (decide (size (game_board g) = 0)) as [Hzero|Hpos].
    + unfold end_round, display_board, board_item. rewrite Hb1, Hsize.
      unfold size in *. destruct (game_board g); [|done]. cbn. by left.
    + assert (in_bounds (game_board g) (game_size g / 2) (game_size g / 2)
                = true) as Hin.
      { apply in_bounds_spec. rewrite Hsize.
        assert (0 < size (game_board g)) by (unfold size in *; lia).
        split; (split; [apply Z.div_pos; lia|apply Z.div_lt_upper_bound; lia]). }
      specialize (Hend _ _ eq_refl Hin eq_refl).
      destruct (end_round g1 _) as [g'|g'|ex|]; try done.
      by destruct Hend as [-> Hnz].
Qed.

Lemma round_adds_stone_consistent (g g' : game) (x y : Z) (role : Z) :
  consistent g → round_adds_stone g g' x y →
  role = ai1_role ∨ role = ai2_role → current_role g' = role →
  consistent g'.
Proof.
  intros (Hsq & Hsize & _) (Hin & Hz & Hb & Hs & _) Hrole Hr.
  split_and!.
  - rewrite Hb. by apply square_set_cell.
  - by rewrite Hs, Hb, size_set_cell.
  - by rewrite Hr.
Qed.

Lemma other_role_cases (role : Z) :
  other_role role = ai1_role ∨ other_role role = ai2_role.
Proof. unfold other_role. destruct (role =? ai1_role); auto. Qed.

Lemma play_round_consistent (g g' : game) :
  consistent g →
  play_round ZOBRIST_TABLE set_order g = Next g' ∨
  play_round ZOBRIST_TABLE set_order g = Wins g' →
  consistent g'.
Proof.
  intros Hg Hround. pose proof (play_round_cases g Hg) as Hcases.
  destruct Hround as [Hround|Hround]; rewrite Hround in Hcases;
    destruct Hcases as ((x & y & Hadd) & Hr & _).
  - apply (round_adds_stone_consistent g g' x y (other_role (current_role g)));
      [done|done|apply other_role_cases|done].
  - apply (round_adds_stone_consistent g g' x y (current_role g));
      [done|done|by destruct Hg as (_ & _ & ?)|done].
Qed.

(** X10: a round of [play] that completes adds exactly one stone.  In a game
    on a grid, a round that does not raise writes the current role on one
    cell of the grid that was empty and leaves every other cell as it was,
    searches included; in the first round the cell is the centre and no
    engine is called, later it is a candidate cell and only the table of the
    engine of the current role changes.  When the stone makes a five of the
    current role the loop ends, otherwise the role passes to the other
    player and the round number goes up by one. *)
Theorem play_round_adds_one_stone (g g' : game) :
  consistent g →
  play_round ZOBRIST_TABLE set_order g = Next g' ∨
  play_round ZOBRIST_TABLE set_order g = Wins g' →
  (∃ x y,
     round_adds_stone g g' x y ∧
     get (game_board g') x y = current_role g ∧
     ∀ x' y', in_bounds (game_board g) x' y' = true → (x', y') ≠ (x, y) →
       get (game_board g') x' y' = get (game_board g) x' y') ∧
  (play_round ZOBRIST_TABLE set_order g = Next g' →
   current_role g' = other_role (current_role g) ∧
   round_number g' = round_number g + 1 ∧
   is_winning_move (game_board g') (current_role g) = false) ∧
  (play_round ZOBRIST_TABLE set_order g = Wins g' →
   current_role g' = current_role g ∧
   round_number g' = round_number g ∧
   is_winning_move (game_board g') (current_role g) = true).
Proof.
  intros Hg Hround. pose proof (play_round_cases g Hg) as Hcases.
  assert (∃ x y, round_adds_stone g g' x y) as (x & y & Hadd).
  { destruct Hround as [Hround|Hround]; rewrite Hround in Hcases;
      by destruct Hcases as [? _]. }
  split_and!.
  - exists x, y. split; [done|].
    destruct Hg as (Hsq & _). destruct Hadd as (Hin & Hz & Hb & _).
    rewrite Hb. split; [by apply get_set_cell_same|].
    intros x' y' Hin' Hne. pose proof (proj1 (in_bounds_spec _ _ _) Hin').
    rewrite get_set_cell by (done || lia).
    rewrite decide_False; [done|]. intros [-> ->]. done.
  - intros Hnext. rewrite Hnext in Hcases. by destruct Hcases as (_ & ? & ? & ?).
  - intros Hwins. rewrite Hwins in Hcases. by destruct Hcases as (_ & ? & ? & ?).
Qed.

Lemma play_S (rounds : nat) (g : game) :
  play ZOBRIST_TABLE set_order (S rounds) g =
  match play_round ZOBRIST_TABLE set_order g with
  | Wins g =>
      if round_number g =? 0 then Raised Py.ZeroDivisionError else Won g
  | Next g => play ZOBRIST_TABLE set_order rounds g
  | Raises ex => Raised ex
  | SearchOutOfFuel => Unfinished
  end.
Proof. done. Qed.

Lemma play_ends_within (k : nat) :
  ∀ g, consistent g → (empties (game_board g) ≤ k)%nat →
    ∃ r, r ≠ Unfinished ∧
         ∀ n, (k < n)%nat → play ZOBRIST_TABLE set_order n g = r.
Proof.
  induction k as [|k IH]; intros g Hg Hk.
  - pose proof (play_round_cases g Hg) as Hcases.
    destruct (play_round ZOBRIST_TABLE set_order g) as [g'|g'|ex|] eqn:Hround;
      [| |exists (Raised ex)|done].
    + exists (if round_number g' =? 0 then Raised Py.ZeroDivisionError
              else Won g').
      split; [by destruct (round_number g' =? 0)|].
      intros [|n] Hn; [lia|]. by rewrite play_S, Hround.
    + exfalso. destruct Hcases as ((x & y & Hin & Hz & Hb & _) & Hr & _).
      destruct (consistent_role g Hg) as [_ Hne]. destruct Hg as (Hsq & _).
      pose proof (empties_set_cell (game_board g) x y (current_role g)
                    Hsq Hin Hz Hne) as Hlt.
      lia.
    + split; [done|]. intros [|n] Hn; [lia|]. by rewrite play_S, Hround.
  - pose proof (play_round_cases g Hg) as Hcases.
    destruct (play_round ZOBRIST_TABLE set_order g) as [g'|g'|ex|] eqn:Hround;
      [| |exists (Raised ex)|done].
    + exists (if round_number g' =? 0 then Raised Py.ZeroDivisionError
              else Won g').
      split; [by destruct (round_number g' =? 0)|].
      intros [|n] Hn; [lia|]. by rewrite play_S, Hround.
    + assert (consistent g') as Hg' by (eapply play_round_consistent; eauto).
      destruct Hcases as ((x & y & Hin & Hz & Hb & _) & Hr & _).
      destruct (IH g' Hg') as (r & Hr' & Hplay).
      { destruct (consistent_role g Hg) as [_ Hne]. destruct Hg as (Hsq & _).
        pose proof (empties_set_cell (game_board g) x y (current_role g)
                      Hsq Hin Hz Hne) as Hlt.
        rewrite Hb. lia. }
      exists r. split; [done|]. intros [|n] Hn; [lia|].
      rewrite play_S, Hround. apply Hplay. lia.
    + split; [done|]. intros [|n] Hn; [lia|]. by rewrite play_S, Hround.
Qed.

(** X11: the loop of [play] always ends.  A game on a grid ends after at
    most as many rounds as the board has empty cells, plus one: with a
    winner or with an exception, the same whatever the number of rounds
    allowed beyond that; no search in it runs out of fuel. *)
Theorem play_ends (g : game) :
  consistent g →
  ∃ r, r ≠ Unfinished ∧
       ∀ n, (empties (game_board g) < n)%nat →
         play ZOBRIST_TABLE set_order n g = r.
Proof. intros Hg. by apply play_ends_within. Qed.

Lemma role_neq_other (role : Z) : other_role role ≠ role.
Proof.
  unfold other_role, ai1_role, ai2_role.
  destruct (Z.eqb_spec role 1); lia.
Qed.

Lemma play_winner_from (n : nat) :
  ∀ g g', consistent g →
    is_winning_move (game_board g) ai1_role = false →
    is_winning_move (game_board g) ai2_role = false →
    play ZOBRIST_TABLE set_order n g = Won g' →
    consistent g' ∧
    is_winning_move (game_board g') (current_role g') = true ∧
    is_winning_move (game_board g') (other_role (current_role g')) = false.
Proof.
  induction n as [|n IH]; intros g g' Hg Hw1 Hw2 Hplay; [done|].
  rewrite play_S in Hplay. pose proof (play_round_cases g Hg) as Hcases.
  assert (∀ g1 x y, round_adds_stone g g1 x y →
    is_winning_move (game_board g1) (other_role (current_role g)) = false)
    as Hother.
  { intros g1 x y (Hin & Hz & -> & _). destruct Hg as (Hsq & _ & Hrole).
    pose proof (role_neq_other (current_role g)).
    rewrite is_winning_move_other_stone; [|done|done| |done].
    - unfold other_role. destruct Hrole as [-> | ->]; by cbn.
    - rewrite Hz. destruct (other_role_cases (current_role g)) as [-> | ->];
        done. }
  destruct (play_round ZOBRIST_TABLE set_order g) as [g1|g1|ex|] eqn:Hround;
    try done.
  - destruct (round_number g1 =? 0); [done|]. injection Hplay as <-.
    destruct Hcases as ((x & y & Hadd) & Hr & _ & Hwin). rewrite Hr.
    split_and!; [|done|by apply (Hother g1 x y)].
    eapply play_round_consistent; eauto.
  - assert (consistent g1) as Hg1 by (eapply play_round_consistent; eauto).
    destruct Hcases as ((x & y & Hadd) & Hr & _ & Hwin).
    pose proof (Hother g1 x y Hadd) as Hwin'.
    destruct Hg as (_ & _ & Hrole).
    apply (IH g1 g' Hg1); [| |done];
      destruct Hrole as [Hc|Hc]; rewrite Hc in Hwin, Hwin'; by cbn in *.
Qed.

(** X12: the winner has five in a row and the other player has not.  In a
    game on a grid where neither player has a five at the start, a game that
    ends with a winner ends with a five of the player who moved last, whose
    role is the current one, and with no five of the other player. *)
Theorem play_winner_has_five (n : nat) (g g' : game) :
  consistent g →
  ¬ has_five (game_board g) ai1_role → ¬ has_five (game_board g) ai2_role →
  play ZOBRIST_TABLE set_order n g = Won g' →
  has_five (game_board g') (current_role g') ∧
  ¬ has_five (game_board g') (other_role (current_role g')) ∧
  (current_role g' = ai1_role ∨ current_role g' = ai2_role).
Proof.
  intros Hg Hw1 Hw2 Hplay. rewrite <- !is_winning_move_spec in *.
  apply not_true_is_false in Hw1, Hw2.
  destruct (play_winner_from n g g' Hg Hw1 Hw2 Hplay)
    as ((_ & _ & Hrole) & Hwin & Hlose).
  split_and!; [done| |done]. by rewrite Hlose.
Qed.

Lemma play_raises_from (n : nat) :
  ∀ g ex, consistent g →
    play ZOBRIST_TABLE set_order n g = Raised ex →
    (ex = Py.ValueError →
     first_move_initialised g = false ∧
     in_bounds (game_board g) (centre g).1 (centre g).2 = true ∧
     get (game_board g) (centre g).1 (centre g).2 ≠ 0) ∧
    (ex = Py.IndexError →
     (first_move_initialised g = false ∧ size (game_board g) = 0) ∨
     ¬ board_in_table (game_board g)) ∧
    (ex = Py.ZeroDivisionError → round_number g ≤ 0).
Proof.
  induction n as [|n IH]; intros g ex Hg Hplay; [done|].
  rewrite play_S in Hplay. pose proof (play_round_cases g Hg) as Hcases.
  destruct (play_round ZOBRIST_TABLE set_order g) as [g1|g1|ex1|] eqn:Hround;
    try done.
  - destruct Hcases as (_ & _ & Hnum & _).
    destruct (Z.eqb_spec (round_number g1) 0) as [Hzero|_]; [|done].
    injection Hplay as <-. split_and!; [done..|]. intros _. lia.
  - assert (consistent g1) as Hg1 by (eapply play_round_consistent; eauto).
    destruct Hcases
      as ((x & y & Hin & Hz & Hb & _ & _ & Hf & _) & _ & Hnum & _).
    destruct (IH g1 ex Hg1 Hplay) as (Hv & Hl & Hzd). split_and!.
    + intros Hex. destruct (Hv Hex) as [Hf1 _]. congruence.
    + intros Hex. destruct (Hl Hex) as [[Hf1 _]|Hnot]; [congruence|].
      right. intros Htab. apply Hnot. rewrite Hb.
      destruct (consistent_role g Hg) as [Hrange _]. destruct Hg as (Hsq & _).
      by apply board_in_table_set_cell.
    + intros Hex. specialize (Hzd Hex). lia.
  - injection Hplay as <-. destruct ex1.
    + done.
    + split_and!; done.
    + split_and!; [done| |done]. intros _. destruct Hcases as [?|[_ ?]]; auto.
    + done.
Qed.

(** X13: the exceptions a game can end with.  In a game on a grid,
    ValueError ("Error move not possible") is only raised in the first
    round, when the centre is occupied: a searched move is never refused.
    IndexError is only raised for a board without rows in the first round,
    or for a board that the Zobrist table does not cover.
    ZeroDivisionError, of the average time per round printed after the
    loop, is only raised for a game that began with a round number of 0 or
    less and is won when the number is 0.  Every other game that ends
    without a winner ends with the TypeError of unpacking the missing
    move. *)
Theorem play_raises (n : nat) (g : game) (ex : Py.exception) :
  consistent g →
  play ZOBRIST_TABLE set_order n g = Raised ex →
  (ex = Py.ValueError →
   first_move_initialised g = false ∧
   in_bounds (game_board g) (centre g).1 (centre g).2 = true ∧
   get (game_board g) (centre g).1 (centre g).2 ≠ 0) ∧
  (ex = Py.IndexError →
   (first_move_initialised g = false ∧ size (game_board g) = 0) ∨
   ¬ board_in_table (game_board g)) ∧
  (ex = Py.ZeroDivisionError → round_number g ≤ 0) ∧
  (board_in_table (game_board g) →
   first_move_initialised g = true ∨
   (0 < size (game_board g) ∧
    get (game_board g) (centre g).1 (centre g).2 = 0) →
   0 < round_number g →
   ex = Py.TypeError).
Proof.
  intros Hg Hplay.
  destruct (play_raises_from n g ex Hg Hplay) as (Hv & Hl & Hzd).
  split_and!; [done..|]. intros Htab Hfirst Hnum. destruct ex; [done| | |].
  - destruct (Hv eq_refl) as (Hf & _ & Hocc).
    destruct Hfirst as [?|[_ ?]]; congruence.
  - destruct (Hl eq_refl) as [[Hf Hs]|?]; [|done].
    destruct Hfirst as [?|[? _]]; [congruence|lia].
  - specialize (Hzd eq_refl). lia.
Qed.

(** X14: a game with no candidate move is not a draw: it raises.  After the
    first round, on a grid the Zobrist table covers where no empty cell lies
    within distance 2 of a stone (so on a full board), the round raises
    TypeError: the search names no move and [display_board] unpacks it. *)
Theorem play_without_candidates (n : nat) (g : game) :
  consistent g → board_in_table (game_board g) →
  first_move_initialised g = true →
  ((∀ m, ¬ candidate (game_board g) m) →
   play ZOBRIST_TABLE set_order (S n) g = Raised Py.TypeError) ∧
  ((∀ x y, in_bounds (game_board g) x y = true →
      get (game_board g) x y ≠ 0) →
   play ZOBRIST_TABLE set_order (S n) g = Raised Py.TypeError).
Proof.
  intros Hg Htab Hfirst.
  assert ((∀ m, ¬ candidate (game_board g) m) →
          play ZOBRIST_TABLE set_order (S n) g = Raised Py.TypeError) as Hnone.
  { intros Hnone. rewrite play_S.
    pose proof (play_round_cases g Hg) as Hcases.
    destruct (play_round ZOBRIST_TABLE set_order g) as [g1|g1|ex|];
      [| | |done].
    - destruct Hcases as ((x & y & Hadd) & _). exfalso.
      destruct Hadd as (_ & _ & _ & _ & _ & _ & Hc). rewrite Hfirst in Hc.
      destruct Hc as [Hc _]. by apply (Hnone (x, y)).
    - destruct Hcases as ((x & y & Hadd) & _). exfalso.
      destruct Hadd as (_ & _ & _ & _ & _ & _ & Hc). rewrite Hfirst in Hc.
      destruct Hc as [Hc _]. by apply (Hnone (x, y)).
    - destruct ex; [done| | |done].
      + destruct Hcases as [? _]. congruence.
      + destruct Hcases as [[? _]|[_ ?]]; [congruence|done]. }
  split; [done|]. intros Hfull. apply Hnone.
  intros m (Hin & Hz & _). by apply (Hfull _ _ Hin).
Qed.

Lemma play_keeps_stones_from (n : nat) :
  ∀ g g', consistent g →
    play ZOBRIST_TABLE set_order n g = Won g' →
    size (game_board g') = size (game_board g) ∧
    (∀ x y, in_bounds (game_board g) x y = true →
       get (game_board g') x y = get (game_board g) x y ∨
       (get (game_board g) x y = 0 ∧
        (get (game_board g') x y = ai1_role ∨
         get (game_board g') x y = ai2_role))) ∧
    Z.of_nat (empties (game_board g)) =
      Z.of_nat (empties (game_board g')) +
      (round_number g' - round_number g + 1).
Proof.
  induction n as [|n IH]; intros g g' Hg Hplay; [done|].
  rewrite play_S in Hplay. pose proof (play_round_cases g Hg) as Hcases.
  assert (∀ g1 x y, round_adds_stone g g1 x y →
    size (game_board g1) = size (game_board g) ∧
    (∀ x' y', in_bounds (game_board g) x' y' = true →
       get (game_board g1) x' y' = get (game_board g) x' y' ∨
       (get (game_board g) x' y' = 0 ∧
        (get (game_board g1) x' y' = ai1_role ∨
         get (game_board g1) x' y' = ai2_role))) ∧
    empties (game_board g) = S (empties (game_board g1))) as Hstep.
  { intros g1 x y (Hin & Hz & -> & _).
    destruct (consistent_role g Hg) as [_ Hne].
    destruct Hg as (Hsq & _ & Hrole). split_and!.
    - apply size_set_cell.
    - intros x' y' Hin'. pose proof (proj1 (in_bounds_spec _ _ _) Hin').
      rewrite get_set_cell by (done || lia).
      case_decide as Hc; [|by left]. destruct Hc as [-> ->]. by right.
    - by apply empties_set_cell_S. }
  destruct (play_round ZOBRIST_TABLE set_order g) as [g1|g1|ex|] eqn:Hround;
    try done.
  - destruct (round_number g1 =? 0); [done|]. injection Hplay as <-.
    destruct Hcases as ((x & y & Hadd) & _ & Hn & _).
    destruct (Hstep g1 x y Hadd) as (Hs & Hc & He).
    split_and!; [done..|]. rewrite Hn, He. lia.
  - assert (consistent g1) as Hg1 by (eapply play_round_consistent; eauto).
    destruct Hcases as ((x & y & Hadd) & _ & Hn & _).
    destruct (Hstep g1 x y Hadd) as (Hs & Hc & He).
    destruct (IH g1 g' Hg1 Hplay) as (Hs' & Hc' & He').
    split_and!.
    + congruence.
    + intros x' y' Hin'.
      assert (in_bounds (game_board g1) x' y' = true) as Hin1.
      { unfold in_bounds in *. by rewrite Hs. }
      destruct (Hc x' y' Hin') as [Heq|[Hz Hnew]].
      * rewrite <- Heq. apply Hc', Hin1.
      * destruct (Hc' x' y' Hin1) as [Heq'|[Hz' _]].
        -- right. split; [done|]. by rewrite Heq'.
        -- exfalso. unfold ai1_role, ai2_role in Hnew. lia.
    + rewrite He, Hn in *. lia.
Qed.

(** X15: the game only adds stones, one per round.  In a game on a grid
    that ends with a winner, every stone of the starting board is still in
    place, every other cell is empty or holds a stone of one of the two
    players, and the board has lost as many empty cells as rounds were
    played: the difference of the round numbers plus one. *)
Theorem play_keeps_stones (n : nat) (g g' : game) :
  consistent g →
  play ZOBRIST_TABLE set_order n g = Won g' →
  size (game_board g') = size (game_board g) ∧
  (∀ x y, in_bounds (game_board g) x y = true →
     get (game_board g) x y ≠ 0 →
     get (game_board g') x y = get (game_board g) x y) ∧
  (∀ x y, in_bounds (game_board g) x y = true →
     get (game_board g) x y = 0 →
     get (game_board g') x y = 0 ∨ get (game_board g') x y = ai1_role
     ∨ get (game_board g') x y = ai2_role) ∧
  Z.of_nat (empties (game_board g)) =
    Z.of_nat (empties (game_board g')) +
    (round_number g' - round_number g + 1).
Proof.
  intros Hg Hplay.
  destruct (play_keeps_stones_from n g g' Hg Hplay) as (Hs & Hc & He).
  split_and!; [done| | |done].
  - intros x y Hin Hocc. destruct (Hc x y Hin) as [?|[? _]]; done.
  - intros x y Hin Hz. destruct (Hc x y Hin) as [Heq|[_ [?|?]]]; auto.
    left. congruence.
Qed.

Lemma minimax_terminal_no_move (fuel : nat) (depth : Z) (alpha beta : float)
    (maximizing_player : bool) (e : engine) (score : float)
    (mv : option move) (e' : engine) :
  depth = 0 ∨ is_winning_move (eboard e) ai_role = true
            ∨ is_winning_move (eboard e) opponent_role = true →
  minimax ZOBRIST_TABLE set_order fuel depth alpha beta maximizing_player e
    = Ok (score, mv, e') →
  mv = None.
Proof.
  intros Hstop Hcall. destruct fuel as [|fuel]; [done|].
  rewrite minimax_S in Hcall. cbn zeta in Hcall.
  cbn [log eboard transposition_table] in Hcall.
  destruct (zobrist_hash ZOBRIST_TABLE (eboard e)) as [h|]; [|done].
  destruct (tt_hit (transposition_table e) h depth) as [s|].
  { by injection Hcall as <- <- <-. }
  unfold expand_node in Hcall.
  destruct (terminal depth _) as [stop e1] eqn:Hterm.
  apply terminal_frame in Hterm as (_ & _ & Hs).
  cbn [log eboard transposition_table] in Hs.
  assert (stop = true) as ->.
  { rewrite Hs. destruct Hstop as [-> | [-> | ->]]; [done| |].
    - by rewrite orb_true_r.
    - by rewrite !orb_true_r. }
  by injection Hcall as <- <- <-.
Qed.

(** X16: a search that stops at its root leaves the game without a move.
    After the first round, in a game on a grid the Zobrist table covers,
    when the engines search to depth 0, or when a player already has five
    in a row as the round begins, the round raises TypeError: [minimax]
    returns the score of the position with no move. *)
Theorem play_terminal_root (n : nat) (g : game) :
  consistent g → board_in_table (game_board g) →
  first_move_initialised g = true →
  game_depth g = 0 ∨ has_five (game_board g) ai_role
                   ∨ has_five (game_board g) opponent_role →
  play ZOBRIST_TABLE set_order (S n) g = Raised Py.TypeError.
Proof.
  intros Hg Htab Hfirst Hstop. rewrite <- !is_winning_move_spec in Hstop.
  assert (∀ table,
    ∃ s e, search ZOBRIST_TABLE set_order g table = Ok (s, None, e)) as Hnone.
  { intros table. pose proof (search_sound g table (proj1 Hg)) as Hs.
    destruct (search ZOBRIST_TABLE set_order g table) as [[[s mv] e]| |]
      eqn:Hcall; [|done..].
    apply minimax_terminal_no_move in Hcall as ->; [by eexists _, _|done]. }
  rewrite play_S. unfold play_round, choose_move. rewrite Hfirst. cbn [negb].
  destruct (current_role g =? ai1_role).
  - by destruct (Hnone (ai1_table g)) as (s & e & ->).
  - by destruct (Hnone (ai2_table g)) as (s & e & ->).
Qed.

Lemma square_replicate (n : nat) : square (replicate n (replicate n 0)).
Proof.
  unfold square. rewrite length_replicate. apply Forall_replicate.
  by rewrite length_replicate.
Qed.

Lemma size_replicate (n : nat) :
  size (replicate n (replicate n 0)) = Z.of_nat n.
Proof. unfold size. by rewrite length_replicate. Qed.

Lemma get_replicate (n : nat) (x y : Z) :
  get (replicate n (replicate n 0)) x y = 0.
Proof.
  unfold get. destruct (replicate n (replicate n 0) !! Z.to_nat x) as [row|]
    eqn:Hrow; [|done].
  apply lookup_replicate in Hrow as [-> _]. cbn [mbind option_bind].
  destruct (replicate n 0 !! Z.to_nat y) as [c|] eqn:Hc; [|done].
  by apply lookup_replicate in Hc as [-> _].
Qed.

Lemma no_five_replicate (n : nat) (role : Z) :
  role ≠ 0 → is_winning_move (replicate n (replicate n 0)) role = false.
Proof.
  intros Hrole. apply not_true_is_false. rewrite is_winning_move_spec.
  intros (x & y & d & _ & Hfive). destruct (Hfive 0 ltac:(lia)) as [_ Hget].
  by rewrite get_replicate in Hget.
Qed.

(** X17: how a game from the start ends.  A new game on an empty board of
    [n] rows and columns, [n] from 1 to 20 ([main] takes 20 and depth 3),
    ends, whatever the table drawn and the depth, within as many rounds as
    the board has cells plus one: either with a winner, who then has five in
    a row while the other player has not, or with the TypeError of a round
    in which the search named no move; no other exception is raised. *)
Theorem new_game_ends (n : nat) (depth : Z) :
  (1 ≤ n ≤ 20)%nat →
  ∃ r,
    (∀ k, (empties (replicate n (replicate n 0%Z)) < k)%nat →
       play ZOBRIST_TABLE set_order k
         (new_game (Z.of_nat n) (replicate n (replicate n 0)) depth) = r) ∧
    (r = Raised Py.TypeError ∨
     ∃ g', r = Won g' ∧
           has_five (game_board g') (current_role g') ∧
           ¬ has_five (game_board g') (other_role (current_role g'))).
Proof.
  intros Hn. set (b := replicate n (replicate n 0)).
  set (g := new_game (Z.of_nat n) b depth).
  assert (consistent g) as Hg.
  { split_and!; [apply square_replicate| |by left].
    cbn [g new_game game_size game_board]. unfold b.
    by rewrite size_replicate. }
  destruct (play_ends_within (empties b) g Hg (le_n _)) as (r & Hr & Hplay).
  exists r. split; [done|].
  specialize (Hplay (S (empties b)) ltac:(lia)).
  destruct r as [g'|ex|]; [right|left|done].
  - exists g'. split; [done|].
    destruct (play_winner_from (S (empties b)) g g' Hg)
      as (_ & Hwin & Hlose); [by apply no_five_replicate..|done|].
    rewrite <- !is_winning_move_spec. split; [done|]. by rewrite Hlose.
  - destruct (play_raises_from (S (empties b)) g ex Hg Hplay)
      as (Hv & Hl & Hzd).
    destruct ex; [done| | |by specialize (Hzd eq_refl)].
    + destruct (Hv eq_refl) as (_ & _ & Hocc). exfalso. apply Hocc.
      apply get_replicate.
    + destruct (Hl eq_refl) as [[_ Hs]|Hnot].
      * cbn [g new_game game_board] in Hs. unfold b in Hs.
        rewrite size_replicate in Hs. lia.
      * exfalso. apply Hnot. split.
        -- cbn [g new_game game_board]. unfold b. rewrite size_replicate. lia.
        -- intros x y _. cbn [g new_game game_board]. unfold b.
           rewrite get_replicate. lia.
Qed.

End GameLoop.

(** ** Examples: the further theorems at concrete boards and games *)

Lemma winner_Some (r : ending) (role : Z) (b : board) :
  winner r = Some (role, b) →
  ∃ g', r = Won g' ∧ current_role g' = role ∧ game_board g' = b.
Proof. destruct r as [g'| |]; simpl; intros [=]. subst. by exists g'. Qed.

Lemma consistent_four_game : consistent four_game.
Proof.
  split_and!; [apply squareb_spec; vm_compute; reflexivity|reflexivity|].
  by left.
Qed.

(** Player 1 completes the five at (1, 4) in the round of [four_game]. *)
Lemma four_game_won :
  ∃ g', play distinct_table cpython_order 1 four_game = Won g' ∧
        current_role g' = 1 ∧ game_board g' = set_cell four_board 1 4 1.
Proof. apply winner_Some. vm_compute. reflexivity. Qed.

Lemma count_in_line_run_witness :
  0 ≤ count_in_line won_board 0 2 1 0 1 ≤ 5 ∧
  (check_direction won_board 0 2 1 (1, 0) = true ↔
   count_in_line won_board 0 2 1 0 1 = 5).
Proof.
  destruct (count_in_line_run won_board 0 2 1 0 1) as (H1 & _ & H3).
  - apply squareb_spec. vm_compute. reflexivity.
  - split; [exact H1|exact H3].
Defined.

Lemma evaluate_lines_of_win_witness : evaluate_lines won_board 1 = 10000.
Proof.
  destruct (evaluate_lines_of_win won_board 1) as [H _].
  - apply squareb_spec. vm_compute. reflexivity.
  - apply H. vm_compute. reflexivity.
Defined.

Lemma zobrist_hash_index_error_witness :
  zobrist_hash distinct_table uncovered_board = None ∧
  minimax distinct_table cpython_order 1 2 neg_infinity infinity true
    (new_engine uncovered_board) = IndexError.
Proof.
  destruct (zobrist_hash_index_error distinct_table cpython_order
              uncovered_board) as [H1 H2].
  - apply squareb_spec. vm_compute. reflexivity.
  - assert (zobrist_hash distinct_table uncovered_board = None) as Hnone.
    { apply H1. exists 1, 1. split_and!; [reflexivity|discriminate|].
      right. right. right. vm_compute. discriminate. }
    split; [exact Hnone|]. by apply H2.
Defined.

Lemma available_moves_empty_witness :
  available_moves cpython_order empty_board = [].
Proof.
  destruct (available_moves_empty cpython_order cpython_order_enumeration
              empty_board) as (_ & H & _).
  - apply squareb_spec. vm_compute. reflexivity.
  - apply H. intros x y _. apply get_replicate.
Defined.

Lemma is_winning_move_set_cell_witness :
  is_winning_move (set_cell won_board 0 0 2) 1 = true.
Proof.
  destruct (is_winning_move_set_cell won_board 1 0 0 2) as [_ H].
  - apply squareb_spec. vm_compute. reflexivity.
  - reflexivity.
  - discriminate.
  - apply H. vm_compute. reflexivity.
Defined.


Lemma minimax_move_improves_bound_witness :
  ∃ score m e',
    minimax distinct_table cpython_order 3 2 neg_infinity infinity true
      (new_engine position_a) = Ok (score, Some m, e') ∧
    PrimFloat.ltb neg_infinity score = true.
Proof.
  assert (∃ score m,
            answer (minimax distinct_table cpython_order 3 2 neg_infinity
                      infinity true (new_engine position_a))
            = Some (score, Some m)) as (score & m & Hres).
  { do 2 eexists. vm_compute. reflexivity. }
  apply answer_Some in Hres as [e' Hcall].
  exists score, m, e'. split; [exact Hcall|].
  destruct (minimax_move_improves_bound distinct_table cpython_order
              (new_engine position_a) 3 2 neg_infinity infinity true score
              (Some m) e') as [H _].
  - apply squareb_spec. vm_compute. reflexivity.
  - exact Hcall.
  - apply (H m eq_refl).
Defined.

Lemma table_holds_static_scores_witness :
  ∃ score mv e',
    minimax distinct_table cpython_order (S (empties position_a)) 2
      neg_infinity infinity true (new_engine position_a)
      = Ok (score, mv, e') ∧
    ∀ h s d, transposition_table e' !! h = Some (s, d) →
      d ≤ 2 ∧
      ∃ p : board,
        square p ∧ zobrist_hash distinct_table p = Some h ∧
        s = evaluate_board p ∧
        (d = 0 ∨ is_winning_move p ai_role = true
               ∨ is_winning_move p opponent_role = true).
Proof.
  assert (square position_a) as Hsq
    by (apply squareb_spec; vm_compute; reflexivity).
  destruct (minimax_returns distinct_table cpython_order
              cpython_order_enumeration (S (empties position_a)) 2
              neg_infinity infinity true (new_engine position_a))
    as [[[score mv] e'] Hcall].
  - exact Hsq.
  - apply board_in_tableb_spec. vm_compute. reflexivity.
  - simpl. lia.
  - exists score, mv, e'. split; [exact Hcall|]. intros h s d Hlook.
    destruct (table_holds_static_scores distinct_table cpython_order
                cpython_order_enumeration (new_engine position_a) _ 2
                neg_infinity infinity true score mv e' Hsq Hcall h s d Hlook)
      as [Hold|Hnew].
    + simpl in Hold. by rewrite lookup_empty in Hold.
    + exact Hnew.
Defined.

Lemma display_board_move_witness :
  display_board occupied_game None = inl Py.TypeError ∧
  display_board occupied_game (Some (1, 1)) = inl Py.ValueError.
Proof.
  destruct (display_board_move occupied_game 1 1) as (H1 & H2 & _).
  - apply squareb_spec. vm_compute. reflexivity.
  - split; [exact H1|]. apply H2. reflexivity.
Defined.

Lemma consistent_opening_game : consistent opening_game.
Proof.
  split_and!; [apply squareb_spec; vm_compute; reflexivity|reflexivity|].
  by left.
Qed.

Lemma play_round_adds_one_stone_witness :
  ∃ g', play_round distinct_table cpython_order opening_game = Next g' ∧
        (∃ x y, round_adds_stone opening_game g' x y ∧
                get (game_board g') x y = 1) ∧
        current_role g' = 2 ∧ round_number g' = 2.
Proof.
  eexists. split; [reflexivity|].
  destruct (play_round_adds_one_stone distinct_table cpython_order
              cpython_order_enumeration opening_game _
              consistent_opening_game (or_introl eq_refl))
    as ((x & y & Hadd & Hget & _) & Hnext & _).
  destruct (Hnext eq_refl) as (Hrole & Hnum & _).
  split_and!; [|exact Hrole|exact Hnum].
  exists x, y. split; [exact Hadd|exact Hget].
Defined.

Lemma play_ends_witness :
  ∃ r, r ≠ Unfinished ∧
       ∀ n, (empties (game_board opening_game) < n)%nat →
         play distinct_table cpython_order n opening_game = r.
Proof.
  apply (play_ends distinct_table cpython_order cpython_order_enumeration
           opening_game consistent_opening_game).
Defined.

Lemma play_winner_has_five_witness :
  ∃ g', play distinct_table cpython_order 1 four_game = Won g' ∧
        has_five (game_board g') (current_role g') ∧
        current_role g' = 1.
Proof.
  destruct four_game_won as (g' & Hplay & Hrole & Hboard).
  exists g'. split; [exact Hplay|].
  destruct (play_winner_has_five distinct_table cpython_order
              cpython_order_enumeration 1 four_game g') as (Hfive & _ & _).
  - exact consistent_four_game.
  - rewrite <- is_winning_move_spec. apply not_true_iff_false.
    vm_compute. reflexivity.
  - rewrite <- is_winning_move_spec. apply not_true_iff_false.
    vm_compute. reflexivity.
  - exact Hplay.
  - split; [exact Hfive|exact Hrole].
Defined.

Lemma play_raises_witness :
  (play distinct_table cpython_order 1 occupied_game = Raised Py.ValueError ∧
   first_move_initialised occupied_game = false ∧
   get (game_board occupied_game) (centre occupied_game).1
     (centre occupied_game).2 ≠ 0) ∧
  (play distinct_table cpython_order 1 unnumbered_game
     = Raised Py.ZeroDivisionError ∧
   round_number unnumbered_game ≤ 0).
Proof.
  split.
  - assert (play distinct_table cpython_order 1 occupied_game
            = Raised Py.ValueError) as Hplay by reflexivity.
    destruct (play_raises distinct_table cpython_order
                cpython_order_enumeration 1 occupied_game Py.ValueError)
      as (H & _).
    + split_and!; [apply squareb_spec; vm_compute; reflexivity|reflexivity|].
      by left.
    + exact Hplay.
    + destruct (H eq_refl) as (Hf & _ & Hocc). split_and!; done.
  - assert (play distinct_table cpython_order 1 unnumbered_game
            = Raised Py.ZeroDivisionError) as Hplay
      by (vm_compute; reflexivity).
    destruct (play_raises distinct_table cpython_order
                cpython_order_enumeration 1 unnumbered_game
                Py.ZeroDivisionError) as (_ & _ & H & _).
    + split_and!; [apply squareb_spec; vm_compute; reflexivity|reflexivity|].
      by left.
    + exact Hplay.
    + split; [exact Hplay|exact (H eq_refl)].
Defined.

Lemma play_without_candidates_witness :
  play distinct_table cpython_order 1 full_game = Raised Py.TypeError.
Proof.
  destruct (play_without_candidates distinct_table cpython_order
              cpython_order_enumeration 0 full_game) as [_ H].
  - split_and!; [apply squareb_spec; vm_compute; reflexivity|reflexivity|].
    by left.
  - apply board_in_tableb_spec. vm_compute. reflexivity.
  - reflexivity.
  - apply H. intros x y Hin. apply in_bounds_spec in Hin.
    change (size (game_board full_game)) with 2 in Hin.
    assert ((x = 0 ∨ x = 1) ∧ (y = 0 ∨ y = 1)) as [[-> | ->] [-> | ->]]
      by lia; discriminate.
Defined.

Lemma play_keeps_stones_witness :
  ∃ g', play distinct_table cpython_order 1 four_game = Won g' ∧
        size (game_board g') = 5 ∧
        Z.of_nat (empties four_board) =
          Z.of_nat (empties (game_board g')) + (round_number g' - 9 + 1).
Proof.
  destruct four_game_won as (g' & Hplay & _).
  exists g'. split; [exact Hplay|].
  destruct (play_keeps_stones distinct_table cpython_order
              cpython_order_enumeration 1 four_game g' consistent_four_game
              Hplay) as (Hs & _ & _ & He).
  split; [exact Hs|exact He].
Defined.

Lemma new_game_ends_witness :
  ∃ r,
    (∀ k, (empties (replicate 20 (replicate 20 0%Z)) < k)%nat →
       play distinct_table cpython_order k main_game = r) ∧
    (r = Raised Py.TypeError ∨
     ∃ g', r = Won g' ∧
           has_five (game_board g') (current_role g') ∧
           ¬ has_five (game_board g') (other_role (current_role g'))).
Proof.
  apply (new_game_ends distinct_table cpython_order cpython_order_enumeration
           20 3).
  lia.
Defined.

Lemma play_terminal_root_witness :
  play distinct_table cpython_order 1 blind_game = Raised Py.TypeError.
Proof.
  apply (play_terminal_root distinct_table cpython_order
           cpython_order_enumeration 0 blind_game).
  - split_and!; [apply squareb_spec; vm_compute; reflexivity|reflexivity|].
    by left.
  - apply board_in_tableb_spec. vm_compute. reflexivity.
  - reflexivity.
  - left. reflexivity.
Defined.
